(** * Model Gateway: payload construction, registry merge, polling, extraction

    A shallow embedding of [src/services/modelGateway.ts], of the model,
    scene and line actions of [src/store/showrunnerStore.ts] and of the drop
    of a dragged scene in [src/pages/Scriptwriter.tsx].

    - JSON-like run-time values are the inductive [JsVal]; an object is the
      list of its own properties in enumeration order.  Members that a value
      inherits from a prototype are not values of the model: the statements
      about property reads say which names they cover.
    - Asynchronous methods are functions in a small state-and-exception
      monad [M]: the state is the trace of observable events (timer waits
      and HTTP requests), the environment [World] answers the requests.
    - [String.prototype] operations used by the source are written out on
      [string].
    - Numbers are carried as integers: the gateway passes them on, tests
      them for truthiness and prints them, it never computes with them. *)

From Stdlib Require Import ZArith String Ascii List Lia Bool DecimalString.
From stdpp Require Import base strings list gmap.

Set Warnings "-register-all".
Open Scope string_scope.
Open Scope Z_scope.
Open Scope list_scope.

(** ** Run-time values *)

Inductive JsVal : Type :=
| JUndefined
| JNull
| JBool (b : bool)
| JNum (n : Z)
| JStr (s : string)
| JArr (items : list JsVal)
| JObj (props : list (string * JsVal)).

Inductive AllT {A : Type} (P : A -> Type) : list A -> Type :=
| AllT_nil : AllT P []
| AllT_cons x l : P x -> AllT P l -> AllT P (x :: l).

(** Induction principle that reaches the values nested in arrays and objects. *)
Lemma JsVal_rect' (P : JsVal -> Type)
  (Hundef : P JUndefined) (Hnull : P JNull)
  (Hbool : forall b, P (JBool b)) (Hnum : forall n, P (JNum n))
  (Hstr : forall s, P (JStr s))
  (Harr : forall items, AllT P items -> P (JArr items))
  (Hobj : forall props, AllT (fun kv => P (snd kv)) props -> P (JObj props)) :
  forall v, P v.
Proof.
  fix IH 1. intros [ | | b | n | s | items | props ].
  - exact Hundef.
  - exact Hnull.
  - apply Hbool.
  - apply Hnum.
  - apply Hstr.
  - apply Harr. induction items as [|x xs IHxs]; constructor; [apply IH | exact IHxs].
  - apply Hobj. induction props as [|[k x] xs IHxs]; constructor; [apply IH | exact IHxs].
Defined.

Lemma JsVal_ind' (P : JsVal -> Prop)
  (Hundef : P JUndefined) (Hnull : P JNull)
  (Hbool : forall b, P (JBool b)) (Hnum : forall n, P (JNum n))
  (Hstr : forall s, P (JStr s))
  (Harr : forall items, Forall P items -> P (JArr items))
  (Hobj : forall props, Forall (fun kv => P (snd kv)) props -> P (JObj props)) :
  forall v, P v.
Proof.
  fix IH 1. intros [ | | b | n | s | items | props ].
  - exact Hundef.
  - exact Hnull.
  - apply Hbool.
  - apply Hnum.
  - apply Hstr.
  - apply Harr. induction items as [|x xs IHxs]; constructor; [apply IH | exact IHxs].
  - apply Hobj. induction props as [|[k x] xs IHxs]; constructor; [apply IH | exact IHxs].
Qed.

#[global] Instance JsVal_eq_dec : EqDecision JsVal.
Proof.
  intros x. induction x as [ | | b | n | s | items IH | props IH ] using JsVal_rect';
    intros [ | | b' | n' | s' | items' | props' ];
    try (right; discriminate); try (left; reflexivity).
  - destruct (decide (b = b')) as [->|]; [left; reflexivity | right; congruence].
  - destruct (decide (n = n')) as [->|]; [left; reflexivity | right; congruence].
  - destruct (decide (s = s')) as [->|]; [left; reflexivity | right; congruence].
  - assert (D : {items = items'} + {items <> items'}).
    { revert items'. induction IH as [|x xs Hx _ IHxs]; intros [|y ys];
        try (right; discriminate); try (left; reflexivity).
      destruct (Hx y) as [->|]; [|right; congruence].
      destruct (IHxs ys) as [->|]; [left; reflexivity | right; congruence]. }
    destruct D as [->|]; [left; reflexivity | right; congruence].
  - assert (D : {props = props'} + {props <> props'}).
    { revert props'. induction IH as [|[k x] xs Hx _ IHxs]; intros [|[k' y] ys];
        try (right; discriminate); try (left; reflexivity).
      destruct (decide (k = k')) as [->|]; [|right; congruence].
      simpl in Hx. destruct (Hx y) as [->|]; [|right; congruence].
      destruct (IHxs ys) as [->|]; [left; reflexivity | right; congruence]. }
    destruct D as [->|]; [left; reflexivity | right; congruence].
Defined.

(** ** Objects as property lists *)

(** [obj[key]] on the own properties of a plain object; a missing property
    reads as [undefined].  A name that the object does not own and that
    [Object.prototype] defines (see [inherited_name]) reads in the language
    as the inherited member, a function or the prototype, which the values
    modelled here do not include: the statements about such reads exclude
    those names. *)
Fixpoint obj_get (props : list (string * JsVal)) (key : string) : JsVal :=
  match props with
  | [] => JUndefined
  | (k, v) :: rest => if String.eqb k key then v else obj_get rest key
  end.

(** [obj[key] = v]: overwrite in place, or add as the last property. *)
Fixpoint obj_set {A : Type} (props : list (string * A)) (key : string) (v : A)
  : list (string * A) :=
  match props with
  | [] => [(key, v)]
  | (k, x) :: rest =>
      if String.eqb k key then (k, v) :: rest else (k, x) :: obj_set rest key v
  end.

Definition obj_has {A : Type} (props : list (string * A)) (key : string) : bool :=
  existsb (fun kv => String.eqb (fst kv) key) props.

(** The names of the members that every plain object inherits from
    [Object.prototype]. *)
Definition inherited_names : list string :=
  [ "constructor"; "__defineGetter__"; "__defineSetter__"; "hasOwnProperty";
    "__lookupGetter__"; "__lookupSetter__"; "isPrototypeOf";
    "propertyIsEnumerable"; "toString"; "valueOf"; "__proto__"; "toLocaleString" ].

Definition inherited_name (key : string) : bool :=
  existsb (String.eqb key) inherited_names.

(** Every object of the value has pairwise distinct property names, as the
    objects of the language have. *)
Fixpoint wf_val (v : JsVal) : bool :=
  match v with
  | JArr items => forallb wf_val items
  | JObj props =>
      bool_decide (NoDup (map fst props)) &&
      forallb (fun kv => match kv with (_, sub) => wf_val sub end) props
  | _ => true
  end.

(** ** [String.prototype] operations used by the gateway *)

Fixpoint str_drop (n : nat) (s : string) : string :=
  match n, s with
  | O, _ => s
  | S n', String _ r => str_drop n' r
  | S _, EmptyString => EmptyString
  end.

Fixpoint str_take (n : nat) (s : string) : string :=
  match n, s with
  | O, _ => EmptyString
  | S n', String c r => String c (str_take n' r)
  | S _, EmptyString => EmptyString
  end.

(** [s.startsWith(p)] *)
Definition startsWith (p s : string) : bool := String.prefix p s.

(** [s.endsWith(p)]: the last [p.length] characters of [s] are [p]. *)
Definition endsWith (p s : string) : bool :=
  (String.length p <=? String.length s)%nat &&
  String.eqb (str_drop (String.length s - String.length p) s) p.

(** [s.slice(start, end)], negative positions counting from the end. *)
Definition slice (s : string) (start end_ : Z) : string :=
  let len := Z.of_nat (String.length s) in
  let from := if start <? 0 then Z.max (len + start) 0 else Z.min start len in
  let to := if end_ <? 0 then Z.max (len + end_) 0 else Z.min end_ len in
  str_take (Z.to_nat (to - from)) (str_drop (Z.to_nat from) s).

(** ** The payload constructor *)

Definition is_undefined (v : JsVal) : bool :=
  match v with JUndefined => true | _ => false end.

(** [constructPayload(mapping, inputs)], modelGateway.ts lines 86-104.  The
    [for (const key in mapping)] loop visits the properties in enumeration
    order and assigns [result[key]] for each.  On the fresh [{}] the
    assignment adds or overwrites an own property, except for the key
    [__proto__]: there it goes to the setter of [Object.prototype] and
    creates no own property (it replaces the prototype of [result] when the
    value is an object or [null], which the own properties, the ones that
    [JSON.stringify] sends, do not show). *)
Fixpoint constructPayload (mapping : JsVal) (inputs : list (string * JsVal)) : JsVal :=
  match mapping with
  | JStr s =>
      if startsWith "{{" s && endsWith "}}" s then
        let key := slice s 2 (-2) in
        if negb (is_undefined (obj_get inputs key)) then obj_get inputs key else mapping
      else mapping
  | JArr items => JArr (map (fun item => constructPayload item inputs) items)
  | JObj props =>
      JObj (fold_left
              (fun result kv =>
                 match kv with
                 | (key, sub) =>
                     if String.eqb key "__proto__" then result
                     else obj_set result key (constructPayload sub inputs)
                 end)
              props [])
  | _ => mapping
  end.

(** ** Property access, truthiness and conversion to string *)

(** A canonical array index: decimal digits without a leading zero. *)
Definition parse_index (key : string) : option nat :=
  match NilEmpty.uint_of_string key with
  | Some u =>
      let n := Nat.of_uint u in
      if String.eqb (NilZero.string_of_uint (Nat.to_uint n)) key then Some n else None
  | None => None
  end.

(** [value[key]] for a value that is neither [null] nor [undefined].  Only
    own data properties are modelled: members inherited from a prototype
    (methods) read as [undefined] here, and the length and the characters of
    a string are those of its bytes, which are the UTF-16 units of the
    language for ASCII text.  [plain_read] delimits the reads on which this
    is what the language gives. *)
Definition member (v : JsVal) (key : string) : JsVal :=
  match v with
  | JObj props => obj_get props key
  | JArr items =>
      if String.eqb key "length" then JNum (Z.of_nat (length items))
      else match parse_index key with
           | Some i => nth i items JUndefined
           | None => JUndefined
           end
  | JStr s =>
      if String.eqb key "length" then JNum (Z.of_nat (String.length s))
      else match parse_index key with
           | Some i => match String.get i s with
                       | Some c => JStr (String c EmptyString)
                       | None => JUndefined
                       end
           | None => JUndefined
           end
  | _ => JUndefined
  end.

(** [key in Object(value)], own properties only. *)
Definition has_member (v : JsVal) (key : string) : bool :=
  match v with
  | JObj props => obj_has props key
  | JArr items =>
      String.eqb key "length" ||
      match parse_index key with Some i => (i <? length items)%nat | None => false end
  | JStr s =>
      String.eqb key "length" ||
      match parse_index key with Some i => (i <? String.length s)%nat | None => false end
  | _ => false
  end.

(** The reads [value[key]] on which [member] gives what the language
    gives: a property that a plain object owns, or a name that it does not
    inherit; the length and the elements of an array; the length and the
    characters of an ASCII string.  The other members of arrays and strings,
    and those of numbers and booleans, come from their prototypes. *)
Definition plain_read (v : JsVal) (key : string) : bool :=
  let indexed :=
    String.eqb key "length" ||
    match parse_index key with Some _ => true | None => false end in
  match v with
  | JObj props => obj_has props key || negb (inherited_name key)
  | JArr _ => indexed
  | JStr s =>
      forallb (fun c => (nat_of_ascii c <? 128)%nat) (list_ascii_of_string s) && indexed
  | _ => false
  end.

Definition is_nullish (v : JsVal) : bool :=
  match v with JUndefined | JNull => true | _ => false end.

(** ToBoolean. *)
Definition truthy (v : JsVal) : bool :=
  match v with
  | JUndefined | JNull => false
  | JBool b => b
  | JNum n => negb (n =? 0)
  | JStr s => negb (String.eqb s "")
  | JArr _ | JObj _ => true
  end.

Definition string_of_Z (n : Z) : string := NilZero.string_of_int (Z.to_int n).

Fixpoint join (sep : string) (l : list string) : string :=
  match l with
  | [] => ""
  | [x] => x
  | x :: r => x +:+ sep +:+ join sep r
  end.

(** ToString, as applied by [String(v)], template literals and the
    arguments of [replace]. *)
Fixpoint js_toString (v : JsVal) : string :=
  match v with
  | JUndefined => "undefined"
  | JNull => "null"
  | JBool true => "true"
  | JBool false => "false"
  | JNum n => string_of_Z n
  | JStr s => s
  | JArr items =>
      join "," (map (fun x => if is_nullish x then "" else js_toString x) items)
  | JObj _ => "[object Object]"
  end.

(** ** Searching and replacing in strings *)

(** [s.toLowerCase()] on the ASCII letters. *)
Definition lower_char (c : ascii) : ascii :=
  let n := nat_of_ascii c in
  if ((65 <=? n) && (n <=? 90))%nat then ascii_of_nat (n + 32) else c.

Fixpoint toLowerCase (s : string) : string :=
  match s with
  | EmptyString => EmptyString
  | String c r => String (lower_char c) (toLowerCase r)
  end.

(** The text before and after the leftmost occurrence of [pat] in [s]. *)
Fixpoint find_first (pat s : string) : option (string * string) :=
  if String.prefix pat s then Some (EmptyString, str_drop (String.length pat) s)
  else match s with
       | EmptyString => None
       | String c r =>
           match find_first pat r with
           | Some (before, after) => Some (String c before, after)
           | None => None
           end
       end.

(** GetSubstitution for a string pattern (no capture groups): [$$], [$&],
    [$`] and [$'] are expanded in the replacement text, every other
    character stands for itself. *)
Fixpoint getSubstitution (matched before after replacement : string) : string :=
  match replacement with
  | EmptyString => EmptyString
  | String "$" (String "$" r) => String "$" (getSubstitution matched before after r)
  | String "$" (String "&" r) => matched +:+ getSubstitution matched before after r
  | String "$" (String "`" r) => before +:+ getSubstitution matched before after r
  | String "$" (String "'" r) => after +:+ getSubstitution matched before after r
  | String c r => String c (getSubstitution matched before after r)
  end.

(** [s.replace(pat, replacement)] with a string pattern: only the leftmost
    occurrence is replaced. *)
Definition replace (s pat replacement : string) : string :=
  match find_first pat s with
  | Some (before, after) =>
      before +:+ getSubstitution pat before after replacement +:+ after
  | None => s
  end.

(** [s.split(sep)] for a one-character separator. *)
Fixpoint split_on (sep : ascii) (s : string) : list string :=
  match s with
  | EmptyString => [EmptyString]
  | String c r =>
      if Ascii.eqb c sep then EmptyString :: split_on sep r
      else match split_on sep r with
           | x :: rest => String c x :: rest
           | [] => [String c EmptyString]
           end
  end.

(** [\w] *)
Definition is_word_char (c : ascii) : bool :=
  let n := nat_of_ascii c in
  (((48 <=? n) && (n <=? 57)) || ((65 <=? n) && (n <=? 90)) ||
   ((97 <=? n) && (n <=? 122)) || (n =? 95))%nat.

Fixpoint take_word (s : string) : string :=
  match s with
  | String c r => if is_word_char c then String c (take_word r) else EmptyString
  | EmptyString => EmptyString
  end.

(** A match of [/\{\{(\w+)\}\}/] anchored at the start of [s]: the captured
    name. *)
Definition match_token (s : string) : option string :=
  if String.prefix "{{" s then
    let name := take_word (str_drop 2 s) in
    if negb (String.eqb name "") &&
       String.prefix "}}" (str_drop (2 + String.length name) s)
    then Some name else None
  else None.

(** [s.replace(/\{\{(\w+)\}\}/g, (_, key) => f(key))].  [skip] counts the
    characters of the last match that are still to be passed over. *)
Fixpoint replace_tokens (f : string -> string) (skip : nat) (s : string) : string :=
  match s with
  | EmptyString => EmptyString
  | String c r =>
      match skip with
      | S k => replace_tokens f k r
      | O =>
          match match_token s with
          | Some name => f name +:+ replace_tokens f (String.length name + 3) r
          | None => String c (replace_tokens f O r)
          end
      end
  end.

(** ** Path extraction: lodash [get]

    [get] comes from lodash-es.  The model follows [get], [baseGet],
    [castPath] and [isKey]; [stringToPath] is modelled for paths made of
    property names, dots and bracketed indices ([choices[0].message.content],
    [data[0].url], [output[0]]): the path is cut at [.], [[] and []].
    Quoted bracket keys and empty segments are outside the model. *)

Definition is_path_sep (c : ascii) : bool :=
  Ascii.eqb c "." || Ascii.eqb c "[" || Ascii.eqb c "]".

Definition flush (cur : string) : list string :=
  if String.eqb cur "" then [] else [cur].

Fixpoint stringToPath_from (cur : string) (s : string) : list string :=
  match s with
  | EmptyString => flush cur
  | String c r =>
      if is_path_sep c then (flush cur ++ stringToPath_from EmptyString r)%list
      else stringToPath_from (cur +:+ String c EmptyString) r
  end.

Definition stringToPath (s : string) : list string := stringToPath_from EmptyString s.

(** [/^\w*$/] *)
Fixpoint reIsPlainProp (s : string) : bool :=
  match s with
  | EmptyString => true
  | String c r => is_word_char c && reIsPlainProp r
  end.

(** A [.] or a bracket pair: [/\.|\[(?:[^[\]]*|...)\]/]. *)
Fixpoint reIsDeepProp_from (opened : bool) (s : string) : bool :=
  match s with
  | EmptyString => false
  | String c r =>
      if Ascii.eqb c "." then true
      else if Ascii.eqb c "[" then reIsDeepProp_from true r
      else if Ascii.eqb c "]" then opened || reIsDeepProp_from false r
      else reIsDeepProp_from opened r
  end.

Definition reIsDeepProp (s : string) : bool := reIsDeepProp_from false s.

Definition isKey (value : string) (object : JsVal) : bool :=
  reIsPlainProp value || negb (reIsDeepProp value) ||
  (negb (is_nullish object) && has_member object value).

Definition castPath (value : string) (object : JsVal) : list string :=
  if isKey value object then [value] else stringToPath value.

(** The loop of [baseGet]: it stops at the first [null] or [undefined]. *)
Fixpoint baseGet_walk (object : JsVal) (path : list string) : option JsVal :=
  match path with
  | [] => Some object
  | key :: rest =>
      if is_nullish object then None else baseGet_walk (member object key) rest
  end.

Definition baseGet (object : JsVal) (path : string) : JsVal :=
  match castPath path object with
  | [] => JUndefined
  | keys => match baseGet_walk object keys with
            | Some v => v
            | None => JUndefined
            end
  end.

Definition get (object : JsVal) (path : string) : JsVal :=
  if is_nullish object then JUndefined else baseGet object path.

(** modelGateway.ts lines 7-9. *)
Definition resolvePath (obj : JsVal) (path : string) : JsVal := get obj path.

(** ** Templates without markers *)



(** No object of the template has a property named [__proto__]. *)
Fixpoint no_proto_key (v : JsVal) : bool :=
  match v with
  | JArr items => forallb no_proto_key items
  | JObj props =>
      forallb (fun kv => match kv with
                         | (key, sub) => negb (String.eqb key "__proto__") && no_proto_key sub
                         end) props
  | _ => true
  end.



(** ** Base64, as produced by [FileReader.readAsDataURL] *)

Definition b64_alphabet : string :=
  "ABCDEFGHIJKLMNOPQRSTUVWXYZabcdefghijklmnopqrstuvwxyz0123456789+/".

Definition b64_char (n : N) : ascii :=
  match String.get (N.to_nat n) b64_alphabet with
  | Some c => c
  | None => "="%char
  end.

Fixpoint base64 (bytes : list Byte.byte) : string :=
  match bytes with
  | [] => EmptyString
  | [a] =>
      let x := Byte.to_N a in
      String (b64_char (N.shiftr x 2))
        (String (b64_char (N.shiftl (N.land x 3) 4)) "==")
  | [a; b] =>
      let x := Byte.to_N a in
      let y := Byte.to_N b in
      String (b64_char (N.shiftr x 2))
        (String (b64_char (N.lor (N.shiftl (N.land x 3) 4) (N.shiftr y 4)))
           (String (b64_char (N.shiftl (N.land y 15) 2)) "="))
  | a :: b :: c :: rest =>
      let x := Byte.to_N a in
      let y := Byte.to_N b in
      let z := Byte.to_N c in
      String (b64_char (N.shiftr x 2))
        (String (b64_char (N.lor (N.shiftl (N.land x 3) 4) (N.shiftr y 4)))
           (String (b64_char (N.lor (N.shiftl (N.land y 15) 2) (N.shiftr z 6)))
              (String (b64_char (N.land z 63)) (base64 rest))))
  end.

(** ** Model definitions

    Modelled from the spec: the declarations of [AIModelConfig] and
    [APIEndpointDefinition] live in [../types], which is not part of the
    sources at hand; the records follow section 3 of the specification and
    the way the gateway reads the fields. *)

Record APIEndpointDefinition := {
  url : string;
  method : string;
  headers : option (list (string * string));
  paramMapping : JsVal;
  outputMapping : option (list (string * string))
}.

Record Endpoints := {
  generate : option APIEndpointDefinition;
  status : option APIEndpointDefinition
}.

Record AIModelConfig := {
  id : string;
  name : string;
  provider : string;
  family : string;
  contextWindow : Z;
  isDefault : option bool;
  endpoints : option Endpoints
}.

(** [mapping?.[field] || fallback] on a [Record<string, string>]. *)
Definition mapping_or (mapping : option (list (string * string)))
  (field fallback : string) : string :=
  match mapping with
  | Some m =>
      match List.find (fun kv => String.eqb (fst kv) field) m with
      | Some (_, path) => if String.eqb path "" then fallback else path
      | None => fallback
      end
  | None => fallback
  end.

(** ** Errors, the network and the event trace *)

Inductive Exn :=
| Error (message : string)        (* [new Error(message)] raised by the gateway *)
| TypeError (message : string)    (* raised by the runtime and by [fetch] *)
| SyntaxError (message : string)  (* raised by [response.json()] *)
| ProgressEvent (type : string).  (* an event handed to [reject]: not an error object *)

(** [e.message] as a template literal prints it; an event has none. *)
Definition message (e : Exn) : string :=
  match e with
  | Error m | TypeError m | SyntaxError m => m
  | ProgressEvent _ => "undefined"
  end.

Inductive Res (A : Type) :=
| Ok (a : A)
| Throw (e : Exn).
Arguments Ok {A} a.
Arguments Throw {A} e.

Record Blob := { blob_type : string; blob_bytes : list Byte.byte }.

Record Response := {
  resp_status : Z;
  resp_text : string;              (* [await response.text()] *)
  resp_json : option JsVal;        (* [await response.json()]; [None]: not JSON *)
  resp_blob : Blob                 (* [await response.blob()] *)
}.

(** [response.ok] *)
Definition resp_ok (r : Response) : bool :=
  (200 <=? resp_status r) && (resp_status r <=? 299).

Record Request := {
  req_url : string;
  req_method : option string;
  req_headers : list (string * string);
  req_body : option JsVal          (* the value handed to [JSON.stringify] *)
}.

Inductive FetchOutcome :=
| NetworkError (reason : string)   (* [fetch] rejects *)
| Responded (r : Response).

Inductive Event :=
| Waited (ms : Z)                  (* a [setTimeout] wait that elapsed *)
| Fetched (req : Request).         (* an HTTP request that was issued *)

Definition Trace := list Event.

Definition is_fetch (e : Event) : bool :=
  match e with Fetched _ => true | Waited _ => false end.

Definition is_wait (e : Event) : bool :=
  match e with Waited _ => true | Fetched _ => false end.

Definition fetch_count (tr : Trace) : nat := length (List.filter is_fetch tr).
Definition wait_count (tr : Trace) : nat := length (List.filter is_wait tr).

(** What a run can observe of its surroundings: the answer to its [n]-th
    HTTP request, the contents of [localStorage], whether a [FileReader]
    reads a blob to its end, and the collaborators of the [google_native]
    path: the outcome of loading the SDK module, what its client, made with
    an API key, answers for a model, a prompt and a system instruction, and
    what [geminiService.generateVisual] answers. *)
Record World := {
  net : nat -> Request -> FetchOutcome;
  localStorage : gmap string string;
  readable : Blob -> bool;
  import_genai : Res unit;
  genai_generateContent : string -> string -> string -> option string -> Res (option string);
  gemini_generateVisual : string -> string -> Res JsVal
}.

(** Computations that append to the trace and may throw. *)
Definition M (A : Type) : Type := Trace -> Res A * Trace.

Definition ret {A} (a : A) : M A := fun tr => (Ok a, tr).
Definition throw {A} (e : Exn) : M A := fun tr => (Throw e, tr).
Definition bind {A B} (c : M A) (k : A -> M B) : M B :=
  fun tr => match c tr with
            | (Ok a, tr') => k a tr'
            | (Throw e, tr') => (Throw e, tr')
            end.
Definition try_catch {A} (c : M A) (handler : Exn -> M A) : M A :=
  fun tr => match c tr with
            | (Ok a, tr') => (Ok a, tr')
            | (Throw e, tr') => handler e tr'
            end.
Definition lift {A} (r : Res A) : M A := fun tr => (r, tr).

Notation "'let!' x ':=' c 'in' k" := (bind c (fun x => k))
  (at level 10, x name, c at level 100, k at level 200).
Notation "c ';;' k" := (bind c (fun _ => k))
  (at level 100, k at level 200, right associativity).

(** ** The gateway *)

(** Hardcoded fallback models, modelGateway.ts lines 13-50. *)
Definition LOCAL_FALLBACK_MODELS : list JsVal :=
  [ JObj [("id", JStr "gemini-2.5-flash"); ("name", JStr "Gemini 2.5 Flash");
          ("provider", JStr "google_native"); ("family", JStr "text");
          ("contextWindow", JNum 1000000); ("isDefault", JBool true)];
    JObj [("id", JStr "gemini-3-pro-preview"); ("name", JStr "Gemini 3.0 Pro");
          ("provider", JStr "google_native"); ("family", JStr "text");
          ("contextWindow", JNum 2000000)];
    JObj [("id", JStr "gemini-2.5-flash-image"); ("name", JStr "Gemini 2.5 Flash (Image)");
          ("provider", JStr "google_native"); ("family", JStr "image");
          ("contextWindow", JNum 0)];
    JObj [("id", JStr "gemini-3-pro-image-preview"); ("name", JStr "Gemini 3.0 Pro (Image)");
          ("provider", JStr "google_native"); ("family", JStr "image");
          ("contextWindow", JNum 0)];
    JObj [("id", JStr "veo-3.1"); ("name", JStr "Veo 3.1 (Video)");
          ("provider", JStr "google_native"); ("family", JStr "video");
          ("contextWindow", JNum 0)] ].

Definition MODELS_URL : string :=
  "https://raw.githubusercontent.com/showrunner-ai/models/main/models.json".

Definition POLLING_INTERVAL : Z := 2000.
Definition MAX_ATTEMPTS : nat := 60.

(** [value.member] where [value] may be [null] or [undefined]. *)
Definition get_member (v : JsVal) (key : string) : Res JsVal :=
  if is_nullish v
  then Throw (TypeError ("Cannot read properties of " +:+ js_toString v))
  else Ok (member v key).

(** The request of [fetch(url)]. *)
Definition url_request (u : string) : Request :=
  {| req_url := u; req_method := None; req_headers := []; req_body := None |}.

(** The request of [fetch(statusUrl, { method: statusEndpoint.method, headers })]. *)
Definition status_request (statusEndpoint : APIEndpointDefinition) (statusUrl : string)
  (hdrs : list (string * string)) : Request :=
  {| req_url := statusUrl; req_method := Some (method statusEndpoint);
     req_headers := hdrs; req_body := None |}.

Section Gateway.

Variable w : World.

(** [await fetch(url, init)]: the request is recorded, the world answers. *)
Definition fetch (req : Request) : M Response :=
  fun tr =>
    match net w (fetch_count tr) req with
    | NetworkError reason => (Throw (TypeError reason), (tr ++ [Fetched req])%list)
    | Responded r => (Ok r, (tr ++ [Fetched req])%list)
    end.

Definition fetch_url (u : string) : M Response := fetch (url_request u).

(** [await new Promise(r => setTimeout(r, ms))] *)
Definition sleep (ms : Z) : M unit := fun tr => (Ok tt, (tr ++ [Waited ms])%list).

(** [await response.json()] *)
Definition json (r : Response) : M JsVal :=
  match resp_json r with
  | Some v => ret v
  | None => throw (SyntaxError "Unexpected token in JSON")
  end.

(** [localStorage.getItem(key)] *)
Definition getItem (key : string) : option string := localStorage w !! key.

(** [apiKey || ''] *)
Definition or_empty (apiKey : option string) : string :=
  match apiKey with Some k => k | None => "" end.

(** modelGateway.ts lines 56-79. *)
Definition fetchRemoteDefinitions : M (list JsVal) :=
  try_catch
    (let! response := fetch_url MODELS_URL in
     if negb (resp_ok response) then ret LOCAL_FALLBACK_MODELS
     else
       let! data := json response in
       let! models := lift (get_member data "models") in
       match models with
       | JArr items => ret items
       | _ => ret LOCAL_FALLBACK_MODELS
       end)
    (fun _ => ret LOCAL_FALLBACK_MODELS).

(** The header loop shared by lines 136-142 and 184-189:
    [headers[key] = value.replace('{{key}}', credential)]. *)
Definition resolveHeaders (hs : option (list (string * string))) (credential : string)
  : list (string * string) :=
  match hs with
  | Some entries =>
      fold_left
        (fun acc kv =>
           match kv with
           | (key, value) => obj_set acc key (replace value "{{key}}" credential)
           end)
        entries []
  | None => []
  end.

(** The replacer of lines 128-133, on the own properties of the inputs: a
    token whose name the inputs only inherit ([{{valueOf}}], say) is outside
    what is modelled, see [plain_tokens]. *)
Definition url_token (requestInputs : list (string * JsVal)) (apiKey : option string)
  (key : string) : string :=
  if negb (is_undefined (obj_get requestInputs key))
  then js_toString (obj_get requestInputs key)
  else if String.eqb key "key" && negb (String.eqb (or_empty apiKey) "")
       then or_empty apiKey
       else "{{" +:+ key +:+ "}}".

(** The polling loop of lines 196-222; [remaining] is [MAX_ATTEMPTS - i]. *)
Fixpoint pollLoop (remaining : nat) (statusEndpoint : APIEndpointDefinition)
  (statusUrl : string) (hdrs : list (string * string)) : M JsVal :=
  match remaining with
  | O => throw (Error "Generation timed out.")
  | S remaining' =>
      sleep POLLING_INTERVAL ;;
      let! response := fetch (status_request statusEndpoint statusUrl hdrs) in
      if negb (resp_ok response)
      then pollLoop remaining' statusEndpoint statusUrl hdrs
      else
        let! data := json response in
        let statusPath := mapping_or (outputMapping statusEndpoint) "status" "status" in
        let statusValue := resolvePath data statusPath in
        (* [statusValue?.toLowerCase()] *)
        let! lowered :=
          match statusValue with
          | JUndefined | JNull => ret None
          | JStr s => ret (Some (toLowerCase s))
          | _ => throw (TypeError "statusValue?.toLowerCase is not a function")
          end in
        let among (l : list string) :=
          match lowered with
          | Some s => existsb (String.eqb s) l
          | None => false
          end in
        if among ["succeeded"; "completed"; "done"; "success"] then ret data
        else if among ["failed"; "error"]
             then throw (Error ("Generation failed with status: " +:+ js_toString statusValue))
             else pollLoop remaining' statusEndpoint statusUrl hdrs
  end.

(** modelGateway.ts lines 173-223. *)
Definition pollForCompletion (initialResponse : JsVal) (config : AIModelConfig)
  (apiKey : string) : M JsVal :=
  match endpoints config with
  | None => throw (TypeError "Cannot read properties of undefined (reading 'status')")
  | Some eps =>
      let! taskIdPath :=
        match generate eps with
        | Some g => ret (mapping_or (outputMapping g) "id" "id")
        | None => throw (TypeError "Cannot read properties of undefined (reading 'outputMapping')")
        end in
      let taskId := resolvePath initialResponse taskIdPath in
      if negb (truthy taskId)
      then throw (Error "Could not extract Task ID from initial response for polling.")
      else
        match status eps with
        | None => throw (TypeError "Cannot read properties of undefined (reading 'headers')")
        | Some statusEndpoint =>
            let hdrs := resolveHeaders (headers statusEndpoint) apiKey in
            let statusUrl := replace (url statusEndpoint) "{{id}}" (js_toString taskId) in
            pollLoop MAX_ATTEMPTS statusEndpoint statusUrl hdrs
        end
  end.

(** modelGateway.ts lines 109-168. *)
Definition executeGenericRequest (config : AIModelConfig)
  (inputs : list (string * JsVal)) : M JsVal :=
  let apiKey := getItem ("apikey_" +:+ provider config) in
  match (match endpoints config with Some eps => generate eps | None => None end) with
  | None => throw (Error ("No generation endpoint defined for model " +:+ name config))
  | Some endpoint =>
      let requestInputs := obj_set inputs "id" (JStr (id config)) in
      let body := constructPayload (paramMapping endpoint) requestInputs in
      let finalUrl := replace_tokens (url_token requestInputs apiKey) O (url endpoint) in
      let hdrs := resolveHeaders (headers endpoint) (or_empty apiKey) in
      let! response :=
        fetch {| req_url := finalUrl; req_method := Some (method endpoint);
                 req_headers := hdrs; req_body := Some body |} in
      if negb (resp_ok response)
      then throw (Error ("Provider Error (" +:+ string_of_Z (resp_status response)
                         +:+ "): " +:+ resp_text response))
      else
        let! data := json response in
        match (match endpoints config with Some eps => status eps | None => None end) with
        | Some _ => pollForCompletion data config (or_empty apiKey)
        | None => ret data
        end
  end.

(** [throw new Error(`[${config.name}] Error: ${e.message}`)] *)
Definition wrap_error (config : AIModelConfig) (e : Exn) : Exn :=
  Error ("[" +:+ name config +:+ "] Error: " +:+ message e).

(** modelGateway.ts lines 228-258. *)
Definition generateText (prompt : string) (config : AIModelConfig)
  (systemInstruction : option string) : M string :=
  if String.eqb (provider config) "google_native" then
    let! _ := lift (import_genai w) in
    let apiKey := or_empty (getItem "gemini_api_key") in
    if String.eqb apiKey "" then throw (Error "Google API Key not found.")
    else
      let! text :=
        lift (genai_generateContent w apiKey (id config) prompt systemInstruction) in
      ret (or_empty text)
  else
    try_catch
      (let! rawResponse := executeGenericRequest config [("prompt", JStr prompt)] in
       let! resultPath :=
         match endpoints config with
         | None => ret "text"
         | Some eps =>
             match generate eps with
             | Some g => ret (mapping_or (outputMapping g) "text" "text")
             | None => throw (TypeError "Cannot read properties of undefined (reading 'outputMapping')")
             end
         end in
       match resolvePath rawResponse resultPath with
       | JStr text => ret text
       | _ => throw (Error "Could not extract text from provider response.")
       end)
      (fun e => throw (wrap_error config e)).

(** [reader.result] after [FileReader.readAsDataURL(blob)] has read the
    blob to its end. *)
Definition readAsDataURL (b : Blob) : string :=
  "data:" +:+ blob_type b +:+ ";base64," +:+ base64 (blob_bytes b).

(** [text.split(',')[1]] *)
Definition second_field (text : string) : JsVal :=
  match split_on "," text with
  | _ :: x :: _ => JStr x
  | _ => JUndefined
  end.

(** The promise of lines 289-297: it resolves with the second field of what
    the reader has read, and [reader.onerror = reject] rejects it with the
    [error] event of the reader when the blob cannot be read. *)
Definition read_image (b : Blob) : M JsVal :=
  if readable w b then ret (second_field (readAsDataURL b))
  else throw (ProgressEvent "error").

(** modelGateway.ts lines 263-309.  The [try] block settles on a value
    ([inl]) or returns the promise of the reader without awaiting it
    ([inr]): a rejection of that promise is not seen by the [catch]. *)
Definition generateVisual (prompt : string) (config : AIModelConfig) : M JsVal :=
  if String.eqb (provider config) "google_native" then
    lift (gemini_generateVisual w prompt (id config))
  else
    let! outcome :=
    try_catch
      (let! rawResponse := executeGenericRequest config [("prompt", JStr prompt)] in
       let endpointDef :=
         match endpoints config with
         | Some eps => match status eps with Some s => Some s | None => generate eps end
         | None => None
         end in
       let resultPath :=
         mapping_or (match endpointDef with Some e => outputMapping e | None => None end)
           "image" "image_url" in
       let imageUrl := resolvePath rawResponse resultPath in
       if negb (truthy imageUrl)
       then throw (Error "Could not extract image URL from provider response.")
       else
         match imageUrl with
         | JStr s =>
             if startsWith "http" s then
               let! imgResp := fetch_url s in
               ret (inr (resp_blob imgResp))
             else if startsWith "data:image" s then ret (inl (second_field s))
             else ret (inl imageUrl)
         | _ => throw (TypeError "imageUrl.startsWith is not a function")
         end)
      (fun e => throw (wrap_error config e)) in
    match outcome with
    | inl value => ret value
    | inr blob => read_image blob
    end.

End Gateway.

(** ** Polling, seen from outside *)

(** The trace of [n] polling attempts: each one waits [POLLING_INTERVAL]
    and then issues the status request. *)
Fixpoint attempts_trace (n : nat) (req : Request) : Trace :=
  match n with
  | O => []
  | S k => Waited POLLING_INTERVAL :: Fetched req :: attempts_trace k req
  end.

(** [pollForCompletion] reaches its loop on [initialResponse]: the two
    endpoints are defined and the extracted task id is truthy. *)
Definition can_poll (config : AIModelConfig) (initialResponse : JsVal)
  (statusEndpoint : APIEndpointDefinition) (taskId : JsVal) : Prop :=
  exists eps g,
    endpoints config = Some eps /\ generate eps = Some g /\
    status eps = Some statusEndpoint /\
    taskId = resolvePath initialResponse (mapping_or (outputMapping g) "id" "id") /\
    truthy taskId = true.

(** The status request of the loop. *)
Definition poll_request (statusEndpoint : APIEndpointDefinition) (taskId : JsVal)
  (apiKey : string) : Request :=
  status_request statusEndpoint
    (replace (url statusEndpoint) "{{id}}" (js_toString taskId))
    (resolveHeaders (headers statusEndpoint) apiKey).

(** The status value that the loop reads from a response body. *)
Definition status_of (statusEndpoint : APIEndpointDefinition) (data : JsVal) : JsVal :=
  resolvePath data (mapping_or (outputMapping statusEndpoint) "status" "status").

Definition success_statuses : list string := ["succeeded"; "completed"; "done"; "success"].
Definition failure_statuses : list string := ["failed"; "error"].

(** The answer carries a status of the success terminal set. *)
Definition yields_success (statusEndpoint : APIEndpointDefinition) (o : FetchOutcome) : Prop :=
  exists r data s,
    o = Responded r /\ resp_ok r = true /\ resp_json r = Some data /\
    status_of statusEndpoint data = JStr s /\ In (toLowerCase s) success_statuses.

(** The answer ends the attempt without a verdict: a non-success HTTP
    response, or a body whose status is absent or is a string outside both
    terminal sets. *)
Definition still_pending (statusEndpoint : APIEndpointDefinition) (o : FetchOutcome) : Prop :=
  exists r,
    o = Responded r /\
    (resp_ok r = false \/
     exists data,
       resp_ok r = true /\ resp_json r = Some data /\
       (is_nullish (status_of statusEndpoint data) = true \/
        exists s, status_of statusEndpoint data = JStr s /\
                  ~ In (toLowerCase s) success_statuses /\
                  ~ In (toLowerCase s) failure_statuses)).

(** The [n]-th request of the run is answered with a success response
    whose body [data] carries the status [s]. *)
Definition polled_status (w : World) (statusEndpoint : APIEndpointDefinition)
  (req : Request) (n : nat) (s : string) (data : JsVal) : Prop :=
  exists r,
    net w n req = Responded r /\ resp_ok r = true /\ resp_json r = Some data /\
    status_of statusEndpoint data = JStr s.

(** The two temporal readings discussed under C5 and C6, as statements
    about every run; [pollForCompletion] is defined in the section above. *)

(** "When three successive polls answer pending, pending, succeeded, the
    third response is the result and exactly [waits] waits have elapsed
    when it is received." *)
Definition third_response_after (waits : nat) : Prop :=
  forall (w : World) config initialResponse apiKey statusEndpoint taskId (tr : Trace)
         d1 d2 d3,
    can_poll config initialResponse statusEndpoint taskId ->
    let req := poll_request statusEndpoint taskId apiKey in
    polled_status w statusEndpoint req (fetch_count tr) "pending" d1 ->
    polled_status w statusEndpoint req (fetch_count tr + 1) "pending" d2 ->
    polled_status w statusEndpoint req (fetch_count tr + 2) "succeeded" d3 ->
    fst (pollForCompletion w initialResponse config apiKey tr) = Ok d3 /\
    wait_count (snd (pollForCompletion w initialResponse config apiKey tr))
    = (wait_count tr + waits)%nat.

(** "Every run in which no attempt yields a status of the success terminal
    set ends after the 60th attempt with the timeout error." *)
Definition no_success_means_timeout : Prop :=
  forall (w : World) config initialResponse apiKey statusEndpoint taskId (tr : Trace),
    can_poll config initialResponse statusEndpoint taskId ->
    let req := poll_request statusEndpoint taskId apiKey in
    (forall n, ~ yields_success statusEndpoint (net w n req)) ->
    pollForCompletion w initialResponse config apiKey tr
    = (Throw (Error "Generation timed out."), tr ++ attempts_trace MAX_ATTEMPTS req).

(** ** Header substitution, as the specification words it *)

Fixpoint contains_char (c : ascii) (s : string) : bool :=
  match s with
  | EmptyString => false
  | String x r => Ascii.eqb x c || contains_char c r
  end.




(** ** Image extraction, seen from outside *)

(** The endpoint whose output mapping [generateVisual] consults. *)
Definition image_endpoint (config : AIModelConfig) : option APIEndpointDefinition :=
  match endpoints config with
  | Some eps => match status eps with Some s => Some s | None => generate eps end
  | None => None
  end.

(** The value that [generateVisual] extracts from the provider response. *)
Definition extracted_image (config : AIModelConfig) (rawResponse : JsVal) : JsVal :=
  resolvePath rawResponse
    (mapping_or (match image_endpoint config with
                 | Some e => outputMapping e
                 | None => None
                 end) "image" "image_url").

(** ** The registry merge of the store *)

Section Merge.

(** [Model] is the representation of a model definition and [model_id] its
    [id] field; [AIModelConfig.id] is declared a string, on which [===]
    is equality of contents. *)
Context {Model K : Type} `{EqDecision K} (model_id : Model -> K).

(** [mergedModels.findIndex(m => m.id === custom.id)]; [None] is [-1]. *)
Definition findIndex (mergedModels : list Model) (custom : Model) : option nat :=
  fst <$> list_find (fun m => model_id m = model_id custom) mergedModels.

(** The body of the loop, showrunnerStore.ts lines 1300-1307. *)
Definition merge_step (mergedModels : list Model) (custom : Model) : list Model :=
  match findIndex mergedModels custom with
  | Some index => <[index := custom]> mergedModels
  | None => (mergedModels ++ [custom])%list
  end.

(** Lines 1298-1307: start from a copy of the remote list and visit the
    custom models in order. *)
Definition mergeModels (remoteModels customModels : list Model) : list Model :=
  fold_left merge_step customModels remoteModels.

(** The merge as the specification words it: every remote entry stays in
    its place, taken over by the custom entry of the same id when there
    is one, and the custom entries whose id is new follow in their own
    order. *)
Definition overridden (customModels : list Model) (r : Model) : Model :=
  match list_find (fun c => model_id c = model_id r) customModels with
  | Some (_, c) => c
  | None => r
  end.

Definition merged_by_spec (remoteModels customModels : list Model) : list Model :=
  ((overridden customModels <$> remoteModels) ++
   filter (fun c => model_id c ∉ model_id <$> remoteModels) customModels)%list.

End Merge.

Record Store := {
  availableModels : list JsVal;
  customModels : list JsVal
}.

(** [m.id] of a registry entry, for an entry that is neither [null] nor
    [undefined]; on those [m.id] throws a [TypeError], which the model
    actions below do not show: their statements are about lists of
    [model_entry] values. *)
Definition entry_id (m : JsVal) : JsVal := member m "id".

(** The values that are not objects: on them [===] and [!==] compare
    contents, as equality does here; on arrays and objects they compare
    references. *)
Definition primitive (v : JsVal) : bool :=
  match v with
  | JArr _ | JObj _ => false
  | _ => true
  end.

(** An entry whose id the store can read and compare as modelled: the entry
    is neither [null] nor [undefined], and its id is not an object.  A model
    definition, an object with a string [id], is such an entry. *)
Definition model_entry (m : JsVal) : bool :=
  negb (is_nullish m) && primitive (entry_id m).

(** [fetchModels], showrunnerStore.ts lines 1290-1310, on lists of
    [model_entry] values. *)
Definition fetchModels (w : World) (st : Store) : M Store :=
  let! remoteModels := fetchRemoteDefinitions w in
  let mergedModels := mergeModels entry_id remoteModels (customModels st) in
  ret {| availableModels := mergedModels; customModels := customModels st |}.

(** ** Templates whose placeholders are all unresolved *)

(** No placeholder of the template names a defined input. *)
Fixpoint unresolved (inputs : list (string * JsVal)) (v : JsVal) : bool :=
  match v with
  | JStr s =>
      if startsWith "{{" s && endsWith "}}" s
      then is_undefined (obj_get inputs (slice s 2 (-2)))
      else true
  | JArr items => forallb (unresolved inputs) items
  | JObj props => forallb (fun kv => match kv with (_, sub) => unresolved inputs sub end) props
  | _ => true
  end.

(** No placeholder of the template has the name of a member that objects
    inherit. *)
Fixpoint own_names (v : JsVal) : bool :=
  match v with
  | JStr s =>
      if startsWith "{{" s && endsWith "}}" s
      then negb (inherited_name (slice s 2 (-2)))
      else true
  | JArr items => forallb own_names items
  | JObj props => forallb (fun kv => match kv with (_, sub) => own_names sub end) props
  | _ => true
  end.

(** ** [JSON.stringify] *)

Definition hex_digit (n : nat) : ascii :=
  match String.get n "0123456789abcdef" with Some c => c | None => "0"%char end.

Definition double_quote : ascii := ascii_of_nat 34.
Definition backslash : ascii := ascii_of_nat 92.

(** One character of a quoted JSON string. *)
Definition quote_char (c : ascii) : string :=
  let n := nat_of_ascii c in
  if (n =? 34)%nat then String backslash (String double_quote EmptyString)
  else if (n =? 92)%nat then String backslash (String backslash EmptyString)
  else if (n =? 8)%nat then String backslash "b"
  else if (n =? 9)%nat then String backslash "t"
  else if (n =? 10)%nat then String backslash "n"
  else if (n =? 12)%nat then String backslash "f"
  else if (n =? 13)%nat then String backslash "r"
  else if (n <? 32)%nat
       then String backslash (String "u" (String "0" (String "0"
              (String (hex_digit (n / 16)) (String (hex_digit (n mod 16)) EmptyString)))))
       else String c EmptyString.

Fixpoint quote_chars (s : string) : string :=
  match s with
  | EmptyString => EmptyString
  | String c r => quote_char c +:+ quote_chars r
  end.

Definition quote (s : string) : string :=
  String double_quote (quote_chars s +:+ String double_quote EmptyString).

(** The text of a value that is not [undefined]; inside an array
    [undefined] is written [null], inside an object a property whose value
    is [undefined] is left out. *)
Fixpoint stringify_value (v : JsVal) : string :=
  match v with
  | JUndefined | JNull => "null"
  | JBool true => "true"
  | JBool false => "false"
  | JNum n => string_of_Z n
  | JStr s => quote s
  | JArr items => "[" +:+ join "," (map stringify_value items) +:+ "]"
  | JObj props =>
      "{" +:+
      join ","
        (flat_map
           (fun kv =>
              match kv with
              | (key, sub) =>
                  if is_undefined sub then []
                  else [quote key +:+ ":" +:+ stringify_value sub]
              end)
           props)
      +:+ "}"
  end.

(** ** The model actions of the store *)

(** The part of the store that the model actions read and write, with
    [localStorage]. *)
Record ModelState := {
  models : Store;
  apiKeys : list (string * string);
  storage : gmap string string
}.

(** [updateApiKey], showrunnerStore.ts lines 1312-1327. *)
Definition updateApiKey (provider key : string) (st : ModelState) : ModelState :=
  {| models := models st;
     apiKeys := obj_set (apiKeys st) provider key;
     storage :=
       if String.eqb provider "google_native"
       then <["gemini_api_key" := key]> (storage st)
       else <["apikey_" +:+ provider := key]> (storage st) |}.

(** [addCustomModel], showrunnerStore.ts lines 1329-1342, for a
    [model_entry] value and a state whose lists hold such values. *)
Definition addCustomModel (model : JsVal) (st : ModelState) : ModelState :=
  let newCustomModels :=
    filter (fun m => entry_id m <> entry_id model) (customModels (models st)) ++ [model] in
  let mergedModels :=
    filter (fun m => entry_id m <> entry_id model) (availableModels (models st)) ++ [model] in
  {| models := {| availableModels := mergedModels; customModels := newCustomModels |};
     apiKeys := apiKeys st;
     storage := <["custom_models" := stringify_value (JArr newCustomModels)]> (storage st) |}.

(** The state update of [removeCustomModel], showrunnerStore.ts lines
    1344-1363, for an id that is not an object and a state whose lists hold
    [model_entry] values; the action then starts [fetchModels] (line 1365). *)
Definition removeCustomModel (id : JsVal) (st : ModelState) : ModelState :=
  let newCustomModels := filter (fun m => entry_id m <> id) (customModels (models st)) in
  let newAvailable := filter (fun m => entry_id m <> id) (availableModels (models st)) in
  {| models := {| availableModels := newAvailable; customModels := newCustomModels |};
     apiKeys := apiKeys st;
     storage := <["custom_models" := stringify_value (JArr newCustomModels)]> (storage st) |}.

(** A world whose [localStorage] is the one of the state. *)
Definition with_storage (w : World) (st : ModelState) : World :=
  {| net := net w;
     localStorage := storage st;
     readable := readable w;
     import_genai := import_genai w;
     genai_generateContent := genai_generateContent w;
     gemini_generateVisual := gemini_generateVisual w |}.

(** [getStoredKey], showrunnerStore.ts line 61. *)
Definition getStoredKey (w : World) (provider : string) : string :=
  or_empty (getItem w ("apikey_" +:+ provider)).

(** The values that [String(v)] prints as [js_toString] does: strings,
    booleans, [null], and the integers that the language holds exactly and
    prints digit by digit. *)
Definition printable (v : JsVal) : bool :=
  match v with
  | JStr _ | JBool _ | JNull => true
  | JNum n => Z.abs n <=? 9007199254740991
  | _ => false
  end.

(** The text has no token [{{name}}] whose name is one that objects
    inherit. *)
Definition plain_tokens (text : string) : bool :=
  forallb
    (fun name =>
       match find_first ("{{" +:+ name +:+ "}}") text with
       | Some _ => false
       | None => true
       end)
    inherited_names.

(** ** The generate request, seen from outside *)

(** The generate endpoint that [executeGenericRequest] reads:
    [config.endpoints?.generate]. *)
Definition generate_endpoint (config : AIModelConfig) : option APIEndpointDefinition :=
  match endpoints config with Some eps => generate eps | None => None end.

(** The inputs that the templates see: [{ ...inputs, id: config.id }]. *)
Definition request_inputs (config : AIModelConfig) (inputs : list (string * JsVal))
  : list (string * JsVal) :=
  obj_set inputs "id" (JStr (id config)).

(** The request that [executeGenericRequest] sends to [endpoint]. *)
Definition generate_request (w : World) (config : AIModelConfig)
  (inputs : list (string * JsVal)) (endpoint : APIEndpointDefinition) : Request :=
  let apiKey := getItem w ("apikey_" +:+ provider config) in
  {| req_url := replace_tokens (url_token (request_inputs config inputs) apiKey) O (url endpoint);
     req_method := Some (method endpoint);
     req_headers := resolveHeaders (headers endpoint) (or_empty apiKey);
     req_body := Some (constructPayload (paramMapping endpoint) (request_inputs config inputs)) |}.

(** ** Scenes and their history (showrunnerStore.ts) *)

(** [JSON.parse(JSON.stringify(v))], the deep copy that [addHistoryEntry]
    takes: a property whose value is [undefined] is left out, and
    [undefined] in an array comes back as [null]. *)
Fixpoint json_copy (v : JsVal) : JsVal :=
  match v with
  | JUndefined => JNull
  | JArr items => JArr (map json_copy items)
  | JObj props =>
      JObj (flat_map
              (fun kv =>
                 match kv with
                 | (key, sub) => if is_undefined sub then [] else [(key, json_copy sub)]
                 end)
              props)
  | _ => v
  end.

(** The values that JSON can carry: no [undefined] at any depth. *)
Fixpoint json_value (v : JsVal) : bool :=
  match v with
  | JUndefined => false
  | JArr items => forallb json_value items
  | JObj props => forallb (fun kv => match kv with (_, sub) => json_value sub end) props
  | _ => true
  end.

(** A scene is an object, kept as its property list.  The store reads its
    [id], declared a string, on which [===] is equality of contents, and
    its [sceneNumber] and [content]. *)
Definition Scene : Type := list (string * JsVal).

Definition scene_id (s : Scene) : JsVal := obj_get s "id".

Definition copy_scene (s : Scene) : Scene :=
  match json_copy (JObj s) with
  | JObj props => props
  | _ => s
  end.

Definition deep_copy (scenes : list Scene) : list Scene := map copy_scene scenes.

Definition json_scene (s : Scene) : bool := json_value (JObj s).

Record SceneHistoryEntry := {
  history_id : string;
  timestamp : Z;
  actionType : string;
  description : string;
  snapshot : list Scene
}.

(** An episode or an act, as far as the scene actions go: the other fields
    are carried over by the spread [...item]. *)
Record StoryItem := {
  item_id : string;
  scenes : list Scene;
  sceneHistory : option (list SceneHistoryEntry);
  sceneRedoStack : option (list SceneHistoryEntry);
  item_fields : list (string * JsVal)
}.

(** [stack || []]. *)
Definition or_nil {A : Type} (stack : option (list A)) : list A :=
  match stack with
  | Some entries => entries
  | None => []
  end.

(** Lines 48-59.  [uid] is the result of [uuidv4()] and [now] the one of
    [Date.now()]. *)
Definition addHistoryEntry (uid : string) (now : Z) (item : StoryItem)
  (action description : string) (scenes : list Scene) : list SceneHistoryEntry :=
  let currentHistory := or_nil (sceneHistory item) in
  let newEntry :=
    {| history_id := uid; timestamp := now; actionType := action;
       description := description; snapshot := deep_copy scenes |} in
  take 30 (newEntry :: currentHistory).

(** [scenes.map((s, i) => ({ ...s, sceneNumber: i + 1 }))]. *)
Definition renumber (scenes : list Scene) : list Scene :=
  imap (fun i s => obj_set s "sceneNumber" (JNum (Z.of_nat i + 1))) scenes.

(** Lines 897-905. *)
Definition createScene (uid : string) (currentScenes : list Scene) : Scene :=
  [ ("id", JStr uid);
    ("sceneNumber", JNum (Z.of_nat (length currentScenes) + 1));
    ("setting", JStr "INT. UNKNOWN - DAY");
    ("summary", JStr "");
    ("content", JArr []);
    ("assets", JObj [("characters", JArr []); ("locations", JArr []); ("props", JArr [])]);
    ("isContentLocked", JBool false) ].

(** [addScene], lines 907-918: the update of one episode or act.
    [historyUid] and [sceneUid] are the two results of [uuidv4()], in the
    order of the calls. *)
Definition addScene (itemId : string) (historyUid : string) (now : Z) (sceneUid : string)
  (item : StoryItem) : StoryItem :=
  if negb (String.eqb (item_id item) itemId) then item
  else
    let newHistory :=
      addHistoryEntry historyUid now item "add"
        ("Added Scene " +:+ string_of_Z (Z.of_nat (length (scenes item)) + 1))
        (scenes item) in
    {| item_id := item_id item;
       scenes := scenes item ++ [createScene sceneUid (scenes item)];
       sceneHistory := Some newHistory;
       sceneRedoStack := None;
       item_fields := item_fields item |}.

(** [deleteScene], lines 943-956. *)
Definition deleteScene (itemId sceneId : string) (uid : string) (now : Z)
  (item : StoryItem) : StoryItem :=
  if negb (String.eqb (item_id item) itemId) then item
  else
    let sceneToDelete :=
      List.find (fun s => bool_decide (scene_id s = JStr sceneId)) (scenes item) in
    let number :=
      match sceneToDelete with
      | Some s => obj_get s "sceneNumber"
      | None => JUndefined
      end in
    let newHistory :=
      addHistoryEntry uid now item "delete"
        ("Deleted Scene " +:+ js_toString (if truthy number then number else JStr "Unknown"))
        (scenes item) in
    let filtered :=
      List.filter (fun s => negb (bool_decide (scene_id s = JStr sceneId))) (scenes item) in
    {| item_id := item_id item;
       scenes := renumber filtered;
       sceneHistory := Some newHistory;
       sceneRedoStack := None;
       item_fields := item_fields item |}.

(** The loop of lines 993-1002: the first position [i] of [newScenes] whose
    scene is not at position [i] of the scenes of the item, with the
    position it had there ([None] is [-1]). *)
Fixpoint first_moved (old : list Scene) (i : nat) (newScenes : list Scene)
  : option (option nat * nat) :=
  match newScenes with
  | [] => None
  | scene :: rest =>
      let originalIndex :=
        fst <$> list_find (fun s => scene_id s = scene_id scene) old in
      if bool_decide (originalIndex = Some i) then first_moved old (S i) rest
      else Some (originalIndex, i)
  end.

(** [reorderScenes], lines 981-1019. *)
Definition reorderScenes (itemId : string) (newScenes : list Scene) (uid : string) (now : Z)
  (item : StoryItem) : StoryItem :=
  if negb (String.eqb (item_id item) itemId) then item
  else
    let description :=
      match first_moved (scenes item) O newScenes with
      | Some (Some oldIndex, newIndex) =>
          "Reordered: Scene " +:+ string_of_Z (Z.of_nat oldIndex + 1)
          +:+ " -> Position " +:+ string_of_Z (Z.of_nat newIndex + 1)
      | _ => "Reordered Scenes"
      end in
    let newHistory := addHistoryEntry uid now item "reorder" description (scenes item) in
    {| item_id := item_id item;
       scenes := renumber newScenes;
       sceneHistory := Some newHistory;
       sceneRedoStack := None;
       item_fields := item_fields item |}.

(** [revertSceneHistory], lines 1047-1059. *)
Definition revertSceneHistory (itemId historyId : string) (uid : string) (now : Z)
  (item : StoryItem) : StoryItem :=
  if negb (String.eqb (item_id item) itemId) then item
  else
    match List.find (fun h => String.eqb (history_id h) historyId)
            (or_nil (sceneHistory item)) with
    | None => item
    | Some historyEntry =>
        let newHistory :=
          addHistoryEntry uid now item "reorder"
            ("Reverted to: " +:+ description historyEntry) (scenes item) in
        {| item_id := item_id item;
           scenes := snapshot historyEntry;
           sceneHistory := Some newHistory;
           sceneRedoStack := None;
           item_fields := item_fields item |}
    end.

(** [revertToInitial], lines 1085-1095. *)
Definition revertToInitial (itemId : string) (uid : string) (now : Z)
  (item : StoryItem) : StoryItem :=
  if negb (String.eqb (item_id item) itemId) then item
  else
    match last (or_nil (sceneHistory item)) with
    | None => item
    | Some oldestEntry =>
        let newHistory :=
          addHistoryEntry uid now item "reorder" "Reverted All Changes" (scenes item) in
        {| item_id := item_id item;
           scenes := snapshot oldestEntry;
           sceneHistory := Some newHistory;
           sceneRedoStack := None;
           item_fields := item_fields item |}
    end.

(** [undoSceneAction], lines 1121-1145. *)
Definition undoSceneAction (itemId : string) (uid : string) (now : Z)
  (item : StoryItem) : StoryItem :=
  if negb (String.eqb (item_id item) itemId) then item
  else
    match or_nil (sceneHistory item) with
    | [] => item
    | lastEntry :: remainingHistory =>
        let redoEntry :=
          {| history_id := uid; timestamp := now;
             actionType := actionType lastEntry;
             description := "Redo: Revert of " +:+ description lastEntry;
             snapshot := scenes item |} in
        let newRedoStack := redoEntry :: or_nil (sceneRedoStack item) in
        {| item_id := item_id item;
           scenes := snapshot lastEntry;
           sceneHistory := Some remainingHistory;
           sceneRedoStack := Some newRedoStack;
           item_fields := item_fields item |}
    end.

(** [redoSceneAction], lines 1171-1197. *)
Definition redoSceneAction (itemId : string) (uid : string) (now : Z)
  (item : StoryItem) : StoryItem :=
  if negb (String.eqb (item_id item) itemId) then item
  else
    match or_nil (sceneRedoStack item) with
    | [] => item
    | nextEntry :: remainingRedo =>
        let undoEntry :=
          {| history_id := uid; timestamp := now;
             actionType := "reorder";
             description := "Undo of Redo";
             snapshot := scenes item |} in
        let newHistory := undoEntry :: or_nil (sceneHistory item) in
        {| item_id := item_id item;
           scenes := snapshot nextEntry;
           sceneHistory := Some newHistory;
           sceneRedoStack := Some remainingRedo;
           item_fields := item_fields item |}
    end.

(** The scene actions of the store, each with the values that [uuidv4()]
    and [Date.now()] give it. *)
Inductive SceneAction :=
| AddScene (historyUid : string) (now : Z) (sceneUid : string)
| DeleteScene (sceneId : string) (uid : string) (now : Z)
| ReorderScenes (newScenes : list Scene) (uid : string) (now : Z)
| RevertSceneHistory (historyId : string) (uid : string) (now : Z)
| RevertToInitial (uid : string) (now : Z)
| UndoSceneAction (uid : string) (now : Z)
| RedoSceneAction (uid : string) (now : Z).

Definition perform (itemId : string) (item : StoryItem) (action : SceneAction) : StoryItem :=
  match action with
  | AddScene historyUid now sceneUid => addScene itemId historyUid now sceneUid item
  | DeleteScene sceneId uid now => deleteScene itemId sceneId uid now item
  | ReorderScenes newScenes uid now => reorderScenes itemId newScenes uid now item
  | RevertSceneHistory historyId uid now => revertSceneHistory itemId historyId uid now item
  | RevertToInitial uid now => revertToInitial itemId uid now item
  | UndoSceneAction uid now => undoSceneAction itemId uid now item
  | RedoSceneAction uid now => redoSceneAction itemId uid now item
  end.

(** The actions that change the scenes of the item and record its scenes
    in the history. *)
Definition records (item : StoryItem) (action : SceneAction) : bool :=
  match action with
  | AddScene _ _ _ | DeleteScene _ _ _ | ReorderScenes _ _ _ => true
  | RevertSceneHistory historyId _ _ =>
      existsb (fun h => String.eqb (history_id h) historyId) (or_nil (sceneHistory item))
  | RevertToInitial _ _ => negb (bool_decide (or_nil (sceneHistory item) = []))
  | UndoSceneAction _ _ | RedoSceneAction _ _ => false
  end.

(** The entries that the two stacks of an item hold together. *)
Definition stacked (item : StoryItem) : nat :=
  (length (or_nil (sceneHistory item)) + length (or_nil (sceneRedoStack item)))%nat.

(** ** Scenarios *)

Definition no_blob : Blob := {| blob_type := ""; blob_bytes := [] |}.

(** A response with the given status whose body is the JSON document [data]. *)
Definition json_response (st : Z) (data : JsVal) : Response :=
  {| resp_status := st; resp_text := ""; resp_json := Some data; resp_blob := no_blob |}.

(** A response with the given status whose body is plain text. *)
Definition text_response (st : Z) (body : string) : Response :=
  {| resp_status := st; resp_text := body; resp_json := None; resp_blob := no_blob |}.

(** A world that answers the requests by [answers] and stores [storage];
    its blobs can be read and its SDK answers without a text. *)
Definition world_with (answers : nat -> Request -> FetchOutcome)
  (storage : gmap string string) : World :=
  {| net := answers;
     localStorage := storage;
     readable := fun _ => true;
     import_genai := Ok tt;
     genai_generateContent := fun _ _ _ _ => Ok None;
     gemini_generateVisual := fun _ _ => Ok JUndefined |}.

Definition offline_world : World := world_with (fun _ _ => NetworkError "Failed to fetch") ∅.

Definition http500_world : World :=
  world_with (fun _ _ => Responded (text_response 500 "Internal Server Error")) ∅.

Definition not_models_world : World :=
  world_with (fun _ _ => Responded (json_response 200 (JObj [("not_models", JArr [])]))) ∅.

(** The registry example of the specification. *)
Definition model_m1 : JsVal := JObj [("id", JStr "m1")].
Definition model_m2 : JsVal := JObj [("id", JStr "m2")].
Definition model_m2_override : JsVal := JObj [("id", JStr "m2"); ("name", JStr "override")].
Definition model_m3 : JsVal := JObj [("id", JStr "m3")].

Definition two_models_world : World :=
  world_with
    (fun _ _ => Responded (json_response 200 (JObj [("models", JArr [model_m1; model_m2])])))
    ∅.

Definition store_with (customs : list JsVal) : Store :=
  {| availableModels := []; customModels := customs |}.

(** The asynchronous template of the settings page (provider [replicate]). *)
Definition replicate_generate : APIEndpointDefinition :=
  {| url := "https://api.replicate.com/v1/predictions";
     method := "POST";
     headers := Some [("Authorization", "Token {{key}}"); ("Content-Type", "application/json")];
     paramMapping := JObj [("version", JStr "{{id}}");
                           ("input", JObj [("prompt", JStr "{{prompt}}")])];
     outputMapping := Some [("id", "id")] |}.

Definition replicate_status : APIEndpointDefinition :=
  {| url := "https://api.replicate.com/v1/predictions/{{id}}";
     method := "GET";
     headers := Some [("Authorization", "Token {{key}}")];
     paramMapping := JUndefined;
     outputMapping := Some [("status", "status"); ("image", "output[0]")] |}.

Definition replicate_config : AIModelConfig :=
  {| id := "flux"; name := "Flux"; provider := "replicate"; family := "image";
     contextWindow := 0; isDefault := None;
     endpoints := Some {| generate := Some replicate_generate;
                          status := Some replicate_status |} |}.

Definition task_response : JsVal := JObj [("id", JStr "task-1")].

Definition status_body (s : string) : JsVal := JObj [("status", JStr s)].

(** Three successive polls answer [pending], [pending], [succeeded]. *)
Definition pending_pending_succeeded_world : World :=
  world_with
    (fun n _ =>
       match n with
       | O | 1%nat => Responded (json_response 200 (status_body "pending"))
       | _ => Responded (json_response 200 (status_body "succeeded"))
       end)
    ∅.

(** Every poll answers [failed]. *)
Definition always_failed_world : World :=
  world_with (fun _ _ => Responded (json_response 200 (status_body "failed"))) ∅.

(** Every poll answers HTTP 503. *)
Definition unavailable_world : World :=
  world_with (fun _ _ => Responded (text_response 503 "Service Unavailable")) ∅.

(** The answer to the task request, with a credential in [localStorage]. *)
Definition keyed_world : World :=
  world_with (fun _ _ => Responded (json_response 200 task_response))
    {[ "apikey_replicate" := "r8_secret" ]}.

(** The synchronous text template of the settings page. *)
Definition openai_generate : APIEndpointDefinition :=
  {| url := "https://api.openai.com/v1/chat/completions";
     method := "POST";
     headers := Some [("Authorization", "Bearer {{key}}"); ("Content-Type", "application/json")];
     paramMapping := JObj [("model", JStr "{{id}}");
                           ("messages", JArr [JObj [("role", JStr "user");
                                                    ("content", JStr "{{prompt}}")]])];
     outputMapping := Some [("text", "choices[0].message.content")] |}.

Definition openai_config : AIModelConfig :=
  {| id := "gpt-4o"; name := "GPT-4o"; provider := "openai_compatible"; family := "text";
     contextWindow := 128000; isDefault := None;
     endpoints := Some {| generate := Some openai_generate; status := None |} |}.

Definition hello_body : JsVal :=
  JObj [("choices", JArr [JObj [("message", JObj [("content", JStr "Hello")])]])].

Definition hello_world : World :=
  world_with (fun _ _ => Responded (json_response 200 hello_body)) ∅.

(** The synchronous image template of the settings page (provider [fal]). *)
Definition fal_generate : APIEndpointDefinition :=
  {| url := "https://queue.fal.run/fal-ai/flux-pro";
     method := "POST";
     headers := Some [("Authorization", "Key {{key}}"); ("Content-Type", "application/json")];
     paramMapping := JObj [("prompt", JStr "{{prompt}}")];
     outputMapping := Some [("image", "images[0].url")] |}.

Definition fal_config : AIModelConfig :=
  {| id := "fal-ai/flux-pro"; name := "Flux Pro"; provider := "fal"; family := "image";
     contextWindow := 0; isDefault := None;
     endpoints := Some {| generate := Some fal_generate; status := None |} |}.

(** A provider response whose image field is [image]. *)
Definition image_body (image : string) : JsVal :=
  JObj [("images", JArr [JObj [("url", JStr image)]])].

Definition image_world (image : string) : World :=
  world_with (fun _ _ => Responded (json_response 200 (image_body image))) ∅.

(** The provider answers with the address of a picture, and the address
    serves the three bytes of "Man" as [image/png]. *)
Definition hosted_image_world : World :=
  world_with
    (fun n _ =>
       match n with
       | O => Responded (json_response 200 (image_body "https://x/y.png"))
       | _ => Responded {| resp_status := 200; resp_text := "Man"; resp_json := None;
                           resp_blob := {| blob_type := "image/png";
                                           blob_bytes := [Byte.x4d; Byte.x61; Byte.x6e] |} |}
       end)
    ∅.

(** The same, with a reader that cannot read the picture to its end. *)
Definition unreadable_image_world : World :=
  {| net := net hosted_image_world;
     localStorage := localStorage hosted_image_world;
     readable := fun _ => false;
     import_genai := import_genai hosted_image_world;
     genai_generateContent := genai_generateContent hosted_image_world;
     gemini_generateVisual := gemini_generateVisual hosted_image_world |}.

(** The task is accepted, then the status request is rejected by the network. *)
Definition status_offline_world : World :=
  world_with
    (fun n _ =>
       match n with
       | O => Responded (json_response 200 task_response)
       | _ => NetworkError "Failed to fetch"
       end)
    ∅.

(** Sixty polls answer HTTP 503; a poll after them would succeed. *)
Definition late_success_world : World :=
  world_with
    (fun n _ =>
       if (n <? 60)%nat then Responded (text_response 503 "Service Unavailable")
       else Responded (json_response 200 (status_body "succeeded")))
    ∅.

(** The remote document lists no model at all. *)
Definition empty_list_world : World :=
  world_with (fun _ _ => Responded (json_response 200 (JObj [("models", JArr [])]))) ∅.

(** A provider that answers with the whole output array. *)
Definition output_array_world : World :=
  world_with
    (fun _ _ => Responded (json_response 200
                  (JObj [("images", JArr [JObj [("url", JArr [JStr "https://x/y.png"])]])])))
    ∅.

(** ** The lines of a scene (showrunnerStore.ts) *)

(** [l.splice(start, deleteCount, ...items)], as the list it leaves: a
    negative [start] counts from the end, and both numbers are brought
    into the bounds of the list. *)
Definition splice {A : Type} (l : list A) (start deleteCount : Z) (items : list A) : list A :=
  let len := Z.of_nat (length l) in
  let actualStart := if start <? 0 then Z.max (len + start) 0 else Z.min start len in
  let actualDeleteCount := Z.min (Z.max deleteCount 0) (len - actualStart) in
  take (Z.to_nat actualStart) l ++ items
  ++ drop (Z.to_nat (actualStart + actualDeleteCount)) l.

(** [[...v]]: the elements of an array, the characters of a string; the
    other values are not iterable and the spread throws a [TypeError],
    here [None]. *)
Definition spread (v : JsVal) : option (list JsVal) :=
  match v with
  | JArr items => Some items
  | JStr s => Some (map (fun c => JStr (String c EmptyString)) (list_ascii_of_string s))
  | _ => None
  end.

(** The body of [updateScenes] in [addScreenplayLine], lines 710-715, on
    one scene. *)
Definition addScreenplayLine_in (sceneId : string) (index : Z) (type : string)
  (s : Scene) : option Scene :=
  if negb (bool_decide (scene_id s = JStr sceneId)) then Some s
  else
    match spread (obj_get s "content") with
    | Some content =>
        let newContent :=
          splice content (index + 1) 0 [JObj [("type", JStr type); ("text", JStr "")]] in
        Some (obj_set s "content" (JArr newContent))
    | None => None
    end.

Definition addScreenplayLine (sceneId : string) (index : Z) (type : string)
  (scenes : list Scene) : option (list Scene) :=
  mapM (addScreenplayLine_in sceneId index type) scenes.

(** The body of [updateScenes] in [deleteScreenplayLine], lines 754-759, on
    one scene. *)
Definition deleteScreenplayLine_in (sceneId : string) (index : Z) (s : Scene)
  : option Scene :=
  if negb (bool_decide (scene_id s = JStr sceneId)) then Some s
  else
    match spread (obj_get s "content") with
    | Some content => Some (obj_set s "content" (JArr (splice content index 1 [])))
    | None => None
    end.

Definition deleteScreenplayLine (sceneId : string) (index : Z) (scenes : list Scene)
  : option (list Scene) :=
  mapM (deleteScreenplayLine_in sceneId index) scenes.

(** The lines of a scene whose [content] is an array. *)
Definition lines (s : Scene) : list JsVal :=
  match obj_get s "content" with
  | JArr items => items
  | _ => []
  end.

(** ** Dropping a dragged scene (Scriptwriter.tsx) *)

(** The elements that [l.splice(start, deleteCount)] returns. *)
Definition splice_removed {A : Type} (l : list A) (start deleteCount : Z) : list A :=
  let len := Z.of_nat (length l) in
  let actualStart := if start <? 0 then Z.max (len + start) 0 else Z.min start len in
  let actualDeleteCount := Z.min (Z.max deleteCount 0) (len - actualStart) in
  take (Z.to_nat actualDeleteCount) (drop (Z.to_nat actualStart) l).

(** [handleDrop], lines 678-687, for a drop that is accepted: the scenes
    that go to [reorderScenes].  [None] when [reorderScenes] is not called:
    the scene is dropped where it was, or there is no scene at
    [draggedSceneIndex] and [movedScene.id] throws a [TypeError]. *)
Definition dropped_scenes (scenes : list Scene) (draggedSceneIndex dropIndex : Z)
  : option (list Scene) :=
  if draggedSceneIndex =? dropIndex then None
  else
    match head (splice_removed scenes draggedSceneIndex 1) with
    | Some movedScene =>
        Some (splice (splice scenes draggedSceneIndex 1 []) dropIndex 0 [movedScene])
    | None => None
    end.

(** The scenes of a list carry their positions, counted from 1. *)
Definition numbered (l : list Scene) : Prop :=
  forall i s, l !! i = Some s -> obj_get s "sceneNumber" = JNum (Z.of_nat i + 1).

(** An episode without scenes, as [addEpisode] leaves it. *)
Definition episode_one : StoryItem :=
  {| item_id := "ep1"; scenes := []; sceneHistory := None; sceneRedoStack := None;
     item_fields := [("title", JStr "Pilot")] |}.

(** Two scenes are added, the first is deleted, and the deletion is undone
    and redone. *)
Definition working_session : list SceneAction :=
  [ AddScene "h1" 1 "s1"; AddScene "h2" 2 "s2"; DeleteScene "s1" "h3" 3;
    UndoSceneAction "h4" 4; RedoSceneAction "h5" 5 ].

(** The episode with its two scenes. *)
Definition episode_two_scenes : StoryItem :=
  fold_left (perform "ep1") [AddScene "h1" 1 "s1"; AddScene "h2" 2 "s2"] episode_one.

(** A scene of two lines, and a scene without lines. *)
Definition scene_with_lines : Scene :=
  obj_set (createScene "s1" []) "content"
    (JArr [ JObj [("type", JStr "action"); ("text", JStr "Night.")];
            JObj [("type", JStr "dialogue"); ("text", JStr "Hello.")] ]).

Definition two_scenes : list Scene := [scene_with_lines; createScene "s2" [scene_with_lines]].

(** Three scenes, as [addScene] makes them one after the other. *)
Definition scene_one : Scene := createScene "s1" [].
Definition scene_two : Scene := createScene "s2" [scene_one].
Definition scene_three : Scene := createScene "s3" [scene_one; scene_two].

Definition three_scenes : list Scene := [scene_one; scene_two; scene_three].

Definition episode_three_scenes : StoryItem :=
  {| item_id := "ep1"; scenes := three_scenes; sceneHistory := None;
     sceneRedoStack := None; item_fields := [] |}.

(** * Verification *)

(** ** Facts about strings *)

#[local] Arguments String.append !s1 s2 / : simpl nomatch.

Lemma str_length_app (a b : string) :
  String.length (a +:+ b) = (String.length a + String.length b)%nat.
Proof. induction a as [|c a IH]; simpl; [reflexivity | now rewrite IH]. Qed.

Lemma str_app_assoc (a b c : string) : (a +:+ b) +:+ c = a +:+ (b +:+ c).
Proof. induction a as [|x a IH]; simpl; [reflexivity | now rewrite IH]. Qed.

Lemma str_app_nil_r (a : string) : a +:+ "" = a.
Proof. induction a as [|x a IH]; simpl; [reflexivity | now rewrite IH]. Qed.

Lemma str_take_drop (n : nat) (s : string) : str_take n s +:+ str_drop n s = s.
Proof.
  revert s. induction n as [|n IH]; intros [|c s]; simpl; try reflexivity.
  now rewrite IH.
Qed.

Lemma str_drop_app (a b : string) : str_drop (String.length a) (a +:+ b) = b.
Proof. induction a as [|c a IH]; simpl; [now destruct b | exact IH]. Qed.

Lemma str_take_app (a b : string) : str_take (String.length a) (a +:+ b) = a.
Proof. induction a as [|c a IH]; simpl; [now destruct b | now rewrite IH]. Qed.

Lemma prefix_app (p s : string) : String.prefix p (p +:+ s) = true.
Proof.
  induction p as [|c p IH]; simpl; [now destruct s|].
  destruct (Ascii.ascii_dec c c); [exact IH | congruence].
Qed.

Lemma prefix_inv (p s : string) :
  String.prefix p s = true -> s = p +:+ str_drop (String.length p) s.
Proof.
  revert s. induction p as [|c p IH]; intros s H; simpl.
  - now destruct s.
  - destruct s as [|d s]; simpl in H; [discriminate|].
    destruct (Ascii.ascii_dec c d) as [->|]; [|discriminate].
    simpl. f_equal. now apply IH.
Qed.

(** The test of line 89 accepts exactly the strings [{{name}}]. *)
Lemma placeholder_form (s : string) :
  startsWith "{{" s && endsWith "}}" s = true <->
  exists name, s = "{{" +:+ name +:+ "}}".
Proof.
  split.
  - intros H. apply andb_true_iff in H as [Hs He].
    apply prefix_inv in Hs.
    set (rest := str_drop (String.length "{{") s) in Hs. clearbody rest. subst s.
    unfold endsWith in He. apply andb_true_iff in He as [_ He].
    apply String.eqb_eq in He.
    destruct rest as [|c1 [|c2 r]]; simpl in He; try discriminate.
    exists (str_take (String.length r) (String c1 (String c2 r))).
    rewrite <- He. simpl. do 2 f_equal.
    symmetry. apply (str_take_drop (String.length r) (String c1 (String c2 r))).
  - intros [name ->]. apply andb_true_iff. split; [apply prefix_app|].
    unfold endsWith. apply andb_true_iff. split.
    + apply Nat.leb_le. simpl. rewrite str_length_app. simpl. lia.
    + apply String.eqb_eq.
      rewrite <- (str_app_assoc "{{" name "}}"), str_length_app.
      replace (String.length ("{{" +:+ name) + String.length "}}" - String.length "}}")%nat
        with (String.length ("{{" +:+ name)) by lia.
      apply str_drop_app.
Qed.

Lemma slice_placeholder (name : string) : slice ("{{" +:+ name +:+ "}}") 2 (-2) = name.
Proof.
  unfold slice.
  set (s := "{{" +:+ name +:+ "}}").
  assert (Hlen : String.length s = (String.length name + 4)%nat).
  { unfold s. simpl. rewrite str_length_app. simpl. lia. }
  rewrite Hlen.
  replace (2 <? 0) with false by reflexivity.
  replace (-2 <? 0) with true by reflexivity.
  replace (Z.min 2 (Z.of_nat (String.length name + 4))) with 2 by lia.
  replace (Z.max (Z.of_nat (String.length name + 4) + -2) 0 - 2)
    with (Z.of_nat (String.length name)) by lia.
  rewrite Nat2Z.id. unfold s. simpl. apply str_take_app.
Qed.

(** ** Facts about property lists *)

Lemma obj_set_fresh {A : Type} (props : list (string * A)) (key : string) (v : A) :
  key ∉ map fst props -> obj_set props key v = (props ++ [(key, v)])%list.
Proof.
  induction props as [|[k x] props IH]; simpl; intros Hnot; [reflexivity|].
  apply not_elem_of_cons in Hnot as [Hne Hnot].
  destruct (String.eqb_spec k key) as [->|_]; [congruence|].
  f_equal. now apply IH.
Qed.





(** ** The output extractor on the examples of the specification *)

Example resolvePath_nested :
  resolvePath (JObj [("a", JObj [("b", JArr [JObj [("c", JNum 5)]])])]) "a.b[0].c" = JNum 5.
Proof. reflexivity. Qed.

Example resolvePath_missing : resolvePath (JObj []) "a.b" = JUndefined.
Proof. reflexivity. Qed.

Example resolvePath_first_output :
  resolvePath (JObj [("status", JStr "succeeded"); ("output", JArr [JStr "https://x/y.png"])])
    "output[0]" = JStr "https://x/y.png".
Proof. reflexivity. Qed.

(** ** The payload constructor (claim C2) *)

(** With distinct property names, the loop that assigns every property but
    the skipped ones rebuilds the property list without them. *)
Lemma fold_obj_set_skip {A B : Type} (f : A -> B) (skip : string -> bool)
  (props : list (string * A)) (acc : list (string * B)) :
  NoDup (map fst acc ++ map fst props) ->
  fold_left
    (fun result kv =>
       match kv with
       | (key, sub) => if skip key then result else obj_set result key (f sub)
       end)
    props acc
  = (acc ++ map (fun kv => (fst kv, f (snd kv)))
              (List.filter (fun kv => negb (skip (fst kv))) props))%list.
Proof.
  revert acc. induction props as [|[k x] props IH]; intros acc Hnd.
  - cbn. now rewrite app_nil_r.
  - cbn [fold_left List.filter fst map] in *.
    apply NoDup_app in Hnd as (Hacc & Hdisj & Hprops).
    apply NoDup_cons in Hprops as [Hk Hprops].
    destruct (skip k); cbn [negb].
    + apply IH. apply NoDup_app. split; [exact Hacc|]. split; [|exact Hprops].
      intros y Hy Hy'. apply (Hdisj y Hy). now right.
    + rewrite obj_set_fresh by (intros Hin; apply (Hdisj k Hin); left).
      rewrite IH.
      * cbn [map fst snd]. now rewrite <- app_assoc.
      * rewrite map_app. cbn [map fst]. rewrite <- app_assoc. cbn [app].
        apply NoDup_app. split; [exact Hacc|]. split.
        -- intros y Hy Hy'. apply elem_of_cons in Hy' as [->|Hy'].
           ++ apply (Hdisj k Hy). left.
           ++ apply (Hdisj y Hy). now right.
        -- apply NoDup_cons. split; assumption.
Qed.

Lemma constructPayload_object (props : list (string * JsVal)) (inputs : list (string * JsVal)) :
  NoDup (map fst props) ->
  constructPayload (JObj props) inputs
  = JObj (map (fun kv => (fst kv, constructPayload (snd kv) inputs))
            (List.filter (fun kv => negb (String.eqb (fst kv) "__proto__")) props)).
Proof.
  intros Hnd. cbn [constructPayload]. f_equal.
  exact (fold_obj_set_skip (fun sub => constructPayload sub inputs)
           (fun key => String.eqb key "__proto__") props [] Hnd).
Qed.

Lemma filter_no_proto (props : list (string * JsVal)) :
  "__proto__" ∉ map fst props ->
  List.filter (fun kv => negb (String.eqb (fst kv) "__proto__")) props = props.
Proof.
  induction props as [|[k x] props IH]; [reflexivity|].
  cbn [map fst List.filter]. intros Hnot.
  apply not_elem_of_cons in Hnot as [Hne Hnot].
  destruct (String.eqb_spec k "__proto__") as [->|_]; [congruence|].
  cbn [negb]. f_equal. now apply IH.
Qed.

Lemma no_proto_key_keys (props : list (string * JsVal)) :
  no_proto_key (JObj props) = true -> "__proto__" ∉ map fst props.
Proof.
  cbn [no_proto_key]. induction props as [|[k x] props IH]; cbn [forallb map fst].
  - intros _ Hin. inversion Hin.
  - intros [[Hk _]%andb_true_iff Hrest]%andb_true_iff.
    apply not_elem_of_cons. split; [|now apply IH].
    apply negb_true_iff, String.eqb_neq in Hk. congruence.
Qed.





(** ** The remote model list (claim C1) *)

(** Whatever the network answers, [fetchRemoteDefinitions] issues its one
    request and resolves. *)
Lemma fetchRemoteDefinitions_resolves (w : World) (tr : Trace) :
  exists models,
    fetchRemoteDefinitions w tr = (Ok models, (tr ++ [Fetched (url_request MODELS_URL)])%list).
Proof.
  unfold fetchRemoteDefinitions, try_catch, bind, fetch_url, fetch.
  destruct (net w (fetch_count tr) (url_request MODELS_URL)) as [reason|r].
  - eexists. reflexivity.
  - destruct (resp_ok r); simpl; [|eexists; reflexivity].
    unfold json. destruct (resp_json r) as [data|]; simpl; [|eexists; reflexivity].
    unfold lift, get_member.
    destruct (is_nullish data); [eexists; reflexivity|].
    destruct (member data "models"); eexists; reflexivity.
Qed.

(** C1.  [fetchRemoteDefinitions] never throws; when the request fails
    with a network error, when the response has a non-success status, when
    its body is not JSON, and when the [models] field of the body is not an
    array (or the body is [null]), it resolves to exactly the built-in
    fallback list. *)
Theorem fetchRemoteDefinitions_fallback (w : World) (tr : Trace) :
  let outcome := net w (fetch_count tr) (url_request MODELS_URL) in
  (exists models tr', fetchRemoteDefinitions w tr = (Ok models, tr')) /\
  (forall reason, outcome = NetworkError reason ->
     fst (fetchRemoteDefinitions w tr) = Ok LOCAL_FALLBACK_MODELS) /\
  (forall r, outcome = Responded r -> resp_ok r = false ->
     fst (fetchRemoteDefinitions w tr) = Ok LOCAL_FALLBACK_MODELS) /\
  (forall r, outcome = Responded r -> resp_json r = None ->
     fst (fetchRemoteDefinitions w tr) = Ok LOCAL_FALLBACK_MODELS) /\
  (forall r data, outcome = Responded r -> resp_json r = Some data ->
     (forall items, member data "models" <> JArr items) ->
     fst (fetchRemoteDefinitions w tr) = Ok LOCAL_FALLBACK_MODELS).
Proof.
  intros outcome. split; [|repeat split].
  - destruct (fetchRemoteDefinitions_resolves w tr) as [models E]. eauto.
  - intros reason E.
    unfold fetchRemoteDefinitions, try_catch, bind, fetch_url, fetch.
    fold outcome. now rewrite E.
  - intros r E Hok.
    unfold fetchRemoteDefinitions, try_catch, bind, fetch_url, fetch.
    fold outcome. rewrite E, Hok. reflexivity.
  - intros r E Hjson.
    unfold fetchRemoteDefinitions, try_catch, bind, fetch_url, fetch.
    fold outcome. rewrite E. destruct (resp_ok r); [|reflexivity].
    simpl. unfold json. now rewrite Hjson.
  - intros r data E Hjson Hnot.
    unfold fetchRemoteDefinitions, try_catch, bind, fetch_url, fetch.
    fold outcome. rewrite E. destruct (resp_ok r); [|reflexivity].
    simpl. unfold json. rewrite Hjson. simpl. unfold lift, get_member.
    destruct (is_nullish data); [reflexivity|].
    destruct (member data "models") as [ | | | | | items | ] eqn:Em; try reflexivity.
    now destruct (Hnot items).
Qed.

Lemma fetchRemoteDefinitions_fallback_witness :
  fst (fetchRemoteDefinitions offline_world []) = Ok LOCAL_FALLBACK_MODELS /\
  fst (fetchRemoteDefinitions http500_world []) = Ok LOCAL_FALLBACK_MODELS /\
  fst (fetchRemoteDefinitions not_models_world []) = Ok LOCAL_FALLBACK_MODELS.
Proof.
  destruct (fetchRemoteDefinitions_fallback offline_world []) as (_ & Hnet & _).
  destruct (fetchRemoteDefinitions_fallback http500_world []) as (_ & _ & Hstatus & _).
  destruct (fetchRemoteDefinitions_fallback not_models_world []) as (_ & _ & _ & _ & Hshape).
  split; [|split].
  - apply (Hnet "Failed to fetch"). reflexivity.
  - apply (Hstatus (text_response 500 "Internal Server Error")); reflexivity.
  - apply (Hshape (json_response 200 (JObj [("not_models", JArr [])]))
             (JObj [("not_models", JArr [])])); try reflexivity.
    intros items. discriminate.
Defined.

(** ** The registry merge (claim C3) *)

Section MergeFacts.

Context {Model K : Type} `{EqDecision K} (model_id : Model -> K).

Local Open Scope list_scope.

Abbreviation ids := (fmap (M := list) model_id).

Lemma merge_step_replace (merged : list Model) (custom : Model) (index : nat) :
  findIndex model_id merged custom = Some index ->
  exists m, merged !! index = Some m /\ model_id m = model_id custom /\
            (forall j y, merged !! j = Some y -> (j < index)%nat ->
                         model_id y <> model_id custom) /\
            merge_step model_id merged custom
            = (take index merged ++ custom :: drop (S index) merged)%list.
Proof.
  unfold merge_step, findIndex. intros E.
  destruct (list_find _ merged) as [[i m]|] eqn:Ef; [|discriminate].
  simpl in E. injection E as ->.
  apply list_find_Some in Ef as (Hl & Hm & Hfirst).
  exists m. repeat split; try assumption.
  simpl. apply insert_take_drop. now apply lookup_lt_Some in Hl.
Qed.

Lemma merge_step_append (merged : list Model) (custom : Model) :
  findIndex model_id merged custom = None ->
  (forall m, m ∈ merged -> model_id m <> model_id custom) /\
  merge_step model_id merged custom = (merged ++ [custom])%list.
Proof.
  unfold merge_step, findIndex. intros E.
  destruct (list_find _ merged) as [[i m]|] eqn:Ef; [discriminate|].
  split; [|reflexivity].
  apply list_find_None in Ef. rewrite Forall_forall in Ef. exact Ef.
Qed.

Lemma overridden_id (customs : list Model) (r : Model) :
  model_id (overridden model_id customs r) = model_id r.
Proof.
  unfold overridden. destruct (list_find _ customs) as [[i c]|] eqn:E; [|reflexivity].
  now apply list_find_Some in E as (_ & Hc & _).
Qed.

Lemma overridden_none (customs : list Model) (r : Model) :
  (forall c, c ∈ customs -> model_id c <> model_id r) ->
  overridden model_id customs r = r.
Proof.
  intros Hno. unfold overridden.
  destruct (list_find _ customs) as [[i c]|] eqn:E; [|reflexivity].
  apply list_find_Some in E as (Hl & Hc & _).
  destruct (Hno c); [|assumption]. apply list_elem_of_lookup. eauto.
Qed.

Lemma overridden_cons_eq (c : Model) (customs : list Model) (r : Model) :
  model_id c = model_id r -> overridden model_id (c :: customs) r = c.
Proof.
  intros E. unfold overridden. simpl. now rewrite decide_True.
Qed.

Lemma overridden_cons_ne (c : Model) (customs : list Model) (r : Model) :
  model_id c <> model_id r ->
  overridden model_id (c :: customs) r = overridden model_id customs r.
Proof.
  intros E. unfold overridden. simpl. rewrite decide_False by assumption.
  now destruct (list_find _ customs) as [[i x]|].
Qed.

Lemma overridden_fmap_ne (c : Model) (customs l : list Model) :
  model_id c ∉ ids l ->
  overridden model_id (c :: customs) <$> l = overridden model_id customs <$> l.
Proof.
  intros Hno. apply list_fmap_ext. intros i x Hx.
  apply overridden_cons_ne. intros E. apply Hno. rewrite E.
  apply list_elem_of_fmap_2. apply list_elem_of_lookup. eauto.
Qed.

Lemma filter_fresh_ext (l1 l2 customs : list Model) :
  (forall c, c ∈ customs -> model_id c ∈ ids l1 <-> model_id c ∈ ids l2) ->
  filter (fun c => model_id c ∉ ids l1) customs
  = filter (fun c => model_id c ∉ ids l2) customs.
Proof.
  induction customs as [|c customs IH]; intros Hext; [reflexivity|].
  rewrite !filter_cons.
  assert (Hc := Hext c (list_elem_of_here _ _)).
  rewrite IH by (intros x Hx; apply Hext; now right).
  destruct (decide (model_id c ∉ ids l1)), (decide (model_id c ∉ ids l2));
    tauto.
Qed.

(** With distinct ids in each list, the loop computes the merge of the
    specification. *)
Lemma mergeModels_closed_form (customs remote : list Model) :
  NoDup (ids remote) -> NoDup (ids customs) ->
  mergeModels model_id remote customs = merged_by_spec model_id remote customs.
Proof.
  revert remote. induction customs as [|c customs IH]; intros remote Hr Hc.
  - unfold mergeModels, merged_by_spec. simpl. rewrite app_nil_r.
    symmetry. rewrite <- (list_fmap_id remote) at 2.
    apply list_fmap_ext. intros i x _. now apply overridden_none; intros ? ?%elem_of_nil.
  - rewrite fmap_cons in Hc. apply NoDup_cons in Hc as [Hc_fresh Hc].
    assert (Hself : overridden model_id customs c = c).
    { apply overridden_none. intros c' Hin E. apply Hc_fresh. rewrite <- E.
      now apply list_elem_of_fmap_2. }
    change (mergeModels model_id remote (c :: customs))
      with (mergeModels model_id (merge_step model_id remote c) customs).
    destruct (findIndex model_id remote c) as [index|] eqn:Ef.
    + destruct (merge_step_replace _ _ _ Ef) as (m & Hl & Hm & _ & ->).
      pose proof (take_drop_middle _ _ _ Hl) as Hsplit.
      set (l1 := take index remote) in *. set (l2 := drop (S index) remote) in *.
      clearbody l1 l2. subst remote.
      assert (Hids : ids (l1 ++ c :: l2) = ids (l1 ++ m :: l2)).
      { rewrite !fmap_app, !fmap_cons. now rewrite Hm. }
      rewrite IH by (rewrite ?Hids; assumption).
      unfold merged_by_spec. rewrite Hids. f_equal.
      * rewrite fmap_app, fmap_cons in Hr.
        apply NoDup_app in Hr as (_ & Hdisj & Hr2).
        apply NoDup_cons in Hr2 as [Hm2 _].
        assert (Hm1 : model_id c ∉ ids l1).
        { intros Hin. apply (Hdisj _ Hin). rewrite <- Hm. left. }
        rewrite Hm in Hm2.
        rewrite !fmap_app, !fmap_cons.
        rewrite (overridden_fmap_ne c customs l1 Hm1).
        rewrite (overridden_fmap_ne c customs l2 Hm2).
        rewrite Hself. now rewrite overridden_cons_eq.
      * rewrite filter_cons_False; [reflexivity|].
        intros Hfresh. apply Hfresh. rewrite fmap_app, fmap_cons, Hm.
        apply elem_of_app. right. left.
    + destruct (merge_step_append _ _ Ef) as (Hno & ->).
      assert (Hnew : model_id c ∉ ids remote).
      { intros (m & E & Hin)%list_elem_of_fmap. now apply (Hno m Hin). }
      rewrite IH; [|rewrite fmap_app; apply NoDup_app; repeat split; try assumption|assumption].
      * unfold merged_by_spec. rewrite fmap_app. simpl. rewrite Hself.
        rewrite (overridden_fmap_ne c customs remote Hnew).
        rewrite filter_cons_True by assumption.
        rewrite <- app_assoc. simpl. do 2 f_equal.
        apply filter_fresh_ext. intros c' Hin. rewrite fmap_app, elem_of_app.
        split; [|tauto]. intros [?|Hc']; [assumption|].
        simpl in Hc'. apply list_elem_of_singleton in Hc'.
        destruct Hc_fresh. rewrite <- Hc'. now apply list_elem_of_fmap_2.
      * intros x Hx Hx'. simpl in Hx'. apply list_elem_of_singleton in Hx'.
        now subst x.
      * simpl. apply NoDup_singleton.
Qed.

(** A remote entry that no custom entry matches keeps its place. *)
Lemma mergeModels_keeps (customs remote : list Model) (i : nat) (r : Model) :
  remote !! i = Some r ->
  (forall c, c ∈ customs -> model_id c <> model_id r) ->
  mergeModels model_id remote customs !! i = Some r.
Proof.
  revert remote. induction customs as [|c customs IH]; intros remote Hl Hno.
  - exact Hl.
  - change (mergeModels model_id remote (c :: customs))
      with (mergeModels model_id (merge_step model_id remote c) customs).
    apply IH; [|intros c' Hc'; apply Hno; now right].
    assert (Hc : model_id c <> model_id r) by (apply Hno; left).
    unfold merge_step.
    destruct (findIndex model_id remote c) as [index|] eqn:Ef.
    + destruct (merge_step_replace _ _ _ Ef) as (m & Hm & Hid & _).
      rewrite list_lookup_insert_ne; [assumption|].
      intros ->. rewrite Hl in Hm. injection Hm as ->. congruence.
    + now apply lookup_app_l_Some.
Qed.

End MergeFacts.

(** C3.  [fetchModels] publishes the merge of the fetched (or fallback)
    definitions with the custom ones, the entries of both lists being
    definitions: values other than [null] and [undefined], with an id that
    is not an object.  The custom entries are taken in
    order; each one replaces, as a whole and in place, the first entry of
    the list built so far that has its id, or is appended when there is
    none.  A remote entry that no custom entry matches keeps its position
    and its value.  When the ids are distinct
    within each list, the result is the remote list in its order, each entry
    replaced as a whole by the custom entry of the same id, followed by the
    custom entries with a new id in the order of the custom list. *)
Theorem fetchModels_merge (w : World) (st : Store) (tr tr' : Trace) (remote : list JsVal) :
  fetchRemoteDefinitions w tr = (Ok remote, tr') ->
  forallb model_entry remote = true ->
  forallb model_entry (customModels st) = true ->
  let merged := mergeModels entry_id remote (customModels st) in
  fetchModels w st tr
  = (Ok {| availableModels := merged; customModels := customModels st |}, tr') /\
  merged = fold_left (merge_step entry_id) (customModels st) remote /\
  (forall acc c,
     forallb model_entry acc = true -> model_entry c = true ->
     (exists index m,
        acc !! index = Some m /\ entry_id m = entry_id c /\
        (forall j y, acc !! j = Some y -> (j < index)%nat -> entry_id y <> entry_id c) /\
        merge_step entry_id acc c = <[index := c]> acc) \/
     ((forall m, m ∈ acc -> entry_id m <> entry_id c) /\
      merge_step entry_id acc c = acc ++ [c])) /\
  (forall i r, remote !! i = Some r ->
     (forall c, c ∈ customModels st -> entry_id c <> entry_id r) ->
     merged !! i = Some r) /\
  (NoDup (entry_id <$> remote) -> NoDup (entry_id <$> customModels st) ->
   merged = ((overridden entry_id (customModels st) <$> remote) ++
             filter (fun c => entry_id c ∉ entry_id <$> remote) (customModels st))%list).
Proof.
  intros Hfetch _ _ merged. split; [|split; [|split; [|split]]].
  - unfold fetchModels, bind. now rewrite Hfetch.
  - reflexivity.
  - intros acc c _ _. destruct (findIndex entry_id acc c) as [index|] eqn:Ef.
    + left. destruct (merge_step_replace entry_id acc c index Ef)
        as (m & Hm & Hid & Hfirst & _).
      exists index, m. repeat split; try assumption.
      unfold merge_step. now rewrite Ef.
    + right. now apply merge_step_append.
  - intros i r. apply mergeModels_keeps.
  - apply mergeModels_closed_form.
Qed.

Lemma fetchModels_merge_witness :
  fst (fetchModels two_models_world (store_with [model_m2_override]) [])
  = Ok {| availableModels := [model_m1; model_m2_override];
          customModels := [model_m2_override] |} /\
  fst (fetchModels two_models_world (store_with [model_m3]) [])
  = Ok {| availableModels := [model_m1; model_m2; model_m3];
          customModels := [model_m3] |}.
Proof.
  split.
  - destruct (fetchModels_merge two_models_world (store_with [model_m2_override]) [] _
                [model_m1; model_m2] eq_refl eq_refl eq_refl)
      as (Hrun & _ & _ & _ & Hclosed).
    rewrite Hrun, Hclosed.
    + reflexivity.
    + apply (bool_decide_unpack _). vm_compute. exact I.
    + apply (bool_decide_unpack _). vm_compute. exact I.
  - destruct (fetchModels_merge two_models_world (store_with [model_m3]) [] _
                [model_m1; model_m2] eq_refl eq_refl eq_refl)
      as (Hrun & _ & _ & _ & Hclosed).
    rewrite Hrun, Hclosed.
    + reflexivity.
    + apply (bool_decide_unpack _). vm_compute. exact I.
    + apply (bool_decide_unpack _). vm_compute. exact I.
Defined.

(** ** The polling loop (claims C4, C5, C6) *)

Lemma fetch_count_wait (tr : Trace) (ms : Z) :
  fetch_count (tr ++ [Waited ms]) = fetch_count tr.
Proof. unfold fetch_count. rewrite List.filter_app, length_app. simpl. lia. Qed.

Lemma fetch_count_attempt (tr : Trace) (ms : Z) (req : Request) :
  fetch_count (tr ++ [Waited ms; Fetched req]) = S (fetch_count tr).
Proof. unfold fetch_count. rewrite List.filter_app, length_app. simpl. lia. Qed.

Section PollFacts.

Variable w : World.
Variable statusEndpoint : APIEndpointDefinition.
Variable statusUrl : string.
Variable hdrs : list (string * string).

Local Open Scope list_scope.

Abbreviation req := (status_request statusEndpoint statusUrl hdrs).
Abbreviation loop k := (pollLoop w k statusEndpoint statusUrl hdrs).
Abbreviation attempt tr := (tr ++ [Waited POLLING_INTERVAL; Fetched req]).

(** One turn of the loop, by what the network answers. *)
Lemma pollLoop_unfold (k : nat) (tr : Trace) :
  loop (S k) tr =
  match net w (fetch_count tr) req with
  | NetworkError reason => (Throw (TypeError reason), attempt tr)
  | Responded r =>
      if negb (resp_ok r) then loop k (attempt tr)
      else match resp_json r with
           | None => (Throw (SyntaxError "Unexpected token in JSON"), attempt tr)
           | Some data =>
               match status_of statusEndpoint data with
               | JUndefined | JNull => loop k (attempt tr)
               | JStr s =>
                   if existsb (String.eqb (toLowerCase s)) success_statuses
                   then (Ok data, attempt tr)
                   else if existsb (String.eqb (toLowerCase s)) failure_statuses
                        then (Throw (Error ("Generation failed with status: " +:+ s)),
                              attempt tr)
                        else loop k (attempt tr)
               | _ => (Throw (TypeError "statusValue?.toLowerCase is not a function"),
                       attempt tr)
               end
           end
  end.
Proof.
  cbn [pollLoop]. unfold bind at 1. unfold sleep. unfold bind at 1. unfold fetch.
  rewrite fetch_count_wait. rewrite <- app_assoc. simpl app.
  destruct (net w (fetch_count tr) req) as [reason|r]; [reflexivity|].
  destruct (resp_ok r); simpl negb; cbv iota; [|reflexivity].
  unfold bind at 1. unfold json.
  destruct (resp_json r) as [data|]; [|reflexivity].
  unfold ret at 1. unfold status_of.
  destruct (resolvePath data _) as [ | | b | n | s | items | props ];
    try reflexivity.
  unfold bind, ret. simpl js_toString.
  unfold success_statuses, failure_statuses.
  destruct (existsb _ _); [reflexivity|].
  destruct (existsb _ _); reflexivity.
Qed.

Lemma existsb_eqb_In (s : string) (l : list string) :
  existsb (String.eqb s) l = true <-> In s l.
Proof.
  rewrite existsb_exists. split.
  - intros (x & Hx & E). apply String.eqb_eq in E. now subst.
  - intros Hin. exists s. split; [assumption | apply String.eqb_refl].
Qed.

Lemma existsb_eqb_not_In (s : string) (l : list string) :
  ~ In s l -> existsb (String.eqb s) l = false.
Proof.
  intros Hn. destruct (existsb (String.eqb s) l) eqn:E; [|reflexivity].
  now apply existsb_eqb_In in E.
Qed.

Lemma pollLoop_pending (k : nat) (tr : Trace) :
  still_pending statusEndpoint (net w (fetch_count tr) req) ->
  loop (S k) tr = loop k (attempt tr).
Proof.
  intros (r & E & Hr). rewrite pollLoop_unfold, E.
  destruct Hr as [Hok | (data & Hok & Hjson & Hst)]; rewrite Hok; [reflexivity|].
  simpl negb. cbv iota. rewrite Hjson.
  destruct Hst as [Hnull | (s & Hs & Hns & Hnf)].
  - destruct (status_of statusEndpoint data); try discriminate; reflexivity.
  - rewrite Hs, (existsb_eqb_not_In _ _ Hns), (existsb_eqb_not_In _ _ Hnf).
    reflexivity.
Qed.

Lemma pollLoop_success (k : nat) (tr : Trace) (r : Response) (data : JsVal) (s : string) :
  net w (fetch_count tr) req = Responded r ->
  resp_ok r = true -> resp_json r = Some data ->
  status_of statusEndpoint data = JStr s ->
  In (toLowerCase s) success_statuses ->
  loop (S k) tr = (Ok data, attempt tr).
Proof.
  intros E Hok Hjson Hs Hin. rewrite pollLoop_unfold, E, Hok. simpl negb. cbv iota.
  rewrite Hjson, Hs. now rewrite (proj2 (existsb_eqb_In _ _) Hin).
Qed.

Lemma pollLoop_failure (k : nat) (tr : Trace) (r : Response) (data : JsVal) (s : string) :
  net w (fetch_count tr) req = Responded r ->
  resp_ok r = true -> resp_json r = Some data ->
  status_of statusEndpoint data = JStr s ->
  In (toLowerCase s) failure_statuses ->
  loop (S k) tr
  = (Throw (Error ("Generation failed with status: " +:+ s)), attempt tr).
Proof.
  intros E Hok Hjson Hs Hin. rewrite pollLoop_unfold, E, Hok. simpl negb. cbv iota.
  rewrite Hjson, Hs.
  destruct (existsb (String.eqb (toLowerCase s)) success_statuses) eqn:Es.
  - exfalso. apply existsb_eqb_In in Es.
    unfold success_statuses, failure_statuses in *. simpl in Es, Hin.
    intuition congruence.
  - now rewrite (proj2 (existsb_eqb_In _ _) Hin).
Qed.

(** A turn either ends the call or hands over to the next turn, and in
    both cases it has added one wait and one request to the trace. *)
Lemma pollLoop_turn (k : nat) (tr : Trace) :
  (exists res, loop (S k) tr = (res, attempt tr)) \/
  loop (S k) tr = loop k (attempt tr).
Proof.
  rewrite pollLoop_unfold.
  destruct (net w (fetch_count tr) req) as [reason|r]; [left; eauto|].
  destruct (resp_ok r); simpl negb; cbv iota; [|now right].
  destruct (resp_json r) as [data|]; [|left; eauto].
  destruct (status_of statusEndpoint data); try (left; eauto; fail); try (now right).
  destruct (existsb _ _); [left; eauto|].
  destruct (existsb _ _); [left; eauto | now right].
Qed.

Lemma attempts_trace_snoc (tr : Trace) (n : nat) :
  attempt tr ++ attempts_trace n req = tr ++ attempts_trace (S n) req.
Proof. now rewrite <- app_assoc. Qed.

(** The loop makes at most [k] attempts, each one after a wait. *)
Lemma pollLoop_bounded (k : nat) (tr : Trace) :
  exists n, (n <= k)%nat /\ snd (loop k tr) = tr ++ attempts_trace n req.
Proof.
  revert tr. induction k as [|k IH]; intros tr.
  - exists O. split; [lia|]. simpl. now rewrite app_nil_r.
  - destruct (pollLoop_turn k tr) as [[res E] | E]; rewrite E.
    + exists 1%nat. split; [lia | reflexivity].
    + destruct (IH (attempt tr)) as (n & Hn & Htr).
      exists (S n). split; [lia|]. now rewrite Htr, attempts_trace_snoc.
Qed.

(** When no attempt reaches a verdict the loop uses its whole budget and
    times out. *)
Lemma pollLoop_timeout (k : nat) (tr : Trace) :
  (forall i, (i < k)%nat ->
             still_pending statusEndpoint (net w (fetch_count tr + i) req)) ->
  loop k tr = (Throw (Error "Generation timed out."), tr ++ attempts_trace k req).
Proof.
  revert tr. induction k as [|k IH]; intros tr Hall.
  - simpl. now rewrite app_nil_r.
  - rewrite pollLoop_pending.
    + rewrite IH; [now rewrite attempts_trace_snoc|].
      intros i Hi. rewrite fetch_count_attempt.
      replace (S (fetch_count tr) + i)%nat with (fetch_count tr + S i)%nat by lia.
      apply Hall. lia.
    + specialize (Hall O). rewrite Nat.add_0_r in Hall. apply Hall. lia.
Qed.

End PollFacts.

(** Past its preamble, [pollForCompletion] is the loop with the full
    budget. *)
Lemma pollForCompletion_loop (w : World) (config : AIModelConfig) (initialResponse : JsVal)
  (apiKey : string) (statusEndpoint : APIEndpointDefinition) (taskId : JsVal) (tr : Trace) :
  can_poll config initialResponse statusEndpoint taskId ->
  pollForCompletion w initialResponse config apiKey tr
  = pollLoop w MAX_ATTEMPTS statusEndpoint
      (replace (url statusEndpoint) "{{id}}" (js_toString taskId))
      (resolveHeaders (headers statusEndpoint) apiKey) tr.
Proof.
  intros (eps & g & He & Hg & Hs & -> & Ht).
  unfold pollForCompletion. rewrite He, Hg, Hs.
  unfold bind at 1. unfold ret at 1. now rewrite Ht.
Qed.

Lemma replicate_can_poll :
  can_poll replicate_config task_response replicate_status (JStr "task-1").
Proof.
  exists {| generate := Some replicate_generate; status := Some replicate_status |}.
  exists replicate_generate. repeat split.
Qed.

(** C4.  In the polling loop a non-success HTTP response raises nothing:
    the turn has made its one wait and its one request, and the loop goes on
    with one attempt less.  A response whose status, in lower case, is
    [failed] or [error] ends the call at once with the error "Generation
    failed with status: " followed by the status as received; on the first
    turn of [pollForCompletion] this happens after a single attempt. *)
Theorem poll_transient_and_failure (w : World) (statusEndpoint : APIEndpointDefinition)
  (statusUrl : string) (hdrs : list (string * string)) (k : nat) (tr : Trace) (r : Response) :
  let req := status_request statusEndpoint statusUrl hdrs in
  net w (fetch_count tr) req = Responded r ->
  (resp_ok r = false ->
   pollLoop w (S k) statusEndpoint statusUrl hdrs tr
   = pollLoop w k statusEndpoint statusUrl hdrs
       (tr ++ [Waited POLLING_INTERVAL; Fetched req])) /\
  (forall data s,
     resp_ok r = true -> resp_json r = Some data ->
     status_of statusEndpoint data = JStr s ->
     toLowerCase s = "failed" \/ toLowerCase s = "error" ->
     pollLoop w (S k) statusEndpoint statusUrl hdrs tr
     = (Throw (Error ("Generation failed with status: " +:+ s)),
        tr ++ [Waited POLLING_INTERVAL; Fetched req]) /\
     forall config initialResponse apiKey taskId,
       can_poll config initialResponse statusEndpoint taskId ->
       statusUrl = replace (url statusEndpoint) "{{id}}" (js_toString taskId) ->
       hdrs = resolveHeaders (headers statusEndpoint) apiKey ->
       pollForCompletion w initialResponse config apiKey tr
       = (Throw (Error ("Generation failed with status: " +:+ s)),
          tr ++ [Waited POLLING_INTERVAL; Fetched req])).
Proof.
  intros req E. split.
  - intros Hok. apply pollLoop_pending. exists r. split; [exact E | now left].
  - intros data s Hok Hjson Hs Hlow.
    assert (Hin : In (toLowerCase s) failure_statuses).
    { unfold failure_statuses. destruct Hlow as [E1|E1]; rewrite E1; simpl; auto. }
    split.
    + now apply (pollLoop_failure w statusEndpoint statusUrl hdrs k tr r data s).
    + intros config initialResponse apiKey taskId Hcan -> ->.
      rewrite (pollForCompletion_loop _ _ _ _ _ _ _ Hcan).
      now apply (pollLoop_failure w statusEndpoint _ _ _ tr r data s).
Qed.

Lemma poll_transient_and_failure_witness :
  pollLoop unavailable_world 60 replicate_status "https://status" [] []
  = pollLoop unavailable_world 59 replicate_status "https://status" []
      [Waited 2000; Fetched (status_request replicate_status "https://status" [])] /\
  pollForCompletion always_failed_world task_response replicate_config "" []
  = (Throw (Error "Generation failed with status: failed"),
     [Waited 2000; Fetched (poll_request replicate_status (JStr "task-1") "")]).
Proof.
  split.
  - apply (proj1 (poll_transient_and_failure unavailable_world replicate_status
                    "https://status" [] 59 [] (text_response 503 "Service Unavailable")
                    eq_refl)).
    reflexivity.
  - apply (proj2 (proj2 (poll_transient_and_failure always_failed_world replicate_status
                    _ _ 59 [] (json_response 200 (status_body "failed")) eq_refl)
                   (status_body "failed") "failed" eq_refl eq_refl eq_refl
                   (or_introl eq_refl))
             replicate_config task_response "" (JStr "task-1") replicate_can_poll
             eq_refl eq_refl).
Defined.

Lemma wait_count_app (tr tr' : Trace) :
  wait_count (tr ++ tr') = (wait_count tr + wait_count tr')%nat.
Proof. unfold wait_count. now rewrite List.filter_app, length_app. Qed.

(** C5, as stated, fails: in the run where the polls answer pending,
    pending, succeeded, three waits (not two) have elapsed when the third
    response arrives. *)
Lemma two_waits_before_third_response_refuted :
  fst (pollForCompletion pending_pending_succeeded_world task_response replicate_config "" [])
  = Ok (status_body "succeeded") /\
  wait_count
    (snd (pollForCompletion pending_pending_succeeded_world task_response
            replicate_config "" []))
  = 3%nat /\
  ~ third_response_after 2.
Proof.
  split; [reflexivity|]. split; [reflexivity|].
  intros H.
  destruct (H pending_pending_succeeded_world replicate_config task_response ""
              replicate_status (JStr "task-1") []
              (status_body "pending") (status_body "pending") (status_body "succeeded")
              replicate_can_poll) as [_ Hwaits].
  - exists (json_response 200 (status_body "pending")). repeat split.
  - exists (json_response 200 (status_body "pending")). repeat split.
  - exists (json_response 200 (status_body "succeeded")). repeat split.
  - vm_compute in Hwaits. discriminate Hwaits.
Qed.

(** C5, amended.  When three successive polls answer pending, pending,
    succeeded, [pollForCompletion] returns the body of the third response,
    and the run consists of exactly three turns, each a wait of 2000 ms
    followed by the status request: three waits have elapsed when the third
    response is received, two of them after the first response. *)
Theorem third_response_after_three_waits (w : World) (config : AIModelConfig)
  (initialResponse : JsVal) (apiKey : string) (statusEndpoint : APIEndpointDefinition)
  (taskId : JsVal) (tr : Trace) (d1 d2 d3 : JsVal) :
  can_poll config initialResponse statusEndpoint taskId ->
  let req := poll_request statusEndpoint taskId apiKey in
  polled_status w statusEndpoint req (fetch_count tr) "pending" d1 ->
  polled_status w statusEndpoint req (fetch_count tr + 1) "pending" d2 ->
  polled_status w statusEndpoint req (fetch_count tr + 2) "succeeded" d3 ->
  pollForCompletion w initialResponse config apiKey tr
  = (Ok d3, tr ++ [Waited 2000; Fetched req; Waited 2000; Fetched req;
                   Waited 2000; Fetched req]) /\
  wait_count (snd (pollForCompletion w initialResponse config apiKey tr))
  = (wait_count tr + 3)%nat.
Proof.
  intros Hcan req (r1 & E1 & Hok1 & Hj1 & Hs1) (r2 & E2 & Hok2 & Hj2 & Hs2)
    (r3 & E3 & Hok3 & Hj3 & Hs3).
  assert (Hrun : pollForCompletion w initialResponse config apiKey tr
                 = (Ok d3, tr ++ attempts_trace 3 req)).
  { rewrite (pollForCompletion_loop _ _ _ _ _ _ _ Hcan).
    unfold MAX_ATTEMPTS. fold req.
    rewrite pollLoop_pending.
    2:{ exists r1. split; [exact E1|]. right. exists d1. repeat split; try assumption.
        right. exists "pending". split; [assumption|].
        split; simpl; intuition discriminate. }
    rewrite pollLoop_pending.
    2:{ rewrite fetch_count_attempt. exists r2. split.
        - rewrite <- E2. f_equal. lia.
        - right. exists d2. repeat split; try assumption.
          right. exists "pending". split; [assumption|].
          split; simpl; intuition discriminate. }
    rewrite (pollLoop_success _ _ _ _ _ _ r3 d3 "succeeded"); try assumption.
    - now rewrite <- !app_assoc.
    - rewrite !fetch_count_attempt. rewrite <- E3. f_equal. lia.
    - simpl. auto. }
  split; [exact Hrun|].
  rewrite Hrun. simpl snd. rewrite wait_count_app. reflexivity.
Qed.

Lemma third_response_after_three_waits_witness :
  pollForCompletion pending_pending_succeeded_world task_response replicate_config "" []
  = (Ok (status_body "succeeded"),
     let req := poll_request replicate_status (JStr "task-1") "" in
     [Waited 2000; Fetched req; Waited 2000; Fetched req; Waited 2000; Fetched req]).
Proof.
  apply (third_response_after_three_waits pending_pending_succeeded_world replicate_config
           task_response "" replicate_status (JStr "task-1") []
           (status_body "pending") (status_body "pending") (status_body "succeeded")
           replicate_can_poll).
  - exists (json_response 200 (status_body "pending")). repeat split.
  - exists (json_response 200 (status_body "pending")). repeat split.
  - exists (json_response 200 (status_body "succeeded")). repeat split.
Defined.

(** C6, as stated, fails: when the first poll answers [failed], no attempt
    yields a success status, yet the call ends after one attempt with the
    failure error, not after the 60th with the timeout error. *)
Lemma no_success_means_timeout_refuted :
  (forall n,
     ~ yields_success replicate_status
         (net always_failed_world n (poll_request replicate_status (JStr "task-1") ""))) /\
  pollForCompletion always_failed_world task_response replicate_config "" []
  = (Throw (Error "Generation failed with status: failed"),
     attempts_trace 1 (poll_request replicate_status (JStr "task-1") "")) /\
  ~ no_success_means_timeout.
Proof.
  assert (Hnever : forall n,
             ~ yields_success replicate_status
                 (net always_failed_world n
                    (poll_request replicate_status (JStr "task-1") ""))).
  { intros n (r & data & s & E & _ & Hj & Hs & Hin).
    injection E as <-. injection Hj as <-.
    vm_compute in Hs. injection Hs as <-.
    vm_compute in Hin. intuition discriminate. }
  split; [exact Hnever|]. split; [reflexivity|].
  intros H.
  specialize (H always_failed_world replicate_config task_response ""
                replicate_status (JStr "task-1") [] replicate_can_poll).
  cbv zeta in H. specialize (H Hnever). vm_compute in H. discriminate H.
Qed.

(** C6, amended.  [pollForCompletion] makes at most 60 status attempts,
    each after a wait of 2000 ms.  In every run in which each of the 60
    attempts ends without a verdict (a non-success HTTP response, or a body
    whose status is absent or a string outside both terminal sets), the
    loop ends after the 60th attempt and the call fails with "Generation
    timed out."; no further request is made. *)
Theorem poll_budget (w : World) (config : AIModelConfig) (initialResponse : JsVal)
  (apiKey : string) (statusEndpoint : APIEndpointDefinition) (taskId : JsVal) (tr : Trace) :
  can_poll config initialResponse statusEndpoint taskId ->
  let req := poll_request statusEndpoint taskId apiKey in
  (exists n, (n <= MAX_ATTEMPTS)%nat /\
             snd (pollForCompletion w initialResponse config apiKey tr)
             = tr ++ attempts_trace n req) /\
  ((forall i, (i < MAX_ATTEMPTS)%nat ->
              still_pending statusEndpoint (net w (fetch_count tr + i) req)) ->
   pollForCompletion w initialResponse config apiKey tr
   = (Throw (Error "Generation timed out."), tr ++ attempts_trace MAX_ATTEMPTS req)).
Proof.
  intros Hcan req. rewrite (pollForCompletion_loop _ _ _ _ _ _ _ Hcan). split.
  - apply pollLoop_bounded.
  - apply pollLoop_timeout.
Qed.

Lemma poll_budget_witness :
  pollForCompletion unavailable_world task_response replicate_config "" []
  = (Throw (Error "Generation timed out."),
     attempts_trace 60 (poll_request replicate_status (JStr "task-1") "")).
Proof.
  apply (proj2 (poll_budget unavailable_world replicate_config task_response ""
                  replicate_status (JStr "task-1") [] replicate_can_poll)).
  intros i _. exists (text_response 503 "Service Unavailable").
  split; [reflexivity | left; reflexivity].
Defined.

(** ** Header substitution (claim C7) *)










(** ** Text generation (claim C8) *)

Lemma not_native (config : AIModelConfig) :
  provider config <> "google_native" ->
  String.eqb (provider config) "google_native" = false.
Proof. intros H. now apply String.eqb_neq. Qed.

(** C8.  For a provider other than [google_native], [generateText] runs
    the generic request on the inputs [{ prompt }] and reads the result at
    the path [generate.outputMapping.text], ["text"] by default: a string
    found there is returned; anything else makes the call fail with the
    extraction error; every error of this path, also one raised by the
    request itself, is rethrown as an [Error] whose message starts with the
    display name of the model in brackets.  With the mapping
    [choices[0].message.content] and the response
    [{choices:[{message:{content:"Hello"}}]}] the result is ["Hello"]. *)
Theorem generateText_generic (w : World) (prompt : string) (config : AIModelConfig)
  (systemInstruction : option string) (tr : Trace) :
  provider config <> "google_native" ->
  (forall raw tr' eps g,
     executeGenericRequest w config [("prompt", JStr prompt)] tr = (Ok raw, tr') ->
     endpoints config = Some eps -> generate eps = Some g ->
     let extracted := resolvePath raw (mapping_or (outputMapping g) "text" "text") in
     (forall text, extracted = JStr text ->
        generateText w prompt config systemInstruction tr = (Ok text, tr')) /\
     ((forall text, extracted <> JStr text) ->
        generateText w prompt config systemInstruction tr
        = (Throw (Error ("[" +:+ name config +:+ "] Error: "
                         +:+ "Could not extract text from provider response.")), tr'))) /\
  (forall e tr',
     executeGenericRequest w config [("prompt", JStr prompt)] tr = (Throw e, tr') ->
     generateText w prompt config systemInstruction tr
     = (Throw (Error ("[" +:+ name config +:+ "] Error: " +:+ message e)), tr')) /\
  (forall e tr',
     generateText w prompt config systemInstruction tr = (Throw e, tr') ->
     exists m, e = Error ("[" +:+ name config +:+ "] Error: " +:+ m)) /\
  (forall eps g r,
     endpoints config = Some eps -> generate eps = Some g -> status eps = None ->
     outputMapping g = Some [("text", "choices[0].message.content")] ->
     (forall req, net w (fetch_count tr) req = Responded r) ->
     resp_ok r = true ->
     resp_json r = Some (JObj [("choices",
                        JArr [JObj [("message", JObj [("content", JStr "Hello")])]])]) ->
     fst (generateText w prompt config systemInstruction tr) = Ok "Hello").
Proof.
  intros Hgeneric. apply not_native in Hgeneric.
  split; [|split; [|split]].
  - intros raw tr' eps g Hrun He Hg extracted. split.
    + intros text Hx. unfold generateText. rewrite Hgeneric.
      unfold try_catch, bind. rewrite Hrun, He, Hg. unfold ret at 1.
      fold extracted. now rewrite Hx.
    + intros Hx. unfold generateText. rewrite Hgeneric.
      unfold try_catch, bind. rewrite Hrun, He, Hg. unfold ret at 1.
      fold extracted. destruct extracted as [ | | | | text | | ]; try reflexivity.
      now destruct (Hx text).
  - intros e tr' Hrun. unfold generateText. rewrite Hgeneric.
    unfold try_catch, bind. now rewrite Hrun.
  - intros e tr'. unfold generateText. rewrite Hgeneric.
    unfold try_catch at 1.
    destruct (bind _ _ tr) as [[text|e0] tr0]; [discriminate|].
    unfold throw, wrap_error. intros [= <- _]. eauto.
  - intros eps g r He Hg Hs Hmap Hnet Hok Hjson.
    unfold generateText. rewrite Hgeneric.
    unfold try_catch, bind, executeGenericRequest. rewrite He, Hg, Hs.
    unfold bind, fetch. rewrite Hnet, Hok. change (negb true) with false. cbv iota.
    unfold json. rewrite Hjson. unfold ret. rewrite ?He, ?Hg, ?Hmap. reflexivity.
Qed.

Lemma generateText_generic_witness :
  fst (generateText hello_world "Say hello" openai_config None []) = Ok "Hello".
Proof.
  assert (Hgeneric : provider openai_config <> "google_native") by discriminate.
  apply (proj2 (proj2 (proj2 (generateText_generic hello_world "Say hello" openai_config
                                None [] Hgeneric)))
           {| generate := Some openai_generate; status := None |} openai_generate
           (json_response 200 hello_body));
    reflexivity.
Defined.

(** ** Visual generation (claims C9, C10) *)

Lemma split_on_no_sep (sep : ascii) (s : string) :
  contains_char sep s = false -> split_on sep s = [s].
Proof.
  induction s as [|c s IH]; [reflexivity|].
  cbn [contains_char split_on]. intros H. apply orb_false_iff in H as [Hc Hs].
  rewrite Hc, (IH Hs). reflexivity.
Qed.

Lemma split_on_first (sep : ascii) (a b : string) :
  contains_char sep a = false ->
  split_on sep (a +:+ String sep b) = a :: split_on sep b.
Proof.
  induction a as [|c a IH]; intros H.
  - simpl. now rewrite Ascii.eqb_refl.
  - cbn [contains_char] in H. apply orb_false_iff in H as [Hc Ha].
    simpl. rewrite Hc, (IH Ha). reflexivity.
Qed.

(** Without a comma there is no second field. *)
Lemma second_field_no_comma (s : string) :
  contains_char "," s = false -> second_field s = JUndefined.
Proof. intros H. unfold second_field. now rewrite split_on_no_sep. Qed.

(** A header without comma, a comma, and a payload without comma: the
    second field is the payload. *)
Lemma second_field_payload (header payload : string) :
  contains_char "," header = false -> contains_char "," payload = false ->
  second_field (header +:+ "," +:+ payload) = JStr payload.
Proof.
  intros Hh Hp. unfold second_field.
  change (header +:+ "," +:+ payload) with (header +:+ String "," payload).
  rewrite split_on_first by assumption. now rewrite split_on_no_sep.
Qed.

Lemma data_image_not_http (s : string) :
  startsWith "data:image" s = true -> startsWith "http" s = false.
Proof.
  intros H. apply prefix_inv in H. rewrite H. reflexivity.
Qed.

(** The generic path of [generateVisual] after a successful request, by
    the shape of the extracted value. *)
Lemma generateVisual_extracted (w : World) (prompt : string) (config : AIModelConfig)
  (tr tr' : Trace) (raw : JsVal) :
  provider config <> "google_native" ->
  executeGenericRequest w config [("prompt", JStr prompt)] tr = (Ok raw, tr') ->
  generateVisual w prompt config tr =
  match extracted_image config raw with
  | JStr s =>
      if String.eqb s "" then
        (Throw (wrap_error config
                  (Error "Could not extract image URL from provider response.")), tr')
      else if startsWith "http" s then
        match net w (fetch_count tr') (url_request s) with
        | NetworkError reason =>
            (Throw (wrap_error config (TypeError reason)), tr' ++ [Fetched (url_request s)])
        | Responded r =>
            if readable w (resp_blob r)
            then (Ok (second_field (readAsDataURL (resp_blob r))),
                  tr' ++ [Fetched (url_request s)])
            else (Throw (ProgressEvent "error"), tr' ++ [Fetched (url_request s)])
        end
      else if startsWith "data:image" s then (Ok (second_field s), tr')
      else (Ok (JStr s), tr')
  | v =>
      if truthy v
      then (Throw (wrap_error config (TypeError "imageUrl.startsWith is not a function")), tr')
      else (Throw (wrap_error config
                     (Error "Could not extract image URL from provider response.")), tr')
  end.
Proof.
  intros Hgeneric Hrun. apply not_native in Hgeneric.
  unfold generateVisual. rewrite Hgeneric.
  unfold bind at 1. unfold try_catch, bind at 1. rewrite Hrun.
  unfold extracted_image, image_endpoint.
  destruct (resolvePath raw _) as [ | | b | n | s | items | props ];
    try reflexivity.
  - now destruct b.
  - unfold truthy. now destruct (n =? 0).
  - unfold truthy. destruct (String.eqb s ""); [reflexivity|].
    change (negb (negb false)) with false. cbv iota.
    destruct (startsWith "http" s); [|now destruct (startsWith "data:image" s)].
    unfold bind, fetch_url, fetch.
    destruct (net w (fetch_count tr') (url_request s)) as [reason|r]; [reflexivity|].
    unfold ret, read_image. now destruct (readable w (resp_blob r)).
Qed.

(** ** The cases of the normalization that hold in general *)

Lemma contains_char_app (c : ascii) (a b : string) :
  contains_char c (a +:+ b) = contains_char c a || contains_char c b.
Proof.
  induction a as [|x a IH]; [reflexivity|].
  simpl. now rewrite IH, orb_assoc.
Qed.

Lemma get_avoids (x : ascii) (s : string) (i : nat) (c : ascii) :
  contains_char x s = false -> String.get i s = Some c -> Ascii.eqb c x = false.
Proof.
  revert i. induction s as [|y s IH]; intros i Hs Hget; [discriminate|].
  cbn [contains_char] in Hs. apply orb_false_iff in Hs as [Hy Hs].
  destruct i as [|i]; simpl in Hget.
  - now injection Hget as <-.
  - now apply (IH i).
Qed.

Lemma b64_char_no_comma (n : N) : Ascii.eqb (b64_char n) "," = false.
Proof.
  unfold b64_char. destruct (String.get (N.to_nat n) b64_alphabet) as [c|] eqn:E.
  - now apply (get_avoids "," b64_alphabet (N.to_nat n) c).
  - reflexivity.
Qed.

(** Base64 text has no comma. *)
Lemma base64_no_comma (bytes : list Byte.byte) :
  contains_char "," (base64 bytes) = false.
Proof.
  assert (H : forall n bytes, (length bytes <= n)%nat ->
                              contains_char "," (base64 bytes) = false).
  { clear bytes. induction n as [|n IH]; intros [|a [|b [|c rest]]] Hlen;
      simpl in Hlen; try lia; try reflexivity;
      cbn [base64 contains_char]; rewrite ?b64_char_no_comma; try reflexivity.
    apply IH. lia. }
  now apply (H (length bytes)).
Qed.

(** What the reader hands back for a blob whose type has no comma: the
    base64 text of its bytes. *)
Lemma second_field_readAsDataURL (b : Blob) :
  contains_char "," (blob_type b) = false ->
  second_field (readAsDataURL b) = JStr (base64 (blob_bytes b)).
Proof.
  intros Htype. unfold readAsDataURL.
  replace ("data:" +:+ blob_type b +:+ ";base64," +:+ base64 (blob_bytes b))
    with (("data:" +:+ blob_type b +:+ ";base64") +:+ "," +:+ base64 (blob_bytes b)).
  - apply second_field_payload; [|apply base64_no_comma].
    rewrite !contains_char_app, Htype. reflexivity.
  - rewrite !str_app_assoc. reflexivity.
Qed.

(** After a successful generic request: an address starting with [http]
    is fetched and the bytes of the answer, when the reader can read
    them, come back in base64; a
    [data:image] URI made of a header, a comma and a payload yields the
    payload; any other non-empty string is passed through; an empty or
    missing value is the extraction error. *)
Lemma generateVisual_normalizes (w : World) (prompt : string) (config : AIModelConfig)
  (tr tr' : Trace) (raw : JsVal) :
  provider config <> "google_native" ->
  executeGenericRequest w config [("prompt", JStr prompt)] tr = (Ok raw, tr') ->
  (forall s r,
     extracted_image config raw = JStr s -> startsWith "http" s = true ->
     net w (fetch_count tr') (url_request s) = Responded r ->
     readable w (resp_blob r) = true ->
     contains_char "," (blob_type (resp_blob r)) = false ->
     generateVisual w prompt config tr
     = (Ok (JStr (base64 (blob_bytes (resp_blob r)))), tr' ++ [Fetched (url_request s)])) /\
  (forall header payload,
     extracted_image config raw = JStr (header +:+ "," +:+ payload) ->
     startsWith "data:image" header = true ->
     contains_char "," header = false -> contains_char "," payload = false ->
     generateVisual w prompt config tr = (Ok (JStr payload), tr')) /\
  (forall s,
     extracted_image config raw = JStr s -> s <> "" ->
     startsWith "http" s = false -> startsWith "data:image" s = false ->
     generateVisual w prompt config tr = (Ok (JStr s), tr')) /\
  (truthy (extracted_image config raw) = false ->
   generateVisual w prompt config tr
   = (Throw (Error ("[" +:+ name config +:+ "] Error: "
                    +:+ "Could not extract image URL from provider response.")), tr')).
Proof.
  intros Hgeneric Hrun.
  rewrite (generateVisual_extracted w prompt config tr tr' raw Hgeneric Hrun).
  split; [|split; [|split]].
  - intros s r -> Hhttp Hnet Hread Htype.
    assert (Hne : String.eqb s "" = false) by (destruct s; [discriminate | reflexivity]).
    rewrite Hne, Hhttp, Hnet, Hread. now rewrite second_field_readAsDataURL.
  - intros header payload -> Hdata Hh Hp.
    assert (Hfull : startsWith "data:image" (header +:+ "," +:+ payload) = true).
    { apply prefix_inv in Hdata. rewrite Hdata, str_app_assoc. apply prefix_app. }
    assert (Hne : String.eqb (header +:+ "," +:+ payload) "" = false).
    { apply prefix_inv in Hfull. rewrite Hfull. reflexivity. }
    rewrite Hne, (data_image_not_http _ Hfull), Hfull.
    now rewrite second_field_payload.
  - intros s -> Hne Hhttp Hdata. apply String.eqb_neq in Hne.
    now rewrite Hne, Hhttp, Hdata.
  - intros Hfalsy.
    destruct (extracted_image config raw) as [ | | b | n | s | items | props ];
      try reflexivity; try discriminate Hfalsy.
    + now rewrite Hfalsy.
    + now rewrite Hfalsy.
    + unfold truthy in Hfalsy. apply negb_false_iff in Hfalsy. now rewrite Hfalsy.
Qed.

(** ** The case that is missed *)

(** C10.  On the generic path, when the extracted image value is a
    non-empty string that starts with [data:image] and contains no comma,
    [generateVisual] resolves to [undefined] and raises nothing; the value
    [data:image/png;base64], served by a provider, is such an input. *)
Theorem generateVisual_resolves_undefined :
  (forall (w : World) prompt config (tr tr' : Trace) raw s,
     provider config <> "google_native" ->
     executeGenericRequest w config [("prompt", JStr prompt)] tr = (Ok raw, tr') ->
     extracted_image config raw = JStr s ->
     s <> "" -> startsWith "data:image" s = true -> contains_char "," s = false ->
     generateVisual w prompt config tr = (Ok JUndefined, tr')) /\
  (exists (w : World) prompt config (tr : Trace),
     provider config <> "google_native" /\
     fst (executeGenericRequest w config [("prompt", JStr prompt)] tr)
     = Ok (image_body "data:image/png;base64") /\
     extracted_image config (image_body "data:image/png;base64")
     = JStr "data:image/png;base64" /\
     fst (generateVisual w prompt config tr) = Ok JUndefined).
Proof.
  assert (Hgeneral : forall (w : World) prompt config (tr tr' : Trace) raw s,
     provider config <> "google_native" ->
     executeGenericRequest w config [("prompt", JStr prompt)] tr = (Ok raw, tr') ->
     extracted_image config raw = JStr s ->
     s <> "" -> startsWith "data:image" s = true -> contains_char "," s = false ->
     generateVisual w prompt config tr = (Ok JUndefined, tr')).
  { intros w prompt config tr tr' raw s Hgeneric Hrun Hx Hne Hdata Hcomma.
    rewrite (generateVisual_extracted w prompt config tr tr' raw Hgeneric Hrun), Hx.
    apply String.eqb_neq in Hne. rewrite Hne.
    rewrite (data_image_not_http s Hdata), Hdata.
    now rewrite second_field_no_comma. }
  split; [exact Hgeneral|].
  exists (image_world "data:image/png;base64"), "a cat", fal_config, [].
  split; [discriminate|]. split; [reflexivity|]. split; [reflexivity|].
  assert (Hgeneric : provider fal_config <> "google_native") by discriminate.
  assert (Hne : "data:image/png;base64" <> "") by discriminate.
  now rewrite (Hgeneral (image_world "data:image/png;base64") "a cat" fal_config [] _
                 (image_body "data:image/png;base64") "data:image/png;base64"
                 Hgeneric eq_refl eq_refl Hne eq_refl eq_refl).
Qed.

Lemma generateVisual_resolves_undefined_witness :
  fst (generateVisual (image_world "data:image/png;base64") "a cat" fal_config [])
  = Ok JUndefined.
Proof.
  assert (Hgeneric : provider fal_config <> "google_native") by discriminate.
  assert (Hne : "data:image/png;base64" <> "") by discriminate.
  now rewrite (proj1 generateVisual_resolves_undefined
                 (image_world "data:image/png;base64") "a cat" fal_config [] _
                 (image_body "data:image/png;base64") "data:image/png;base64"
                 Hgeneric eq_refl eq_refl Hne eq_refl eq_refl).
Defined.

(** C9, evaluated.  On the generic path a [data:image] URI with a comma
    yields the text after the comma, a bare string is passed through, an
    address starting with [http] is fetched and its bytes come back in
    base64, and an empty value is the extraction error; but the value
    [data:image/png;base64], a non-empty string, is turned into [undefined]:
    neither a base64 string nor an error. *)
Theorem generateVisual_normalization_cases :
  fst (generateVisual (image_world "data:image/png;base64,AAAA") "a cat" fal_config [])
  = Ok (JStr "AAAA") /\
  fst (generateVisual (image_world "AAAA") "a cat" fal_config []) = Ok (JStr "AAAA") /\
  fst (generateVisual hosted_image_world "a cat" fal_config []) = Ok (JStr "TWFu") /\
  fst (generateVisual (image_world "") "a cat" fal_config [])
  = Throw (Error "[Flux Pro] Error: Could not extract image URL from provider response.") /\
  generateVisual (image_world "data:image/png;base64") "a cat" fal_config []
  = (Ok JUndefined,
     [Fetched {| req_url := "https://queue.fal.run/fal-ai/flux-pro";
                 req_method := Some "POST";
                 req_headers := [("Authorization", "Key "); ("Content-Type", "application/json")];
                 req_body := Some (JObj [("prompt", JStr "a cat")]) |}]).
Proof. repeat split; vm_compute; reflexivity. Qed.

(** * Further properties of the gateway *)

(** ** The generic request *)

(** X1.  Without a generate endpoint (no [endpoints], or [endpoints]
    without [generate]) [executeGenericRequest] fails with the configuration
    error that names the model, and no request is issued; on the generic
    text path the caller sees this error wrapped with the model name. *)
Theorem executeGenericRequest_no_endpoint (w : World) (config : AIModelConfig)
  (inputs : list (string * JsVal)) (tr : Trace) :
  generate_endpoint config = None ->
  executeGenericRequest w config inputs tr
  = (Throw (Error ("No generation endpoint defined for model " +:+ name config)), tr) /\
  (provider config <> "google_native" ->
   forall prompt systemInstruction,
     generateText w prompt config systemInstruction tr
     = (Throw (Error ("[" +:+ name config +:+ "] Error: "
                      +:+ "No generation endpoint defined for model " +:+ name config)), tr)).
Proof.
  intros Hnone.
  assert (Hrun : forall ins,
             executeGenericRequest w config ins tr
             = (Throw (Error ("No generation endpoint defined for model " +:+ name config)), tr)).
  { intros ins. unfold executeGenericRequest. unfold generate_endpoint in Hnone.
    now rewrite Hnone. }
  split; [apply Hrun|].
  intros Hgeneric prompt systemInstruction. apply not_native in Hgeneric.
  unfold generateText. rewrite Hgeneric. unfold try_catch, bind at 1.
  now rewrite Hrun.
Qed.

Lemma executeGenericRequest_no_endpoint_witness :
  executeGenericRequest hello_world
    {| id := "m"; name := "Bare"; provider := "custom"; family := "text";
       contextWindow := 0; isDefault := None; endpoints := None |}
    [("prompt", JStr "hi")] []
  = (Throw (Error "No generation endpoint defined for model Bare"), []).
Proof.
  apply (proj1 (executeGenericRequest_no_endpoint hello_world
                  {| id := "m"; name := "Bare"; provider := "custom"; family := "text";
                     contextWindow := 0; isDefault := None; endpoints := None |}
                  [("prompt", JStr "hi")] [] eq_refl)).
Defined.

(** The generic request by the answer to its one HTTP request. *)
Lemma executeGenericRequest_unfold (w : World) (config : AIModelConfig)
  (inputs : list (string * JsVal)) (tr : Trace) (endpoint : APIEndpointDefinition) :
  generate_endpoint config = Some endpoint ->
  let req := generate_request w config inputs endpoint in
  executeGenericRequest w config inputs tr =
  match net w (fetch_count tr) req with
  | NetworkError reason => (Throw (TypeError reason), tr ++ [Fetched req])
  | Responded r =>
      if resp_ok r then
        match resp_json r with
        | None => (Throw (SyntaxError "Unexpected token in JSON"), tr ++ [Fetched req])
        | Some data =>
            match (match endpoints config with Some eps => status eps | None => None end) with
            | Some _ =>
                pollForCompletion w data config
                  (or_empty (getItem w ("apikey_" +:+ provider config)))
                  (tr ++ [Fetched req])
            | None => (Ok data, tr ++ [Fetched req])
            end
        end
      else (Throw (Error ("Provider Error (" +:+ string_of_Z (resp_status r)
                          +:+ "): " +:+ resp_text r)), tr ++ [Fetched req])
  end.
Proof.
  intros Hg req. unfold executeGenericRequest. unfold generate_endpoint in Hg.
  rewrite Hg. unfold bind at 1. unfold fetch. fold (request_inputs config inputs).
  change {| req_url := _; req_method := _; req_headers := _; req_body := _ |} with req.
  destruct (net w (fetch_count tr) req) as [reason|r]; [reflexivity|].
  destruct (resp_ok r); [|reflexivity].
  change (negb true) with false. cbv iota.
  unfold bind, json. destruct (resp_json r) as [data|]; [|reflexivity].
  unfold ret at 1.
  now destruct (match endpoints config with Some eps => status eps | None => None end).
Qed.

(** X2.  A non-success answer to the generate request is fatal: the call
    fails with "Provider Error (status): body text" after that single
    request, and nothing is polled, also when the model has a status
    endpoint. *)
Theorem executeGenericRequest_provider_error (w : World) (config : AIModelConfig)
  (inputs : list (string * JsVal)) (tr : Trace) (endpoint : APIEndpointDefinition)
  (r : Response) :
  generate_endpoint config = Some endpoint ->
  net w (fetch_count tr) (generate_request w config inputs endpoint) = Responded r ->
  resp_ok r = false ->
  executeGenericRequest w config inputs tr
  = (Throw (Error ("Provider Error (" +:+ string_of_Z (resp_status r) +:+ "): "
                   +:+ resp_text r)),
     tr ++ [Fetched (generate_request w config inputs endpoint)]).
Proof.
  intros Hg Hnet Hok.
  rewrite (executeGenericRequest_unfold w config inputs tr endpoint Hg).
  cbv zeta. now rewrite Hnet, Hok.
Qed.

Lemma executeGenericRequest_provider_error_witness :
  executeGenericRequest http500_world replicate_config [("prompt", JStr "a cat")] []
  = (Throw (Error "Provider Error (500): Internal Server Error"),
     [Fetched (generate_request http500_world replicate_config [("prompt", JStr "a cat")]
                 replicate_generate)]).
Proof.
  apply (executeGenericRequest_provider_error http500_world replicate_config
           [("prompt", JStr "a cat")] [] replicate_generate
           (text_response 500 "Internal Server Error") eq_refl eq_refl eq_refl).
Defined.

(** X3.  A success answer with a JSON body: a model without status
    endpoint gets the parsed body back unchanged after the single request; a
    model with a status endpoint gets whatever polling on that body gives,
    the polling starting right after the request. *)
Theorem executeGenericRequest_success (w : World) (config : AIModelConfig)
  (inputs : list (string * JsVal)) (tr : Trace) (eps : Endpoints)
  (endpoint : APIEndpointDefinition) (r : Response) (data : JsVal) :
  endpoints config = Some eps -> generate eps = Some endpoint ->
  let req := generate_request w config inputs endpoint in
  net w (fetch_count tr) req = Responded r ->
  resp_ok r = true -> resp_json r = Some data ->
  (status eps = None ->
   executeGenericRequest w config inputs tr = (Ok data, tr ++ [Fetched req])) /\
  (forall statusEndpoint, status eps = Some statusEndpoint ->
   executeGenericRequest w config inputs tr
   = pollForCompletion w data config
       (or_empty (getItem w ("apikey_" +:+ provider config))) (tr ++ [Fetched req])).
Proof.
  intros He Hg req Hnet Hok Hjson.
  assert (Hge : generate_endpoint config = Some endpoint).
  { unfold generate_endpoint. now rewrite He. }
  rewrite (executeGenericRequest_unfold w config inputs tr endpoint Hge).
  cbv zeta. fold req. rewrite Hnet, Hok, Hjson, He. split.
  - intros Hs. now rewrite Hs.
  - intros statusEndpoint Hs. now rewrite Hs.
Qed.

Lemma executeGenericRequest_success_witness :
  executeGenericRequest hello_world openai_config [("prompt", JStr "Say hello")] []
  = (Ok hello_body,
     [Fetched (generate_request hello_world openai_config [("prompt", JStr "Say hello")]
                 openai_generate)]).
Proof.
  apply (proj1 (executeGenericRequest_success hello_world openai_config
                  [("prompt", JStr "Say hello")] []
                  {| generate := Some openai_generate; status := None |} openai_generate
                  (json_response 200 hello_body) hello_body
                  eq_refl eq_refl eq_refl eq_refl eq_refl)).
  reflexivity.
Defined.

(** ** The inputs of the templates *)

Lemma obj_get_set_eq (props : list (string * JsVal)) (key : string) (v : JsVal) :
  obj_get (obj_set props key v) key = v.
Proof.
  induction props as [|[k x] props IH]; simpl.
  - now rewrite String.eqb_refl.
  - destruct (String.eqb k key) eqn:E; simpl; now rewrite E.
Qed.

Lemma obj_get_set_ne (props : list (string * JsVal)) (key other : string) (v : JsVal) :
  other <> key -> obj_get (obj_set props key v) other = obj_get props other.
Proof.
  intros Hne. induction props as [|[k x] props IH]; simpl.
  - apply String.eqb_neq in Hne. rewrite String.eqb_sym in Hne. now rewrite Hne.
  - destruct (String.eqb k key) eqn:E; simpl.
    + apply String.eqb_eq in E. subst k.
      apply String.eqb_neq in Hne. rewrite String.eqb_sym in Hne. now rewrite Hne.
    + destruct (String.eqb k other); [reflexivity | exact IH].
Qed.

(** X4.  The model's own id always reaches the templates: in the inputs
    that [executeGenericRequest] builds, the placeholder [{{id}}] expands
    to [config.id] whatever the caller passed (also an [id] of its own),
    and every other placeholder expands as it does on the caller's inputs. *)
Theorem request_inputs_id (config : AIModelConfig) (inputs : list (string * JsVal)) :
  constructPayload (JStr "{{id}}") (request_inputs config inputs) = JStr (id config) /\
  (forall name, name <> "id" ->
     constructPayload (JStr ("{{" +:+ name +:+ "}}")) (request_inputs config inputs)
     = constructPayload (JStr ("{{" +:+ name +:+ "}}")) inputs).
Proof.
  split.
  - change "{{id}}" with ("{{" +:+ "id" +:+ "}}"). cbn [constructPayload].
    rewrite (proj2 (placeholder_form _)) by eauto.
    rewrite slice_placeholder. unfold request_inputs. now rewrite obj_get_set_eq.
  - intros name Hne. cbn [constructPayload].
    rewrite (proj2 (placeholder_form _)) by eauto.
    rewrite slice_placeholder. unfold request_inputs.
    now rewrite obj_get_set_ne.
Qed.

Lemma request_inputs_id_witness :
  constructPayload (JStr "{{prompt}}")
    (request_inputs replicate_config [("prompt", JStr "a cat"); ("id", JStr "mine")])
  = constructPayload (JStr "{{prompt}}") [("prompt", JStr "a cat"); ("id", JStr "mine")].
Proof.
  apply (proj2 (request_inputs_id replicate_config
                  [("prompt", JStr "a cat"); ("id", JStr "mine")]) "prompt").
  discriminate.
Defined.

(** ** The address of the generate request *)

Lemma prefix_braces_other (c : ascii) (r : string) :
  Ascii.eqb c "{" = false -> String.prefix "{{" (String c r) = false.
Proof.
  intros Hc. cbn [String.prefix].
  destruct (Ascii.ascii_dec "{" c) as [<-|]; [discriminate|reflexivity].
Qed.

(** Text without an opening brace has no token. *)
Lemma replace_tokens_plain (f : string -> string) (s : string) :
  contains_char "{" s = false -> replace_tokens f O s = s.
Proof.
  induction s as [|c r IH]; [reflexivity|].
  cbn [contains_char]. intros H. apply orb_false_iff in H as [Hc Hr].
  cbn [replace_tokens]. unfold match_token.
  rewrite (prefix_braces_other c r Hc). now rewrite (IH Hr).
Qed.

Lemma replace_tokens_skip (f : string -> string) (a b : string) :
  replace_tokens f (String.length a) (a +:+ b) = replace_tokens f O b.
Proof.
  induction a as [|c a IH]; [reflexivity|]. simpl. exact IH.
Qed.

Lemma take_word_name (name rest : string) :
  reIsPlainProp name = true -> take_word (name +:+ "}" +:+ rest) = name.
Proof.
  induction name as [|c name IH]; intros H; [now destruct rest|].
  cbn [reIsPlainProp] in H. apply andb_true_iff in H as [Hc Hn].
  change (String c name +:+ "}" +:+ rest) with (String c (name +:+ "}" +:+ rest)).
  cbn [take_word]. now rewrite Hc, (IH Hn).
Qed.

Lemma match_token_here (name post : string) :
  reIsPlainProp name = true -> name <> "" ->
  match_token ("{{" +:+ name +:+ "}}" +:+ post) = Some name.
Proof.
  intros Hw Hne. unfold match_token.
  rewrite (prefix_app "{{"). rewrite (str_drop_app "{{").
  change (name +:+ "}}" +:+ post) with (name +:+ "}" +:+ ("}" +:+ post)).
  rewrite (take_word_name name _ Hw).
  apply String.eqb_neq in Hne. rewrite Hne.
  replace (2 + String.length name)%nat with (String.length ("{{" +:+ name))
    by (rewrite str_length_app; reflexivity).
  rewrite <- (str_app_assoc "{{" name). rewrite str_drop_app.
  change ("}" +:+ "}" +:+ post) with ("}}" +:+ post).
  now rewrite (prefix_app "}}").
Qed.

(** The first token of a template: the text before it is kept, the token
    is replaced by what the replacer returns, and the scan goes on behind
    the token. *)
Lemma replace_tokens_first (f : string -> string) (pre name post : string) :
  contains_char "{" pre = false -> reIsPlainProp name = true -> name <> "" ->
  replace_tokens f O (pre +:+ "{{" +:+ name +:+ "}}" +:+ post)
  = pre +:+ f name +:+ replace_tokens f O post.
Proof.
  intros Hpre Hw Hne. induction pre as [|c pre IH].
  - change ("" +:+ "{{" +:+ name +:+ "}}" +:+ post) with ("{{" +:+ name +:+ "}}" +:+ post).
    remember ("{{" +:+ name +:+ "}}" +:+ post) as s eqn:Hs.
    assert (Hm : match_token s = Some name) by (subst s; now apply match_token_here).
    assert (Hshape : s = String "{" (("{" +:+ name +:+ "}}") +:+ post)).
    { subst s. simpl. now rewrite !str_app_assoc. }
    rewrite Hshape in Hm |- *. cbn [replace_tokens]. rewrite Hm.
    replace (String.length name + 3)%nat with (String.length ("{" +:+ name +:+ "}}")).
    + now rewrite replace_tokens_skip.
    + simpl. rewrite str_length_app. simpl. lia.
  - cbn [contains_char] in Hpre. apply orb_false_iff in Hpre as [Hc Hpre].
    change (String c pre +:+ "{{" +:+ name +:+ "}}" +:+ post)
      with (String c (pre +:+ "{{" +:+ name +:+ "}}" +:+ post)).
    cbn [replace_tokens]. unfold match_token.
    rewrite (prefix_braces_other c _ Hc). now rewrite (IH Hpre).
Qed.

(** X5.  The address template, when none of its tokens has the name of a
    member that objects inherit ([{{valueOf}}], [{{constructor}}], ...) and
    the inputs are strings, booleans, [null] or exact integers: the text up
    to the first [{{name}}] token is kept, the token is resolved, and the
    rest is resolved in the same way (untouched when it has no brace).  A
    token resolves to the input of that name when there is one, so [{{id}}]
    is always the model id; [{{key}}], when no input is called [key],
    resolves to the stored credential if it is not empty; every other token,
    and [{{key}}] without a credential, stays in the address as written. *)
Theorem generate_request_url (w : World) (config : AIModelConfig)
  (inputs : list (string * JsVal)) (endpoint : APIEndpointDefinition)
  (pre name post : string) :
  url endpoint = pre +:+ "{{" +:+ name +:+ "}}" +:+ post ->
  contains_char "{" pre = false -> reIsPlainProp name = true -> name <> "" ->
  plain_tokens (url endpoint) = true ->
  forallb (fun kv => printable (snd kv)) inputs = true ->
  let stored := getItem w ("apikey_" +:+ provider config) in
  let resolve := url_token (request_inputs config inputs) stored in
  req_url (generate_request w config inputs endpoint)
  = pre +:+ resolve name +:+ replace_tokens resolve O post /\
  (contains_char "{" post = false -> replace_tokens resolve O post = post) /\
  resolve "id" = id config /\
  (forall v, obj_get inputs name = v -> v <> JUndefined -> name <> "id" ->
             resolve name = js_toString v) /\
  (forall k, obj_get inputs "key" = JUndefined -> stored = Some k -> k <> "" ->
             resolve "key" = k) /\
  (obj_get inputs name = JUndefined -> name <> "id" ->
   name <> "key" \/ stored = None \/ stored = Some "" ->
   resolve name = "{{" +:+ name +:+ "}}").
Proof.
  intros Hurl Hpre Hw Hne _ _ stored resolve.
  assert (Hkey : obj_get (request_inputs config inputs) "key" = obj_get inputs "key").
  { unfold request_inputs. now apply obj_get_set_ne. }
  split; [|split; [|split; [|split; [|split]]]].
  - unfold generate_request. cbn [req_url]. rewrite Hurl.
    now apply replace_tokens_first.
  - apply replace_tokens_plain.
  - unfold resolve, url_token, request_inputs. now rewrite obj_get_set_eq.
  - intros v Hv Hdef Hid. unfold resolve, url_token, request_inputs.
    rewrite obj_get_set_ne by assumption. rewrite Hv.
    destruct v; try reflexivity. congruence.
  - intros k Hundef Hs Hk. unfold resolve, url_token. rewrite Hkey, Hundef, Hs.
    apply String.eqb_neq in Hk. simpl. now rewrite Hk.
  - intros Hundef Hid Hcases. unfold resolve, url_token, request_inputs.
    rewrite obj_get_set_ne by assumption. rewrite Hundef. cbn [is_undefined negb].
    destruct Hcases as [Hk | [Hs | Hs]].
    + apply String.eqb_neq in Hk. now rewrite Hk.
    + rewrite Hs. simpl. now rewrite andb_false_r.
    + rewrite Hs. simpl. now rewrite andb_false_r.
Qed.

Lemma generate_request_url_witness :
  req_url (generate_request keyed_world replicate_config [("prompt", JStr "a cat")]
             {| url := "https://host/run?token={{key}}&v=1"; method := "POST";
                headers := None; paramMapping := JNull; outputMapping := None |})
  = "https://host/run?token=" +:+ "r8_secret" +:+ "&v=1".
Proof.
  assert ("key" <> "") as Hname by discriminate.
  destruct (generate_request_url keyed_world replicate_config [("prompt", JStr "a cat")]
              {| url := "https://host/run?token={{key}}&v=1"; method := "POST";
                 headers := None; paramMapping := JNull; outputMapping := None |}
              "https://host/run?token=" "key" "&v=1" eq_refl eq_refl eq_refl
              Hname eq_refl eq_refl)
    as (Hurl & Hpost & _ & _ & Hkey & _).
  rewrite Hurl, Hpost by reflexivity.
  rewrite (Hkey "r8_secret"); [reflexivity | reflexivity | reflexivity | discriminate].
Defined.

(** ** More on polling *)

(** X6.  When the initial response has no truthy task id at the
    configured path ([generate.outputMapping.id], "id" by default),
    [pollForCompletion] fails with the extraction error at once: no wait, no
    status request, whatever the status endpoint is. *)
Theorem pollForCompletion_no_task_id (w : World) (initialResponse : JsVal)
  (config : AIModelConfig) (apiKey : string) (tr : Trace) (eps : Endpoints)
  (g : APIEndpointDefinition) :
  endpoints config = Some eps -> generate eps = Some g ->
  truthy (resolvePath initialResponse (mapping_or (outputMapping g) "id" "id")) = false ->
  pollForCompletion w initialResponse config apiKey tr
  = (Throw (Error "Could not extract Task ID from initial response for polling."), tr).
Proof.
  intros He Hg Hfalsy. unfold pollForCompletion. rewrite He, Hg.
  unfold bind at 1. unfold ret at 1. now rewrite Hfalsy.
Qed.

Lemma pollForCompletion_no_task_id_witness :
  pollForCompletion unavailable_world (JObj [("id", JStr "")]) replicate_config "" []
  = (Throw (Error "Could not extract Task ID from initial response for polling."), []).
Proof.
  apply (pollForCompletion_no_task_id unavailable_world (JObj [("id", JStr "")])
           replicate_config "" []
           {| generate := Some replicate_generate; status := Some replicate_status |}
           replicate_generate eq_refl eq_refl eq_refl).
Defined.

Section PollRuns.

Variable statusEndpoint : APIEndpointDefinition.
Variable statusUrl : string.
Variable hdrs : list (string * string).

Abbreviation sreq := (status_request statusEndpoint statusUrl hdrs).

Lemma attempts_trace_app (n m : nat) (r : Request) :
  attempts_trace (n + m) r = attempts_trace n r ++ attempts_trace m r.
Proof. induction n as [|n IH]; [reflexivity|]. simpl. now rewrite IH. Qed.

Lemma fetch_count_attempts (tr : Trace) (n : nat) (r : Request) :
  fetch_count (tr ++ attempts_trace n r) = (fetch_count tr + n)%nat.
Proof.
  unfold fetch_count. rewrite List.filter_app, length_app. f_equal.
  induction n as [|n IH]; [reflexivity|]. simpl. now rewrite IH.
Qed.

(** [n] attempts without a verdict use up [n] turns of the loop. *)
Lemma pollLoop_after_pending (w : World) (n k : nat) (tr : Trace) :
  (forall i, (i < n)%nat ->
             still_pending statusEndpoint (net w (fetch_count tr + i) sreq)) ->
  pollLoop w (n + k) statusEndpoint statusUrl hdrs tr
  = pollLoop w k statusEndpoint statusUrl hdrs (tr ++ attempts_trace n sreq).
Proof.
  revert tr. induction n as [|n IH]; intros tr Hall.
  - simpl. now rewrite app_nil_r.
  - change (S n + k)%nat with (S (n + k)). rewrite pollLoop_pending.
    + rewrite IH.
      * now rewrite attempts_trace_snoc.
      * intros i Hi. rewrite fetch_count_attempt.
        replace (S (fetch_count tr) + i)%nat with (fetch_count tr + S i)%nat by lia.
        apply Hall. lia.
    + specialize (Hall O). rewrite Nat.add_0_r in Hall. apply Hall. lia.
Qed.

(** The loop looks at the answers to its own requests only. *)
Lemma pollLoop_local (w1 w2 : World) (k : nat) (tr : Trace) :
  (forall i, (i < k)%nat ->
             net w1 (fetch_count tr + i) sreq = net w2 (fetch_count tr + i) sreq) ->
  pollLoop w1 k statusEndpoint statusUrl hdrs tr
  = pollLoop w2 k statusEndpoint statusUrl hdrs tr.
Proof.
  revert tr. induction k as [|k IH]; intros tr Hsame; [reflexivity|].
  rewrite !pollLoop_unfold.
  assert (H0 := Hsame O). rewrite Nat.add_0_r in H0. rewrite <- H0 by lia.
  assert (Hnext : pollLoop w1 k statusEndpoint statusUrl hdrs
                    (tr ++ [Waited POLLING_INTERVAL; Fetched sreq])
                  = pollLoop w2 k statusEndpoint statusUrl hdrs
                      (tr ++ [Waited POLLING_INTERVAL; Fetched sreq])).
  { apply IH. intros i Hi. rewrite fetch_count_attempt.
    replace (S (fetch_count tr) + i)%nat with (fetch_count tr + S i)%nat by lia.
    apply Hsame. lia. }
  destruct (net w1 (fetch_count tr) sreq) as [reason|r]; [reflexivity|].
  destruct (negb (resp_ok r)); [exact Hnext|].
  destruct (resp_json r) as [data|]; [|reflexivity].
  destruct (status_of statusEndpoint data); try reflexivity; try exact Hnext.
  destruct (existsb _ _); [reflexivity|].
  destruct (existsb _ _); [reflexivity | exact Hnext].
Qed.

End PollRuns.

(** X7.  The first verdict decides: after [n] attempts without a verdict
    ([n] below 60), a response whose status is, in lower case, one of
    succeeded, completed, done, success makes the call return that body, and
    one whose status is failed or error makes it fail with the status as
    received; in both cases exactly [n + 1] attempts were made, each after a
    wait of 2000 ms. *)
Theorem poll_first_verdict (w : World) (config : AIModelConfig) (initialResponse : JsVal)
  (apiKey : string) (statusEndpoint : APIEndpointDefinition) (taskId : JsVal)
  (tr : Trace) (n : nat) (r : Response) (data : JsVal) (s : string) :
  can_poll config initialResponse statusEndpoint taskId ->
  let req := poll_request statusEndpoint taskId apiKey in
  (n < MAX_ATTEMPTS)%nat ->
  (forall i, (i < n)%nat ->
             still_pending statusEndpoint (net w (fetch_count tr + i) req)) ->
  net w (fetch_count tr + n) req = Responded r ->
  resp_ok r = true -> resp_json r = Some data ->
  status_of statusEndpoint data = JStr s ->
  (In (toLowerCase s) success_statuses ->
   pollForCompletion w initialResponse config apiKey tr
   = (Ok data, tr ++ attempts_trace (S n) req)) /\
  (In (toLowerCase s) failure_statuses ->
   pollForCompletion w initialResponse config apiKey tr
   = (Throw (Error ("Generation failed with status: " +:+ s)),
      tr ++ attempts_trace (S n) req)).
Proof.
  intros Hcan req Hn Hpending Hnet Hok Hjson Hs.
  rewrite (pollForCompletion_loop _ _ _ _ _ _ _ Hcan). fold req.
  replace MAX_ATTEMPTS with (n + S (MAX_ATTEMPTS - S n))%nat by lia.
  rewrite (pollLoop_after_pending _ _ _ w n _ tr Hpending).
  replace (S n) with (n + 1)%nat by lia. rewrite attempts_trace_app, app_assoc.
  split; intros Hin.
  - apply (pollLoop_success w _ _ _ _ _ r data s); try assumption.
    now rewrite fetch_count_attempts.
  - apply (pollLoop_failure w _ _ _ _ _ r data s); try assumption.
    now rewrite fetch_count_attempts.
Qed.

Lemma poll_first_verdict_witness :
  pollForCompletion pending_pending_succeeded_world task_response replicate_config "" []
  = (Ok (status_body "succeeded"),
     attempts_trace 3 (poll_request replicate_status (JStr "task-1") "")).
Proof.
  apply (proj1 (poll_first_verdict pending_pending_succeeded_world replicate_config
                  task_response "" replicate_status (JStr "task-1") [] 2
                  (json_response 200 (status_body "succeeded")) (status_body "succeeded")
                  "succeeded" replicate_can_poll ltac:(unfold MAX_ATTEMPTS; lia)
                  ltac:(intros i Hi;
                        exists (json_response 200 (status_body "pending"));
                        split; [destruct i as [|[|i]]; [reflexivity | reflexivity | lia]|];
                        right; exists (status_body "pending");
                        repeat split; right; exists "pending";
                        split; [reflexivity|]; split; simpl; intuition discriminate)
                  eq_refl eq_refl eq_refl eq_refl)).
  simpl. auto.
Defined.

(** X8.  Only a non-success HTTP status is tolerated while polling.  After
    [n] attempts without a verdict, a status request that the network
    rejects, a success response whose body is not JSON, and a status value
    that is neither a string nor absent (a number, a boolean, an array, an
    object) each end the call with that error in that attempt; the loop does
    not go on to the next attempt. *)
Theorem poll_aborts (w : World) (config : AIModelConfig) (initialResponse : JsVal)
  (apiKey : string) (statusEndpoint : APIEndpointDefinition) (taskId : JsVal)
  (tr : Trace) (n : nat) :
  can_poll config initialResponse statusEndpoint taskId ->
  let req := poll_request statusEndpoint taskId apiKey in
  (n < MAX_ATTEMPTS)%nat ->
  (forall i, (i < n)%nat ->
             still_pending statusEndpoint (net w (fetch_count tr + i) req)) ->
  (forall reason, net w (fetch_count tr + n) req = NetworkError reason ->
     pollForCompletion w initialResponse config apiKey tr
     = (Throw (TypeError reason), tr ++ attempts_trace (S n) req)) /\
  (forall r, net w (fetch_count tr + n) req = Responded r ->
     resp_ok r = true -> resp_json r = None ->
     pollForCompletion w initialResponse config apiKey tr
     = (Throw (SyntaxError "Unexpected token in JSON"), tr ++ attempts_trace (S n) req)) /\
  (forall r data, net w (fetch_count tr + n) req = Responded r ->
     resp_ok r = true -> resp_json r = Some data ->
     is_nullish (status_of statusEndpoint data) = false ->
     (forall s, status_of statusEndpoint data <> JStr s) ->
     pollForCompletion w initialResponse config apiKey tr
     = (Throw (TypeError "statusValue?.toLowerCase is not a function"),
        tr ++ attempts_trace (S n) req)).
Proof.
  intros Hcan req. subst req. unfold poll_request. intros Hn Hpending.
  rewrite (pollForCompletion_loop _ _ _ _ _ _ _ Hcan).
  replace MAX_ATTEMPTS with (n + S (MAX_ATTEMPTS - S n))%nat by lia.
  rewrite (pollLoop_after_pending _ _ _ w n _ tr Hpending).
  replace (S n) with (n + 1)%nat by lia. rewrite attempts_trace_app, app_assoc.
  rewrite pollLoop_unfold, fetch_count_attempts.
  split; [|split].
  - intros reason Hnet. now rewrite Hnet.
  - intros r Hnet Hok Hjson. now rewrite Hnet, Hok, Hjson.
  - intros r data Hnet Hok Hjson Hnn Hns. rewrite Hnet, Hok, Hjson.
    change (negb true) with false. cbv iota.
    destruct (status_of statusEndpoint data) as [ | | b | z | s | items | props ];
      try discriminate Hnn; try reflexivity.
    now destruct (Hns s).
Qed.

Lemma poll_aborts_witness :
  pollForCompletion status_offline_world task_response replicate_config ""
    [Fetched (url_request "")]
  = (Throw (TypeError "Failed to fetch"),
     [Fetched (url_request "")]
     ++ attempts_trace 1 (poll_request replicate_status (JStr "task-1") "")).
Proof.
  apply (proj1 (poll_aborts status_offline_world replicate_config task_response ""
                  replicate_status (JStr "task-1") [Fetched (url_request "")] 0
                  replicate_can_poll ltac:(unfold MAX_ATTEMPTS; lia)
                  ltac:(intros i Hi; lia))
           "Failed to fetch").
  reflexivity.
Defined.

(** X9.  Polling never looks beyond its budget: two worlds that answer
    the first 60 status requests of the run alike give the same result and
    the same trace, whatever a later request would be answered. *)
Theorem poll_ignores_later_answers (w1 w2 : World) (config : AIModelConfig)
  (initialResponse : JsVal) (apiKey : string) (statusEndpoint : APIEndpointDefinition)
  (taskId : JsVal) (tr : Trace) :
  can_poll config initialResponse statusEndpoint taskId ->
  let req := poll_request statusEndpoint taskId apiKey in
  (forall i, (i < MAX_ATTEMPTS)%nat ->
             net w1 (fetch_count tr + i) req = net w2 (fetch_count tr + i) req) ->
  pollForCompletion w1 initialResponse config apiKey tr
  = pollForCompletion w2 initialResponse config apiKey tr.
Proof.
  intros Hcan req Hsame.
  rewrite !(pollForCompletion_loop _ _ _ _ _ _ _ Hcan).
  now apply pollLoop_local.
Qed.

Lemma poll_ignores_later_answers_witness :
  pollForCompletion late_success_world task_response replicate_config "" []
  = pollForCompletion unavailable_world task_response replicate_config "" [].
Proof.
  apply (poll_ignores_later_answers late_success_world unavailable_world replicate_config
           task_response "" replicate_status (JStr "task-1") [] replicate_can_poll).
  intros i Hi. unfold MAX_ATTEMPTS in Hi. apply Nat.ltb_lt in Hi.
  simpl. now rewrite Hi.
Defined.

(** ** The wrapping of errors *)

(** X11.  On the generic path of [generateVisual] the errors raised inside
    the [try] block reach the caller as an [Error] whose message starts with
    the model name in brackets: an error of the generate request, a missing
    image value, a fetch of the picture that the network rejects.  In
    particular an extracted image value that is truthy but not a string
    (the whole output array instead of its first element, say) is not
    normalized: the call fails with the wrapped message
    "imageUrl.startsWith is not a function".  The promise of the reader is
    returned without being awaited: when the picture was fetched and the
    reader cannot read it, the caller gets the [error] event of the reader
    as it is, not an [Error] and not wrapped.  These are all the errors of
    this path. *)
Theorem generateVisual_errors (w : World) (prompt : string) (config : AIModelConfig)
  (tr : Trace) :
  provider config <> "google_native" ->
  (forall e tr', generateVisual w prompt config tr = (Throw e, tr') ->
     (exists m, e = Error ("[" +:+ name config +:+ "] Error: " +:+ m)) \/
     e = ProgressEvent "error") /\
  (forall e tr',
     executeGenericRequest w config [("prompt", JStr prompt)] tr = (Throw e, tr') ->
     generateVisual w prompt config tr
     = (Throw (Error ("[" +:+ name config +:+ "] Error: " +:+ message e)), tr')) /\
  (forall raw tr',
     executeGenericRequest w config [("prompt", JStr prompt)] tr = (Ok raw, tr') ->
     truthy (extracted_image config raw) = true ->
     (forall s, extracted_image config raw <> JStr s) ->
     generateVisual w prompt config tr
     = (Throw (Error ("[" +:+ name config +:+ "] Error: "
                      +:+ "imageUrl.startsWith is not a function")), tr')) /\
  (forall raw tr' s,
     executeGenericRequest w config [("prompt", JStr prompt)] tr = (Ok raw, tr') ->
     extracted_image config raw = JStr s -> startsWith "http" s = true ->
     (forall reason,
        net w (fetch_count tr') (url_request s) = NetworkError reason ->
        generateVisual w prompt config tr
        = (Throw (Error ("[" +:+ name config +:+ "] Error: " +:+ reason)),
           tr' ++ [Fetched (url_request s)])) /\
     (forall r,
        net w (fetch_count tr') (url_request s) = Responded r ->
        readable w (resp_blob r) = false ->
        generateVisual w prompt config tr
        = (Throw (ProgressEvent "error"), tr' ++ [Fetched (url_request s)]))).
Proof.
  intros Hgeneric. split; [|split; [|split]].
  - intros e tr'. pose proof Hgeneric as Hnative. apply not_native in Hnative.
    unfold generateVisual. rewrite Hnative. unfold bind at 1. unfold try_catch at 1.
    destruct (bind _ _ tr) as [[[v|blob]|e0] tr0].
    + discriminate.
    + unfold read_image. destruct (readable w blob); [discriminate|].
      unfold throw. intros [= <- _]. now right.
    + unfold throw, wrap_error. intros [= <- _]. left. eauto.
  - intros e tr' Hrun. apply not_native in Hgeneric.
    unfold generateVisual. rewrite Hgeneric.
    unfold bind at 1. unfold try_catch, bind at 1. now rewrite Hrun.
  - intros raw tr' Hrun Htruthy Hns.
    rewrite (generateVisual_extracted w prompt config tr tr' raw Hgeneric Hrun).
    destruct (extracted_image config raw) as [ | | b | z | s | items | props ];
      try discriminate Htruthy; try reflexivity.
    + now rewrite Htruthy.
    + now rewrite Htruthy.
    + now destruct (Hns s).
  - intros raw tr' s Hrun Hs Hhttp.
    rewrite (generateVisual_extracted w prompt config tr tr' raw Hgeneric Hrun), Hs, Hhttp.
    assert (Hne : String.eqb s "" = false) by (destruct s; [discriminate | reflexivity]).
    rewrite Hne. split.
    + intros reason ->. reflexivity.
    + intros r -> ->. reflexivity.
Qed.

Lemma generateVisual_errors_witness :
  generateVisual output_array_world "a cat" fal_config []
  = (Throw (Error "[Flux Pro] Error: imageUrl.startsWith is not a function"),
     [Fetched (generate_request output_array_world fal_config [("prompt", JStr "a cat")]
                 fal_generate)]) /\
  fst (generateVisual unreadable_image_world "a cat" fal_config [])
  = Throw (ProgressEvent "error").
Proof.
  assert (Hgeneric : provider fal_config <> "google_native") by discriminate.
  split.
  - apply (proj1 (proj2 (proj2
             (generateVisual_errors output_array_world "a cat" fal_config [] Hgeneric)))
             (JObj [("images", JArr [JObj [("url", JArr [JStr "https://x/y.png"])]])])).
    + reflexivity.
    + reflexivity.
    + intros s. discriminate.
  - destruct (proj2 (proj2 (proj2
               (generateVisual_errors unreadable_image_world "a cat" fal_config [] Hgeneric)))
               (image_body "https://x/y.png") _ "https://x/y.png" eq_refl eq_refl eq_refl)
      as [_ Hreader].
    now rewrite (Hreader _ eq_refl eq_refl).
Defined.

(** ** The remote list when it is there *)

Lemma filter_all {A : Type} (P : A -> Prop) `{forall x, Decision (P x)} (l : list A) :
  (forall x, x ∈ l -> P x) -> filter P l = l.
Proof.
  induction l as [|x l IH]; intros Hall; [reflexivity|].
  rewrite filter_cons_True by (apply Hall; left).
  f_equal. apply IH. intros y Hy. apply Hall. now right.
Qed.

(** X12.  A success response whose [models] field is an array is taken
    as it comes, without any check of its entries: [fetchRemoteDefinitions]
    resolves to exactly that array after its single request.  An empty
    array is a remote list like any other, so the fallback models are not
    used and [fetchModels] publishes just the custom models (with distinct
    ids). *)
Theorem fetchRemoteDefinitions_remote (w : World) (tr : Trace) (r : Response)
  (data : JsVal) (items : list JsVal) :
  net w (fetch_count tr) (url_request MODELS_URL) = Responded r ->
  resp_ok r = true -> resp_json r = Some data -> member data "models" = JArr items ->
  fetchRemoteDefinitions w tr = (Ok items, tr ++ [Fetched (url_request MODELS_URL)]) /\
  (items = [] ->
   forall st, NoDup (entry_id <$> customModels st) ->
     fetchModels w st tr
     = (Ok {| availableModels := customModels st; customModels := customModels st |},
        tr ++ [Fetched (url_request MODELS_URL)])).
Proof.
  intros Hnet Hok Hjson Hmodels.
  assert (Hrun : fetchRemoteDefinitions w tr
                 = (Ok items, tr ++ [Fetched (url_request MODELS_URL)])).
  { unfold fetchRemoteDefinitions, try_catch, bind, fetch_url, fetch.
    rewrite Hnet, Hok. change (negb true) with false. cbv iota.
    unfold json. rewrite Hjson. unfold ret at 1. unfold lift, get_member.
    destruct (is_nullish data) eqn:Hn.
    - destruct data; discriminate.
    - now rewrite Hmodels. }
  split; [exact Hrun|].
  intros -> st Hnd. unfold fetchModels, bind. rewrite Hrun. unfold ret.
  rewrite (mergeModels_closed_form entry_id (customModels st) []);
    [|constructor | exact Hnd].
  unfold merged_by_spec. simpl.
  rewrite filter_all; [reflexivity|]. intros x _. apply not_elem_of_nil.
Qed.

Lemma fetchRemoteDefinitions_remote_witness :
  fetchModels empty_list_world (store_with [model_m3]) []
  = (Ok {| availableModels := [model_m3]; customModels := [model_m3] |},
     [Fetched (url_request MODELS_URL)]).
Proof.
  apply (proj2 (fetchRemoteDefinitions_remote empty_list_world []
                  (json_response 200 (JObj [("models", JArr [])]))
                  (JObj [("models", JArr [])]) [] eq_refl eq_refl eq_refl eq_refl)
           eq_refl (store_with [model_m3])).
  apply (bool_decide_unpack _). vm_compute. exact I.
Defined.

(** ** The output extractor *)

Lemma word_char_not_sep (c : ascii) : is_word_char c = true -> is_path_sep c = false.
Proof.
  destruct c as [[] [] [] [] [] [] [] []]; intros H; try reflexivity; discriminate H.
Qed.

Lemma stringToPath_from_word (cur k rest : string) :
  reIsPlainProp k = true ->
  stringToPath_from cur (k +:+ rest) = stringToPath_from (cur +:+ k) rest.
Proof.
  revert cur. induction k as [|c k IH]; intros cur H.
  - now rewrite str_app_nil_r.
  - cbn [reIsPlainProp] in H. apply andb_true_iff in H as [Hc Hk].
    change (String c k +:+ rest) with (String c (k +:+ rest)).
    cbn [stringToPath_from]. rewrite (word_char_not_sep c Hc).
    rewrite (IH _ Hk). rewrite str_app_assoc. reflexivity.
Qed.

Lemma stringToPath_word (k : string) :
  reIsPlainProp k = true -> k <> "" -> stringToPath_from "" k = [k].
Proof.
  intros Hk Hne. rewrite <- (str_app_nil_r k) at 1.
  rewrite (stringToPath_from_word "" k "" Hk). simpl. unfold flush.
  apply String.eqb_neq in Hne. now rewrite Hne.
Qed.

(** A key, a separator, a key and possibly a closing bracket: two segments. *)
Lemma stringToPath_two (k1 k2 : string) (sep : ascii) (closing : string) :
  reIsPlainProp k1 = true -> k1 <> "" -> reIsPlainProp k2 = true -> k2 <> "" ->
  is_path_sep sep = true -> (closing = "" \/ closing = "]") ->
  stringToPath (k1 +:+ String sep (k2 +:+ closing)) = [k1; k2].
Proof.
  intros H1 N1 H2 N2 Hsep Hclose. unfold stringToPath.
  rewrite (stringToPath_from_word "" k1 _ H1). simpl "+:+".
  cbn [stringToPath_from]. rewrite Hsep. unfold flush at 1.
  apply String.eqb_neq in N1. rewrite N1.
  rewrite (stringToPath_from_word "" k2 _ H2). simpl "+:+".
  apply String.eqb_neq in N2.
  destruct Hclose as [-> | ->]; simpl; unfold flush; now rewrite N2.
Qed.

Lemma reIsPlainProp_sep (a b : string) (sep : ascii) :
  is_path_sep sep = true -> reIsPlainProp (a +:+ String sep b) = false.
Proof.
  intros Hsep. induction a as [|c a IH].
  - simpl. destruct (is_word_char sep) eqn:E; [|reflexivity].
    apply word_char_not_sep in E. congruence.
  - change (String c a +:+ String sep b) with (String c (a +:+ String sep b)).
    cbn [reIsPlainProp]. rewrite IH. apply andb_false_r.
Qed.

Lemma reIsDeepProp_from_word (opened : bool) (k rest : string) :
  reIsPlainProp k = true ->
  reIsDeepProp_from opened (k +:+ rest) = reIsDeepProp_from opened rest.
Proof.
  induction k as [|c k IH]; intros H; [reflexivity|].
  cbn [reIsPlainProp] in H. apply andb_true_iff in H as [Hc Hk].
  change (String c k +:+ rest) with (String c (k +:+ rest)).
  cbn [reIsDeepProp_from]. apply word_char_not_sep in Hc.
  unfold is_path_sep in Hc. apply orb_false_iff in Hc as [Hc H3].
  apply orb_false_iff in Hc as [H1 H2]. rewrite H1, H2, H3. now apply IH.
Qed.

(** For a plain key the extractor is the property read. *)
Lemma resolvePath_key (obj : JsVal) (k : string) :
  reIsPlainProp k = true -> resolvePath obj k = member obj k.
Proof.
  intros Hk. unfold resolvePath, get, baseGet, castPath, isKey. rewrite Hk.
  simpl. destruct (is_nullish obj) eqn:Hn; [|reflexivity].
  now destruct obj.
Qed.

(** X13.  How paths compose, on the reads that [plain_read] delimits: the
    properties that a plain object owns or does not inherit, the length and
    the elements of an array, the length and the characters of an ASCII
    string.  A plain key reads the property of that name.  A dotted path
    [k1.k2] and an indexed path [k1[k2]] read [k2] from what [k1] gives, and
    give [undefined] when [k1] is missing, unless the object has a property
    whose name is the whole path: such a property is read directly and the
    path is not split. *)
Theorem resolvePath_composes (obj : JsVal) (k1 k2 : string) :
  reIsPlainProp k1 = true -> k1 <> "" -> reIsPlainProp k2 = true -> k2 <> "" ->
  plain_read obj k1 = true ->
  resolvePath obj k1 = member obj k1 /\
  (has_member obj (k1 +:+ "." +:+ k2) = false ->
   is_nullish (member obj k1) = true \/ plain_read (member obj k1) k2 = true ->
   resolvePath obj (k1 +:+ "." +:+ k2) = resolvePath (resolvePath obj k1) k2) /\
  (has_member obj (k1 +:+ "[" +:+ k2 +:+ "]") = false ->
   is_nullish (member obj k1) = true \/ plain_read (member obj k1) k2 = true ->
   resolvePath obj (k1 +:+ "[" +:+ k2 +:+ "]") = resolvePath (resolvePath obj k1) k2) /\
  (is_nullish (member obj k1) = true -> has_member obj (k1 +:+ "." +:+ k2) = false ->
   resolvePath obj (k1 +:+ "." +:+ k2) = JUndefined) /\
  (forall path, has_member obj path = true -> resolvePath obj path = member obj path).
Proof.
  intros H1 N1 H2 N2 _.
  assert (Htwo : forall (sep : ascii) (closing : string),
             is_path_sep sep = true -> (closing = "" \/ closing = "]") ->
             reIsDeepProp (k1 +:+ String sep (k2 +:+ closing)) = true ->
             has_member obj (k1 +:+ String sep (k2 +:+ closing)) = false ->
             resolvePath obj (k1 +:+ String sep (k2 +:+ closing))
             = member (member obj k1) k2).
  { intros sep closing Hsep Hclose Hdeep Hown.
    unfold resolvePath, get, baseGet, castPath, isKey.
    rewrite (reIsPlainProp_sep k1 _ sep Hsep), Hdeep, Hown, andb_false_r.
    cbn [orb negb]. cbv iota.
    rewrite (stringToPath_two k1 k2 sep closing H1 N1 H2 N2 Hsep Hclose).
    cbn [baseGet_walk].
    destruct (is_nullish obj) eqn:Hn; [now destruct obj|].
    destruct (is_nullish (member obj k1)) eqn:Hm; [|reflexivity].
    now destruct (member obj k1). }
  assert (Hdot : has_member obj (k1 +:+ "." +:+ k2) = false ->
                 resolvePath obj (k1 +:+ "." +:+ k2) = member (member obj k1) k2).
  { intros Hown.
    replace (k1 +:+ "." +:+ k2) with (k1 +:+ String "." (k2 +:+ "")) in *
      by (now rewrite str_app_nil_r).
    apply Htwo; try assumption; [reflexivity | now left |].
    unfold reIsDeepProp. now rewrite (reIsDeepProp_from_word false k1 _ H1). }
  split; [now apply resolvePath_key|]. split; [|split; [|split]].
  - intros Hown _. rewrite (resolvePath_key obj k1 H1), (resolvePath_key _ k2 H2).
    now apply Hdot.
  - intros Hown _. rewrite (resolvePath_key obj k1 H1), (resolvePath_key _ k2 H2).
    change (k1 +:+ "[" +:+ k2 +:+ "]") with (k1 +:+ String "[" (k2 +:+ "]")) in *.
    apply Htwo; try assumption; [reflexivity | now right |].
    unfold reIsDeepProp. rewrite (reIsDeepProp_from_word false k1 _ H1).
    cbn [reIsDeepProp_from]. simpl Ascii.eqb. cbv iota.
    rewrite (reIsDeepProp_from_word true k2 _ H2). reflexivity.
  - intros Hnull Hown. rewrite (Hdot Hown). now destruct (member obj k1).
  - intros path Hown. unfold resolvePath, get, baseGet, castPath, isKey.
    assert (Hn : is_nullish obj = false) by (now destruct obj).
    rewrite Hn, Hown. cbn [negb andb]. rewrite !orb_true_r.
    cbn [baseGet_walk]. now rewrite Hn.
Qed.

Lemma resolvePath_composes_witness :
  resolvePath (JObj [("output", JArr [JStr "first"; JStr "second"])]) ("output" +:+ "[" +:+ "1" +:+ "]")
  = resolvePath (resolvePath (JObj [("output", JArr [JStr "first"; JStr "second"])]) "output") "1".
Proof.
  apply (proj1 (proj2 (proj2 (resolvePath_composes
                  (JObj [("output", JArr [JStr "first"; JStr "second"])]) "output" "1"
                  eq_refl ltac:(discriminate) eq_refl ltac:(discriminate) eq_refl)))).
  - reflexivity.
  - right. reflexivity.
Defined.

(** ** Templates whose placeholders stay *)

(** X14.  When no placeholder of a template names a defined input, the
    payload constructor returns the template as it is: unresolved
    placeholders are not removed, blanked or reported, they are sent as
    written.  This is for templates whose objects have distinct property
    names, none of them [__proto__], and whose placeholders do not have the
    name of a member that the inputs inherit, such as [{{constructor}}]. *)
Theorem constructPayload_unresolved (inputs : list (string * JsVal)) (T : JsVal) :
  wf_val T = true -> no_proto_key T = true -> own_names T = true ->
  unresolved inputs T = true -> constructPayload T inputs = T.
Proof.
  induction T as [ | | b | n | s | items IH | props IH ] using JsVal_ind';
    intros Hwf Hnp Hown Hun; try reflexivity.
  - cbn [unresolved] in Hun. cbn [constructPayload].
    destruct (startsWith "{{" s && endsWith "}}" s); [|reflexivity].
    now rewrite Hun.
  - cbn [wf_val no_proto_key own_names unresolved] in Hwf, Hnp, Hown, Hun.
    cbn [constructPayload]. f_equal.
    induction IH as [|x xs Hx _ IHxs]; [reflexivity|].
    cbn [forallb] in Hwf, Hnp, Hown, Hun. apply andb_true_iff in Hwf as [Hw1 Hw2].
    apply andb_true_iff in Hnp as [Hn1 Hn2].
    apply andb_true_iff in Hown as [Ho1 Ho2].
    apply andb_true_iff in Hun as [Hu1 Hu2].
    simpl. f_equal; [now apply Hx | now apply IHxs].
  - pose proof (no_proto_key_keys props Hnp) as Hkeys.
    cbn [wf_val no_proto_key own_names unresolved] in Hwf, Hnp, Hown, Hun.
    apply andb_true_iff in Hwf as [Hnd Hwf].
    apply bool_decide_eq_true in Hnd.
    rewrite constructPayload_object by exact Hnd.
    rewrite filter_no_proto by exact Hkeys. f_equal. clear Hnd Hkeys.
    induction IH as [|[k x] xs Hx _ IHxs]; [reflexivity|].
    cbn [forallb] in Hwf, Hnp, Hown, Hun. simpl in Hx.
    apply andb_true_iff in Hwf as [Hw1 Hw2].
    apply andb_true_iff in Hnp as [[_ Hn1]%andb_true_iff Hn2].
    apply andb_true_iff in Hown as [Ho1 Ho2].
    apply andb_true_iff in Hun as [Hu1 Hu2].
    simpl. f_equal; [now rewrite Hx | now apply IHxs].
Qed.

Lemma constructPayload_unresolved_witness :
  constructPayload (JObj [("seed", JStr "{{seed}}"); ("steps", JArr [JStr "{{steps}}"; JNum 4])])
    [("prompt", JStr "a cat"); ("id", JStr "flux")]
  = JObj [("seed", JStr "{{seed}}"); ("steps", JArr [JStr "{{steps}}"; JNum 4])].
Proof.
  apply constructPayload_unresolved; vm_compute; reflexivity.
Defined.

(** * Properties of the model actions of the store *)

Lemma filter_snoc_out {A : Type} (P : A -> Prop) `{forall x, Decision (P x)}
  (l : list A) (x : A) :
  ~ P x -> filter P (filter P l ++ [x]) = filter P l.
Proof.
  intros Hx. rewrite filter_app, list_filter_filter.
  rewrite (filter_cons_False P x []) by assumption.
  rewrite app_nil_r. apply list_filter_iff. tauto.
Qed.

Lemma filter_none {A : Type} (P : A -> Prop) `{forall x, Decision (P x)} (l : list A) :
  (forall x, x ∈ l -> ~ P x) -> filter P l = [].
Proof.
  induction l as [|x l IH]; intros Hall; [reflexivity|].
  rewrite filter_cons_False by (apply Hall; left).
  apply IH. intros y Hy. apply Hall. now right.
Qed.

Lemma NoDup_ids_filter (P : JsVal -> Prop) `{forall x, Decision (P x)} (l : list JsVal) :
  NoDup (entry_id <$> l) -> NoDup (entry_id <$> filter P l).
Proof.
  induction l as [|x l IH]; intros Hnd; [constructor|].
  rewrite fmap_cons in Hnd. apply NoDup_cons in Hnd as [Hx Hl].
  rewrite filter_cons. destruct (decide (P x)); [|now apply IH].
  rewrite fmap_cons. apply NoDup_cons. split; [|now apply IH].
  intros (y & Hy & Hin)%list_elem_of_fmap. apply Hx. rewrite Hy.
  apply list_elem_of_fmap_2. now apply list_elem_of_filter in Hin as [_ Hin].
Qed.

Lemma NoDup_ids_replaced (model : JsVal) (l : list JsVal) :
  NoDup (entry_id <$> l) ->
  NoDup (entry_id <$> (filter (fun m => entry_id m <> entry_id model) l ++ [model])).
Proof.
  intros Hnd. rewrite fmap_app. apply NoDup_app. split; [|split].
  - now apply NoDup_ids_filter.
  - intros x (y & Hy & Hin)%list_elem_of_fmap Hx.
    apply list_elem_of_filter in Hin as [Hne _].
    simpl in Hx. apply list_elem_of_singleton in Hx. congruence.
  - simpl. apply NoDup_singleton.
Qed.

(** X15.  On a state whose lists hold model definitions (values other than
    [null] and [undefined], with an id that is not an object), and for such
    a model: after [addCustomModel] the custom list ends with the new model
    and holds no other entry of its id, the other custom models keep their
    order, distinct ids stay distinct, and adding the same model again
    changes nothing (list, published list and what is stored). *)
Theorem addCustomModel_customs (model : JsVal) (st : ModelState) :
  let customs := customModels (models st) in
  let customs' := customModels (models (addCustomModel model st)) in
  model_entry model = true ->
  forallb model_entry customs = true ->
  forallb model_entry (availableModels (models st)) = true ->
  last customs' = Some model /\
  filter (fun m => entry_id m = entry_id model) customs' = [model] /\
  filter (fun m => entry_id m <> entry_id model) customs'
  = filter (fun m => entry_id m <> entry_id model) customs /\
  (NoDup (entry_id <$> customs) -> NoDup (entry_id <$> customs')) /\
  addCustomModel model (addCustomModel model st) = addCustomModel model st.
Proof.
  intros customs customs' _ _ _. unfold customs', addCustomModel. cbn [models customModels].
  fold customs. split; [|split; [|split; [|split]]].
  - apply last_snoc.
  - rewrite filter_app. rewrite (filter_cons_True _ model []) by reflexivity.
    rewrite list_filter_filter.
    rewrite filter_none; [reflexivity|]. intros x _. tauto.
  - apply filter_snoc_out. tauto.
  - apply NoDup_ids_replaced.
  - cbn [availableModels apiKeys storage].
    rewrite !filter_snoc_out by tauto.
    now rewrite insert_insert_eq.
Qed.

Lemma addCustomModel_customs_witness :
  NoDup (entry_id <$> customModels (models (addCustomModel model_m2_override
           {| models := store_with [model_m1; model_m2]; apiKeys := []; storage := ∅ |}))).
Proof.
  apply (proj1 (proj2 (proj2 (proj2 (addCustomModel_customs model_m2_override
           {| models := store_with [model_m1; model_m2]; apiKeys := []; storage := ∅ |}
           eq_refl eq_refl eq_refl))))).
  apply (bool_decide_unpack _). vm_compute. exact I.
Defined.

(** The custom entry that stands for [r] is not affected by replacing the
    custom entries of another id. *)
Lemma overridden_replaced_other (model r : JsVal) (customs : list JsVal) :
  entry_id r <> entry_id model ->
  overridden entry_id (filter (fun m => entry_id m <> entry_id model) customs ++ [model]) r
  = overridden entry_id customs r.
Proof.
  intros Hr. induction customs as [|c customs IH].
  - simpl. rewrite overridden_cons_ne by congruence. reflexivity.
  - rewrite filter_cons. destruct (decide (entry_id c <> entry_id model)) as [Hc|Hc].
    + simpl. destruct (decide (entry_id c = entry_id r)) as [E|E].
      * now rewrite !overridden_cons_eq.
      * rewrite !overridden_cons_ne by assumption. exact IH.
    + rewrite IH. symmetry. apply overridden_cons_ne.
      intros E. apply Hc. intros E'. apply Hr. congruence.
Qed.

Lemma overridden_replaced_self (model r : JsVal) (customs : list JsVal) :
  entry_id r = entry_id model ->
  overridden entry_id (filter (fun m => entry_id m <> entry_id model) customs ++ [model]) r
  = model.
Proof.
  intros Hr. induction customs as [|c customs IH].
  - simpl. now apply overridden_cons_eq.
  - rewrite filter_cons. destruct (decide (entry_id c <> entry_id model)) as [Hc|Hc].
    + simpl. rewrite overridden_cons_ne by congruence. exact IH.
    + exact IH.
Qed.

Lemma filter_comm {A : Type} (P Q : A -> Prop) `{forall x, Decision (P x)}
  `{forall x, Decision (Q x)} (l : list A) :
  filter P (filter Q l) = filter Q (filter P l).
Proof. rewrite !list_filter_filter. apply list_filter_iff. tauto. Qed.

(** X16.  [addCustomModel] and [fetchModels] merge differently.  Let the
    published list be the merge of a remote list with the custom list (all
    entries model definitions, as the new model is: values other than
    [null] and [undefined], with an id that is not an object; ids distinct
    in each list).  Adding a model whose id is new leaves the published
    list equal to the merge with the new custom list.  Adding a model that
    overrides a remote entry puts it at the end of the published list,
    whereas the merge of [fetchModels] has it at the position of the remote
    entry: the two lists have the same entries in a different order. *)
Theorem addCustomModel_versus_merge (model : JsVal) (st : ModelState) (remote : list JsVal) :
  let customs := customModels (models st) in
  let published' := availableModels (models (addCustomModel model st)) in
  let merged' :=
    mergeModels entry_id remote (customModels (models (addCustomModel model st))) in
  model_entry model = true ->
  forallb model_entry remote = true -> forallb model_entry customs = true ->
  NoDup (entry_id <$> remote) -> NoDup (entry_id <$> customs) ->
  availableModels (models st) = mergeModels entry_id remote customs ->
  (entry_id model ∉ entry_id <$> remote -> published' = merged') /\
  (forall i r, remote !! i = Some r -> entry_id r = entry_id model ->
     merged' !! i = Some model /\
     last published' = Some model /\
     published' ≡ₚ merged').
Proof.
  intros customs published' merged' _ _ _ Hr Hc Hpub.
  set (mid := entry_id model).
  set (keep := fun m : JsVal => entry_id m <> mid).
  set (fresh := fun c : JsVal => entry_id c ∉ entry_id <$> remote).
  assert (Hp : published'
               = filter keep ((overridden entry_id customs <$> remote) ++ filter fresh customs)
                 ++ [model]).
  { unfold published', addCustomModel. cbn [models availableModels]. rewrite Hpub.
    now rewrite (mergeModels_closed_form entry_id customs remote Hr Hc). }
  assert (Hm : merged'
               = (overridden entry_id (filter keep customs ++ [model]) <$> remote)
                 ++ filter fresh (filter keep customs ++ [model])).
  { unfold merged', addCustomModel. cbn [models customModels]. fold customs.
    rewrite (mergeModels_closed_form entry_id _ remote Hr (NoDup_ids_replaced model customs Hc)).
    reflexivity. }
  split.
  - intros Hnew. rewrite Hp, Hm.
    rewrite filter_app. rewrite (filter_all keep (_ <$> remote)).
    2:{ intros x (r & -> & Hin)%list_elem_of_fmap. unfold keep.
        rewrite overridden_id. intros E. apply Hnew. rewrite <- E.
        now apply list_elem_of_fmap_2. }
    rewrite filter_app, (filter_cons_True fresh model []) by exact Hnew.
    rewrite <- app_assoc. f_equal.
    + apply list_fmap_ext. intros i r Hi. symmetry.
      apply overridden_replaced_other. intros E. apply Hnew. unfold mid in *. rewrite <- E.
      apply list_elem_of_fmap_2. apply list_elem_of_lookup. eauto.
    + f_equal. apply filter_comm.
  - intros i r Hi Hid.
    pose proof (take_drop_middle _ _ _ Hi) as Hsplit.
    assert (Hlen : length (take i remote) = i).
    { apply length_take_le. apply lookup_lt_Some in Hi. lia. }
    set (l1 := take i remote) in *. set (l2 := drop (S i) remote) in *.
    clearbody l1 l2. subst remote.
    rewrite fmap_app, fmap_cons in Hr.
    apply NoDup_app in Hr as (_ & Hdisj & Hr2). apply NoDup_cons in Hr2 as [H2 _].
    assert (H1 : mid ∉ entry_id <$> l1).
    { intros Hin. apply (Hdisj _ Hin). unfold mid in *. rewrite <- Hid. left. }
    rewrite Hid in H2. fold mid in H2.
    assert (Hov : forall l : list JsVal, mid ∉ entry_id <$> l ->
                   overridden entry_id (filter keep customs ++ [model]) <$> l
                   = overridden entry_id customs <$> l).
    { intros l Hl. apply list_fmap_ext. intros j x Hj.
      apply overridden_replaced_other. intros E. apply Hl. unfold mid in *. rewrite <- E.
      apply list_elem_of_fmap_2. apply list_elem_of_lookup. eauto. }
    assert (Hkeep : forall l : list JsVal, mid ∉ entry_id <$> l ->
                     filter keep (overridden entry_id customs <$> l)
                     = overridden entry_id customs <$> l).
    { intros l Hl. apply filter_all.
      intros x (y & -> & Hin)%list_elem_of_fmap. unfold keep.
      rewrite overridden_id. intros E. apply Hl. rewrite <- E.
      now apply list_elem_of_fmap_2. }
    assert (Hnotfresh : ~ fresh model).
    { unfold fresh. intros Hf. apply Hf. rewrite fmap_app, fmap_cons, Hid.
      apply elem_of_app. right. left. }
    assert (Hm' : merged'
                  = (overridden entry_id customs <$> l1) ++
                    model :: (overridden entry_id customs <$> l2)
                    ++ filter fresh (filter keep customs)).
    { rewrite Hm, !fmap_app, !fmap_cons, (Hov l1 H1), (Hov l2 H2).
      unfold keep, mid. rewrite (overridden_replaced_self model r customs Hid).
      rewrite filter_app, (filter_cons_False fresh model []) by exact Hnotfresh.
      rewrite app_nil_r, <- app_assoc. reflexivity. }
    assert (Hp' : published'
                  = (overridden entry_id customs <$> l1) ++
                    (overridden entry_id customs <$> l2)
                    ++ filter fresh (filter keep customs) ++ [model]).
    { rewrite Hp, !fmap_app, !fmap_cons, !filter_app, (Hkeep l1 H1).
      rewrite filter_cons_False.
      2:{ unfold keep. rewrite overridden_id. tauto. }
      rewrite (Hkeep l2 H2), (filter_comm keep fresh).
      now rewrite <- !app_assoc. }
    split; [|split].
    + rewrite Hm'. rewrite <- Hlen at 1.
      rewrite <- (length_fmap (overridden entry_id customs) l1).
      apply list_lookup_middle. reflexivity.
    + unfold published', addCustomModel. cbn [models availableModels]. apply last_snoc.
    + rewrite Hp', Hm'. apply Permutation_app_head.
      rewrite app_assoc. rewrite <- Permutation_cons_append. reflexivity.
Qed.

Lemma addCustomModel_versus_merge_witness :
  availableModels (models (addCustomModel model_m3
      {| models := {| availableModels := [model_m1; model_m2]; customModels := [] |};
         apiKeys := []; storage := ∅ |}))
  = mergeModels entry_id [model_m1; model_m2]
      (customModels (models (addCustomModel model_m3
         {| models := {| availableModels := [model_m1; model_m2]; customModels := [] |};
            apiKeys := []; storage := ∅ |}))).
Proof.
  apply (proj1 (addCustomModel_versus_merge model_m3
                  {| models := {| availableModels := [model_m1; model_m2]; customModels := [] |};
                     apiKeys := []; storage := ∅ |}
                  [model_m1; model_m2] eq_refl eq_refl eq_refl
                  ltac:(apply (bool_decide_unpack _); vm_compute; exact I)
                  ltac:(constructor) eq_refl)).
  apply (bool_decide_unpack _). vm_compute. exact I.
Defined.

(** X17.  On a state whose lists hold model definitions (values other than
    [null] and [undefined], with an id that is not an object) and for an id
    that is not an object: [removeCustomModel] drops every entry of the
    given id from the custom list and from the published list, a remote
    default of that id included; removing a model right after adding it
    gives back the custom list as it was, when no custom model had that id;
    and the [fetchModels] that the action starts brings a remote entry of
    that id back at its position in the remote list, when the remote list
    holds model definitions. *)
Theorem removeCustomModel_then_fetch (w : World) (id : JsVal) (st : ModelState) :
  let st' := removeCustomModel id st in
  primitive id = true ->
  forallb model_entry (customModels (models st)) = true ->
  forallb model_entry (availableModels (models st)) = true ->
  (forall m, m ∈ customModels (models st') -> entry_id m <> id) /\
  (forall m, m ∈ availableModels (models st') -> entry_id m <> id) /\
  (forall model, model_entry model = true -> entry_id model = id ->
     id ∉ entry_id <$> customModels (models st) ->
     customModels (models (removeCustomModel id (addCustomModel model st)))
     = customModels (models st)) /\
  (forall (tr tr' : Trace) remote i r,
     fetchRemoteDefinitions w tr = (Ok remote, tr') ->
     forallb model_entry remote = true ->
     remote !! i = Some r -> entry_id r = id ->
     exists merged,
       fetchModels w (models st') tr
       = (Ok {| availableModels := merged; customModels := customModels (models st') |}, tr')
       /\ merged !! i = Some r).
Proof.
  intros st' _ _ _. unfold st', removeCustomModel. cbn [models customModels availableModels].
  split; [|split; [|split]].
  - intros m Hin. now apply list_elem_of_filter in Hin as [Hne _].
  - intros m Hin. now apply list_elem_of_filter in Hin as [Hne _].
  - intros model _ <- Hnew. unfold addCustomModel. cbn [models customModels].
    rewrite filter_snoc_out by tauto.
    apply filter_all. intros x Hx E. apply Hnew. rewrite <- E.
    now apply list_elem_of_fmap_2.
  - intros tr tr' remote i r Hfetch _ Hi Hid.
    eexists. split.
    + unfold fetchModels, bind. rewrite Hfetch. reflexivity.
    + cbn [customModels]. apply mergeModels_keeps; [exact Hi|].
      intros c Hin. apply list_elem_of_filter in Hin as [Hne _]. congruence.
Qed.

Lemma removeCustomModel_then_fetch_witness :
  exists merged,
    fetchModels two_models_world
      (models (removeCustomModel (JStr "m2")
                 {| models := {| availableModels := [model_m1; model_m2_override];
                                 customModels := [model_m2_override] |};
                    apiKeys := []; storage := ∅ |})) []
    = (Ok {| availableModels := merged; customModels := [] |},
       [Fetched (url_request MODELS_URL)])
    /\ merged !! 1%nat = Some model_m2.
Proof.
  apply (proj2 (proj2 (proj2 (removeCustomModel_then_fetch two_models_world (JStr "m2")
           {| models := {| availableModels := [model_m1; model_m2_override];
                           customModels := [model_m2_override] |};
              apiKeys := []; storage := ∅ |} eq_refl eq_refl eq_refl)))
           [] _ [model_m1; model_m2] 1%nat model_m2 eq_refl eq_refl eq_refl eq_refl).
Defined.

Lemma apikey_name_inj (a b : string) : "apikey_" +:+ a = "apikey_" +:+ b -> a = b.
Proof. simpl. now intros [= ->]. Qed.

(** X18.  A key saved with [updateApiKey] is the key the gateway reads.
    For a generic provider it is stored under [apikey_<provider>]: the next
    generate request of a model of that provider resolves its headers with
    it, and the keys of the other providers and the native key are left
    as they were.  For [google_native] it is stored under [gemini_api_key]
    and no [apikey_] entry changes.  The stored custom models are not
    touched, and the model actions do not touch any key. *)
Theorem updateApiKey_read_back (w : World) (prov key : string) (st : ModelState) :
  let w' := with_storage w (updateApiKey prov key st) in
  (prov <> "google_native" ->
   getStoredKey w' prov = key /\
   getItem w' "gemini_api_key" = storage st !! "gemini_api_key" /\
   (forall config inputs endpoint,
      provider config = prov ->
      req_headers (generate_request w' config inputs endpoint)
      = resolveHeaders (headers endpoint) key)) /\
  (prov = "google_native" ->
   getItem w' "gemini_api_key" = Some key /\
   forall p, getItem w' ("apikey_" +:+ p) = storage st !! ("apikey_" +:+ p)) /\
  (forall other, other <> prov ->
     getItem w' ("apikey_" +:+ other) = storage st !! ("apikey_" +:+ other)) /\
  getItem w' "custom_models" = storage st !! "custom_models" /\
  (forall model name,
     name = "gemini_api_key" \/ (exists p, name = "apikey_" +:+ p) ->
     storage (addCustomModel model st) !! name = storage st !! name /\
     storage (removeCustomModel model st) !! name = storage st !! name).
Proof.
  intros w'. unfold w', with_storage, getStoredKey, getItem, updateApiKey.
  cbn [localStorage storage].
  split; [|split; [|split; [|split]]].
  - intros Hne. apply String.eqb_neq in Hne. rewrite Hne.
    split; [|split].
    + now rewrite lookup_insert_eq.
    + now rewrite lookup_insert_ne by discriminate.
    + intros config inputs endpoint Hp. unfold generate_request, getItem.
      cbn [localStorage req_headers]. rewrite Hp. now rewrite lookup_insert_eq.
  - intros ->. change (String.eqb "google_native" "google_native") with true. cbv iota.
    split; [now rewrite lookup_insert_eq|].
    intros p. now rewrite lookup_insert_ne by discriminate.
  - intros other Hne. destruct (String.eqb prov "google_native").
    + now rewrite lookup_insert_ne by discriminate.
    + rewrite lookup_insert_ne; [reflexivity|].
      intros E. apply apikey_name_inj in E. congruence.
  - destruct (String.eqb prov "google_native");
      now rewrite lookup_insert_ne by discriminate.
  - intros model name Hname. unfold addCustomModel, removeCustomModel. cbn [storage].
    destruct Hname as [-> | [p ->]]; split;
      now rewrite lookup_insert_ne by discriminate.
Qed.

Lemma updateApiKey_read_back_witness :
  getStoredKey
    (with_storage hello_world
       (updateApiKey "replicate" "r8_new"
          {| models := store_with []; apiKeys := []; storage := ∅ |}))
    "replicate"
  = "r8_new".
Proof.
  apply (proj1 (updateApiKey_read_back hello_world "replicate" "r8_new"
                  {| models := store_with []; apiKeys := []; storage := ∅ |})).
  discriminate.
Defined.

(** * Properties of the scene actions of the store *)

Lemma json_copy_id (v : JsVal) : json_value v = true -> json_copy v = v.
Proof.
  induction v as [ | | b | n | s | items IH | props IH ] using JsVal_ind';
    try reflexivity; try discriminate.
  - cbn [json_value json_copy]. intros H. f_equal.
    induction IH as [|x xs Hx _ IHxs]; [reflexivity|].
    cbn [forallb] in H. apply andb_true_iff in H as [H1 H2].
    cbn [map]. now rewrite Hx, IHxs.
  - cbn [json_value json_copy]. intros H. f_equal.
    induction IH as [|[k x] xs Hx _ IHxs]; [reflexivity|].
    cbn [forallb] in H. apply andb_true_iff in H as [H1 H2].
    cbn [flat_map]. cbn [snd] in Hx. rewrite IHxs by exact H2.
    destruct x; try discriminate; cbn [is_undefined]; now rewrite ?Hx.
Qed.

Lemma deep_copy_id (l : list Scene) : forallb json_scene l = true -> deep_copy l = l.
Proof.
  induction l as [|s l IH]; [reflexivity|].
  cbn [forallb]. intros [H1 H2]%andb_true_iff.
  unfold deep_copy. cbn [map]. fold (deep_copy l). rewrite IH by exact H2.
  unfold copy_scene. unfold json_scene in H1. now rewrite (json_copy_id (JObj s) H1).
Qed.

Lemma perform_item_id (itemId : string) (item : StoryItem) (action : SceneAction) :
  item_id (perform itemId item action) = item_id item.
Proof.
  destruct action; cbn [perform];
    [ unfold addScene | unfold deleteScene | unfold reorderScenes
    | unfold revertSceneHistory | unfold revertToInitial
    | unfold undoSceneAction | unfold redoSceneAction ];
    destruct (negb (String.eqb (item_id item) itemId)); try reflexivity;
    repeat match goal with
           | |- context [match ?x with _ => _ end] => destruct x
           end; reflexivity.
Qed.

Lemma find_existsb {A : Type} (f : A -> bool) (l : list A) :
  existsb f l = true -> exists x, List.find f l = Some x.
Proof.
  induction l as [|a l IH]; [discriminate|]. cbn [existsb List.find].
  destruct (f a); [eauto|]. exact IH.
Qed.

Lemma last_nonempty {A : Type} (l : list A) : l <> [] -> exists x, last l = Some x.
Proof.
  destruct l as [|a l] using rev_ind; [congruence|]. intros _. rewrite last_snoc. eauto.
Qed.

(** Every action that records the scenes pushes one entry on the history,
    cut at 30, and drops the redo stack. *)
Lemma records_shape (item : StoryItem) (action : SceneAction) :
  records item action = true ->
  exists entry,
    snapshot entry = deep_copy (scenes item) /\
    sceneHistory (perform (item_id item) item action)
    = Some (entry :: take 29 (or_nil (sceneHistory item))) /\
    sceneRedoStack (perform (item_id item) item action) = None.
Proof.
  destruct action; cbn [records perform]; intros Hrec; try discriminate.
  - unfold addScene. rewrite String.eqb_refl. cbn [negb sceneHistory sceneRedoStack].
    unfold addHistoryEntry. eexists. split; [|split; reflexivity]. reflexivity.
  - unfold deleteScene. rewrite String.eqb_refl. cbn [negb sceneHistory sceneRedoStack].
    unfold addHistoryEntry. eexists. split; [|split; reflexivity]. reflexivity.
  - unfold reorderScenes. rewrite String.eqb_refl. cbn [negb sceneHistory sceneRedoStack].
    unfold addHistoryEntry. eexists. split; [|split; reflexivity]. reflexivity.
  - unfold revertSceneHistory. rewrite String.eqb_refl. cbn [negb].
    destruct (find_existsb _ _ Hrec) as [h ->]. cbn [sceneHistory sceneRedoStack].
    unfold addHistoryEntry. eexists. split; [|split; reflexivity]. reflexivity.
  - unfold revertToInitial. rewrite String.eqb_refl. cbn [negb].
    apply negb_true_iff, bool_decide_eq_false in Hrec.
    destruct (last_nonempty _ Hrec) as [h ->]. cbn [sceneHistory sceneRedoStack].
    unfold addHistoryEntry. eexists. split; [|split; reflexivity]. reflexivity.
Qed.

Lemma perform_stacked (itemId : string) (item : StoryItem) (action : SceneAction) :
  (stacked item <= 30)%nat -> (stacked (perform itemId item action) <= 30)%nat.
Proof.
  intros Hb.
  destruct (String.eqb (item_id item) itemId) eqn:E.
  - apply String.eqb_eq in E. subst itemId.
    destruct (records item action) eqn:Hrec.
    + destruct (records_shape item action Hrec) as (entry & _ & Hh & Hr).
      unfold stacked. rewrite Hh, Hr. cbn [or_nil length].
      rewrite length_take. lia.
    + destruct action; cbn [records] in Hrec; try discriminate; cbn [perform].
      * unfold revertSceneHistory. rewrite String.eqb_refl. cbn [negb].
        destruct (List.find _ _) as [h|] eqn:F; [|exact Hb].
        apply List.find_some in F as [Hin Hid].
        assert (existsb (fun h => String.eqb (history_id h) historyId)
                  (or_nil (sceneHistory item)) = true) as Hex.
        { apply existsb_exists. eauto. }
        congruence.
      * unfold revertToInitial. rewrite String.eqb_refl. cbn [negb].
        apply negb_false_iff, bool_decide_eq_true in Hrec. rewrite Hrec.
        exact Hb.
      * unfold undoSceneAction. rewrite String.eqb_refl. cbn [negb].
        unfold stacked in *. destruct (or_nil (sceneHistory item)) as [|e h] eqn:Eh;
          [now rewrite Eh|].
        cbn [sceneHistory sceneRedoStack or_nil length] in *. lia.
      * unfold redoSceneAction. rewrite String.eqb_refl. cbn [negb].
        unfold stacked in *. destruct (or_nil (sceneRedoStack item)) as [|e h] eqn:Eh;
          [now rewrite Eh|].
        cbn [sceneHistory sceneRedoStack or_nil length] in *. lia.
  - destruct action; cbn [perform];
      [ unfold addScene | unfold deleteScene | unfold reorderScenes
      | unfold revertSceneHistory | unfold revertToInitial
      | unfold undoSceneAction | unfold redoSceneAction ];
      rewrite E; exact Hb.
Qed.

(** X19.  The history of an item never holds more than 30 entries: when
    the history and the redo stack of an item hold 30 entries or fewer
    together, they still do after any run of scene actions.  An action that
    records the scenes leaves between 1 and 30 entries in the history and
    no redo stack, whatever the item was; [redoSceneAction] itself applies
    no cap and makes the history one entry longer. *)
Theorem scene_history_bounded (itemId : string) (item : StoryItem) :
  (forall actions, (stacked item <= 30)%nat ->
     let item' := fold_left (perform itemId) actions item in
     (stacked item' <= 30)%nat /\ (length (or_nil (sceneHistory item')) <= 30)%nat) /\
  (forall action, item_id item = itemId -> records item action = true ->
     let item' := perform itemId item action in
     sceneRedoStack item' = None /\
     (0 < length (or_nil (sceneHistory item')) <= 30)%nat) /\
  (forall uid now entry rest, item_id item = itemId ->
     sceneRedoStack item = Some (entry :: rest) ->
     length (or_nil (sceneHistory (redoSceneAction itemId uid now item)))
     = S (length (or_nil (sceneHistory item)))).
Proof.
  split; [|split].
  - intros actions Hb item'.
    assert (stacked item' <= 30)%nat as H.
    { unfold item'. clear item'. revert item Hb.
      induction actions as [|a actions IH]; intros item Hb; [exact Hb|].
      cbn [fold_left]. apply IH. now apply perform_stacked. }
    split; [exact H|]. unfold stacked in H. lia.
  - intros action <- Hrec item'. unfold item'.
    destruct (records_shape item action Hrec) as (entry & _ & Hh & Hr).
    rewrite Hh, Hr. split; [reflexivity|].
    cbn [or_nil length]. rewrite length_take. lia.
  - intros uid now entry rest <- Hredo. unfold redoSceneAction.
    rewrite String.eqb_refl. cbn [negb]. rewrite Hredo. reflexivity.
Qed.

Lemma scene_history_bounded_witness :
  (stacked (fold_left (perform "ep1") working_session episode_one) <= 30)%nat /\
  (length (or_nil (sceneHistory (fold_left (perform "ep1") working_session episode_one)))
   <= 30)%nat.
Proof.
  apply (proj1 (scene_history_bounded "ep1" episode_one) working_session).
  unfold stacked. simpl. lia.
Defined.

(** X20.  Undoing right after an action that records the scenes gives back
    the scenes as they were before it, as the deep copy has them: the very
    same scenes when none of them holds [undefined].  The history is then
    the one before the action, cut at 29 entries, and the redo stack holds
    one entry with the scenes that the action had made. *)
Theorem undo_after_action (itemId : string) (item : StoryItem) (action : SceneAction)
  (uid : string) (now : Z) :
  item_id item = itemId ->
  records item action = true ->
  let changed := perform itemId item action in
  let undone := undoSceneAction itemId uid now changed in
  scenes undone = deep_copy (scenes item) /\
  (forallb json_scene (scenes item) = true -> scenes undone = scenes item) /\
  sceneHistory undone = Some (take 29 (or_nil (sceneHistory item))) /\
  (exists redoEntry,
     sceneRedoStack undone = Some [redoEntry] /\ snapshot redoEntry = scenes changed).
Proof.
  intros <- Hrec changed undone.
  destruct (records_shape item action Hrec) as (entry & Hsnap & Hh & Hr).
  subst undone changed. unfold undoSceneAction.
  rewrite perform_item_id, String.eqb_refl. cbn [negb].
  rewrite Hh. cbn [or_nil]. rewrite Hr.
  cbn [scenes sceneHistory sceneRedoStack or_nil].
  split; [exact Hsnap|]. split; [|split; [reflexivity|]].
  - intros Hjson. rewrite Hsnap. now apply deep_copy_id.
  - eexists. split; reflexivity.
Qed.

Lemma undo_after_action_witness :
  scenes (undoSceneAction "ep1" "h4" 4
            (perform "ep1" episode_two_scenes (DeleteScene "s1" "h3" 3)))
  = scenes episode_two_scenes.
Proof.
  apply (proj1 (proj2 (undo_after_action "ep1" episode_two_scenes
                         (DeleteScene "s1" "h3" 3) "h4" 4 eq_refl eq_refl))).
  reflexivity.
Defined.

(** X21.  [redoSceneAction] after [undoSceneAction] gives back the scenes,
    the redo stack and every snapshot of the history; the top entry of the
    history is then a [reorder] entry described as [Undo of Redo], whatever
    the undone action was.  [undoSceneAction] after [redoSceneAction] gives
    back the scenes, the history and every snapshot of the redo stack.
    With nothing to undo, or to redo, the item is left as it is. *)
Theorem redo_after_undo (itemId : string) (item : StoryItem)
  (uid1 uid2 : string) (now1 now2 : Z) :
  item_id item = itemId ->
  (forall entry rest, sceneHistory item = Some (entry :: rest) ->
     let item' :=
       redoSceneAction itemId uid2 now2 (undoSceneAction itemId uid1 now1 item) in
     scenes item' = scenes item /\
     snapshot <$> or_nil (sceneHistory item') = snapshot <$> entry :: rest /\
     sceneRedoStack item' = Some (or_nil (sceneRedoStack item)) /\
     exists top,
       head (or_nil (sceneHistory item')) = Some top /\
       actionType top = "reorder" /\ description top = "Undo of Redo") /\
  (forall entry rest, sceneRedoStack item = Some (entry :: rest) ->
     let item' :=
       undoSceneAction itemId uid2 now2 (redoSceneAction itemId uid1 now1 item) in
     scenes item' = scenes item /\
     sceneHistory item' = Some (or_nil (sceneHistory item)) /\
     snapshot <$> or_nil (sceneRedoStack item') = snapshot <$> entry :: rest) /\
  (or_nil (sceneHistory item) = [] -> undoSceneAction itemId uid1 now1 item = item) /\
  (or_nil (sceneRedoStack item) = [] -> redoSceneAction itemId uid1 now1 item = item).
Proof.
  intros <-. split; [|split; [|split]].
  - intros entry rest Hh item'. subst item'.
    unfold undoSceneAction. rewrite String.eqb_refl. cbn [negb]. rewrite Hh. cbn [or_nil].
    unfold redoSceneAction. cbn [item_id]. rewrite String.eqb_refl.
    cbn [negb sceneRedoStack or_nil scenes sceneHistory snapshot].
    split; [reflexivity|]. split; [reflexivity|]. split; [reflexivity|].
    eexists. split; [reflexivity|]. split; reflexivity.
  - intros entry rest Hr item'. subst item'.
    unfold redoSceneAction. rewrite String.eqb_refl. cbn [negb]. rewrite Hr. cbn [or_nil].
    unfold undoSceneAction. cbn [item_id]. rewrite String.eqb_refl.
    cbn [negb sceneRedoStack or_nil scenes sceneHistory snapshot].
    split; [reflexivity|]. split; reflexivity.
  - intros Hnil. unfold undoSceneAction. rewrite String.eqb_refl, Hnil. reflexivity.
  - intros Hnil. unfold redoSceneAction. rewrite String.eqb_refl, Hnil. reflexivity.
Qed.

Lemma redo_after_undo_witness :
  scenes (redoSceneAction "ep1" "h4" 4 (undoSceneAction "ep1" "h3" 3 episode_two_scenes))
  = scenes episode_two_scenes.
Proof.
  destruct (proj1 (redo_after_undo "ep1" episode_two_scenes "h3" "h4" 3 4 eq_refl)
              _ _ eq_refl) as [H _].
  exact H.
Defined.

Lemma renumber_lookup (l : list Scene) (i : nat) (s : Scene) :
  renumber l !! i = Some s ->
  exists s0, l !! i = Some s0 /\ s = obj_set s0 "sceneNumber" (JNum (Z.of_nat i + 1)).
Proof. unfold renumber. intros H. now apply list_lookup_imap_Some in H. Qed.

Lemma renumber_numbered (l : list Scene) : numbered (renumber l).
Proof.
  intros i s H. apply renumber_lookup in H as (s0 & _ & ->). apply obj_get_set_eq.
Qed.

Lemma renumber_keeps (l : list Scene) (key : string) :
  key <> "sceneNumber" ->
  (fun s => obj_get s key) <$> renumber l = (fun s => obj_get s key) <$> l.
Proof.
  intros Hne. unfold renumber. rewrite fmap_imap.
  etransitivity; [|apply (imap_const (fun s : Scene => obj_get s key) l)].
  apply imap_ext. intros i x _. cbn. now apply obj_get_set_ne.
Qed.

(** X22.  [deleteScene] and [reorderScenes] leave the scenes numbered by
    their positions, from 1, and change no other property of a scene:
    after [deleteScene] the scenes are those of another id, in their
    order, and after [reorderScenes] they are the scenes that the caller
    passed, whatever they are.  [addScene] puts a scene of the fresh id
    last, with the next number, and keeps the scenes before it. *)
Theorem scenes_numbered (itemId : string) (item : StoryItem) :
  item_id item = itemId ->
  (forall sceneId uid now,
     let item' := deleteScene itemId sceneId uid now item in
     numbered (scenes item') /\
     (JStr sceneId ∉ scene_id <$> scenes item') /\
     forall key, key <> "sceneNumber" ->
       (fun s => obj_get s key) <$> scenes item'
       = (fun s => obj_get s key)
           <$> List.filter (fun s => negb (bool_decide (scene_id s = JStr sceneId)))
                 (scenes item)) /\
  (forall newScenes uid now,
     let item' := reorderScenes itemId newScenes uid now item in
     numbered (scenes item') /\
     length (scenes item') = length newScenes /\
     forall key, key <> "sceneNumber" ->
       (fun s => obj_get s key) <$> scenes item' = (fun s => obj_get s key) <$> newScenes) /\
  (forall historyUid now sceneUid,
     let item' := addScene itemId historyUid now sceneUid item in
     exists scene,
       scenes item' = scenes item ++ [scene] /\
       scene_id scene = JStr sceneUid /\
       (numbered (scenes item) -> numbered (scenes item'))).
Proof.
  intros <-. split; [|split].
  - intros sceneId uid now item'. subst item'. unfold deleteScene.
    rewrite String.eqb_refl. cbn [negb scenes].
    split; [apply renumber_numbered|]. split.
    + unfold scene_id. rewrite (renumber_keeps _ "id") by discriminate.
      intros Hin. apply list_elem_of_fmap in Hin as (s & Hs & Hin).
      apply list_elem_of_In, List.filter_In in Hin as [_ Hkeep].
      apply negb_true_iff, bool_decide_eq_false in Hkeep. now apply Hkeep.
    + intros key Hne. now apply renumber_keeps.
  - intros newScenes uid now item'. subst item'. unfold reorderScenes.
    rewrite String.eqb_refl. cbn [negb scenes].
    split; [apply renumber_numbered|]. split.
    + unfold renumber. apply length_imap.
    + intros key Hne. now apply renumber_keeps.
  - intros historyUid now sceneUid item'. subst item'. unfold addScene.
    rewrite String.eqb_refl. cbn [negb scenes].
    eexists. split; [reflexivity|]. split; [reflexivity|].
    intros Hnum i s Hi.
    apply lookup_app_Some in Hi as [Hi | [Hlen Hi]]; [now apply Hnum|].
    apply list_lookup_singleton_Some in Hi as [Hi <-].
    assert (i = length (scenes item)) as ->
      by (apply Nat.le_antisymm; [apply Nat.sub_0_le; exact Hi | exact Hlen]).
    reflexivity.
Qed.

Lemma scenes_numbered_witness :
  numbered (scenes (deleteScene "ep1" "s1" "h3" 3 episode_two_scenes)) /\
  JStr "s1" ∉ (scene_id <$> scenes (deleteScene "ep1" "s1" "h3" 3 episode_two_scenes)).
Proof.
  destruct (proj1 (scenes_numbered "ep1" episode_two_scenes eq_refl) "s1" "h3" 3)
    as (H1 & H2 & _).
  split; [exact H1 | exact H2].
Defined.

(** X23.  [revertToInitial] puts back the scenes of the oldest entry of
    the history.  Called again, it puts back the same scenes as long as
    the history held fewer than 30 entries; when it held 30 or more, the
    first call pushed the oldest entry out, and the second call puts back the
    scenes of the entry that was the oldest but one. *)
Theorem revertToInitial_again (itemId : string) (item : StoryItem)
  (uid1 uid2 : string) (now1 now2 : Z) (history : list SceneHistoryEntry)
  (oldest : SceneHistoryEntry) :
  item_id item = itemId ->
  sceneHistory item = Some history ->
  last history = Some oldest ->
  let once := revertToInitial itemId uid1 now1 item in
  let twice := revertToInitial itemId uid2 now2 once in
  scenes once = snapshot oldest /\
  ((length history < 30)%nat -> scenes twice = snapshot oldest) /\
  (forall previous, (30 <= length history)%nat -> history !! 28%nat = Some previous ->
     scenes twice = snapshot previous).
Proof.
  intros <- Hh Hlast once twice.
  assert (once
          = {| item_id := item_id item;
               scenes := snapshot oldest;
               sceneHistory :=
                 Some ({| history_id := uid1; timestamp := now1; actionType := "reorder";
                          description := "Reverted All Changes";
                          snapshot := deep_copy (scenes item) |} :: take 29 history);
               sceneRedoStack := None;
               item_fields := item_fields item |}) as Honce.
  { unfold once, revertToInitial. rewrite String.eqb_refl. cbn [negb].
    rewrite Hh. cbn [or_nil]. rewrite Hlast. unfold addHistoryEntry.
    rewrite Hh. reflexivity. }
  assert (forall e, last (take 29 history) = Some e -> scenes twice = snapshot e) as Htwice.
  { intros e He. unfold twice. rewrite Honce. unfold revertToInitial.
    cbn [item_id]. rewrite String.eqb_refl. cbn [negb sceneHistory or_nil].
    destruct (take 29 history) as [|x xs] eqn:Et; [discriminate|].
    rewrite last_cons_cons, He. reflexivity. }
  split; [now rewrite Honce|]. split.
  - intros Hlt. apply Htwice. rewrite take_ge by lia. exact Hlast.
  - intros previous Hge Hprev. apply Htwice.
    rewrite last_lookup, length_take_le by lia.
    cbn [pred]. rewrite lookup_take_lt by lia. exact Hprev.
Qed.

Lemma revertToInitial_again_witness :
  scenes (revertToInitial "ep1" "h4" 4 (revertToInitial "ep1" "h3" 3 episode_two_scenes))
  = [].
Proof.
  destruct (revertToInitial_again "ep1" episode_two_scenes "h3" "h4" 3 4 _ _
              eq_refl eq_refl eq_refl) as (_ & H & _).
  apply H. simpl. lia.
Defined.

(** * Properties of the line actions of the store *)

Section Splice.

Context {A : Type}.
Implicit Types (l : list A) (x : A) (p : Z).

Lemma splice_insert l p x :
  0 <= p <= Z.of_nat (length l) ->
  splice l p 0 [x] = take (Z.to_nat p) l ++ x :: drop (Z.to_nat p) l.
Proof.
  intros Hp. unfold splice. destruct (Z.ltb_spec p 0) as [H|H]; [lia|].
  rewrite (Z.min_l p) by lia. rewrite Z.max_r by lia. rewrite Z.min_l by lia.
  now rewrite Z.add_0_r.
Qed.

Lemma splice_insert_beyond l p x :
  Z.of_nat (length l) <= p -> splice l p 0 [x] = l ++ [x].
Proof.
  intros Hp. unfold splice. destruct (Z.ltb_spec p 0) as [H|H]; [lia|].
  rewrite (Z.min_r p) by lia. rewrite Z.max_r by lia. rewrite Z.min_l by lia.
  rewrite Z.add_0_r, Nat2Z.id, firstn_all, drop_all. reflexivity.
Qed.

Lemma splice_insert_before l p x :
  p <= - Z.of_nat (length l) -> splice l p 0 [x] = x :: l.
Proof.
  intros Hp. unfold splice. destruct (Z.ltb_spec p 0) as [H|H].
  - rewrite (Z.max_r _ 0) by lia. rewrite Z.max_r by lia. rewrite Z.min_l by lia.
    reflexivity.
  - assert (p = 0) as -> by lia. assert (length l = O) as Hl by lia.
    destruct l; [|discriminate]. reflexivity.
Qed.

Lemma splice_delete l p :
  0 <= p < Z.of_nat (length l) ->
  splice l p 1 [] = take (Z.to_nat p) l ++ drop (S (Z.to_nat p)) l.
Proof.
  intros Hp. unfold splice. destruct (Z.ltb_spec p 0) as [H|H]; [lia|].
  rewrite (Z.min_l p) by lia. rewrite Z.max_l by lia. rewrite Z.min_l by lia.
  cbn [app]. now replace (Z.to_nat (p + 1)) with (S (Z.to_nat p)) by lia.
Qed.

Lemma splice_delete_beyond l p :
  Z.of_nat (length l) <= p -> splice l p 1 [] = l.
Proof.
  intros Hp. unfold splice. destruct (Z.ltb_spec p 0) as [H|H]; [lia|].
  rewrite (Z.min_r p) by lia. rewrite Z.max_l by lia. rewrite Z.min_r by lia.
  rewrite Z.sub_diag, Z.add_0_r, Nat2Z.id, firstn_all, drop_all. cbn [app].
  apply app_nil_r.
Qed.

Lemma splice_delete_from_end l p :
  - Z.of_nat (length l) <= p < 0 ->
  splice l p 1 []
  = take (Z.to_nat (Z.of_nat (length l) + p)) l
    ++ drop (S (Z.to_nat (Z.of_nat (length l) + p))) l.
Proof.
  intros Hp. unfold splice. destruct (Z.ltb_spec p 0) as [H|H]; [|lia].
  rewrite (Z.max_l _ 0) by lia. rewrite Z.max_l by lia. rewrite Z.min_l by lia.
  cbn [app].
  now replace (Z.to_nat (Z.of_nat (length l) + p + 1))
    with (S (Z.to_nat (Z.of_nat (length l) + p))) by lia.
Qed.

Lemma splice_delete_before l p :
  p < - Z.of_nat (length l) -> splice l p 1 [] = drop 1 l.
Proof.
  intros Hp. unfold splice. destruct (Z.ltb_spec p 0) as [H|H]; [|lia].
  rewrite (Z.max_r _ 0) by lia. rewrite Z.max_l by lia.
  destruct l as [|a l]; [reflexivity|].
  rewrite Z.min_l by (cbn [length]; lia). reflexivity.
Qed.

Lemma splice_insert_delete l p x :
  0 <= p <= Z.of_nat (length l) ->
  splice (splice l p 0 [x]) p 1 [] = l.
Proof.
  intros Hp. rewrite splice_insert by exact Hp.
  assert (length (take (Z.to_nat p) l) = Z.to_nat p) as Hlen
    by (rewrite length_take; lia).
  rewrite splice_delete.
  - rewrite take_app_length' by (symmetry; exact Hlen).
    rewrite drop_app_ge by (rewrite Hlen; lia).
    rewrite Hlen. replace (S (Z.to_nat p) - Z.to_nat p)%nat with 1%nat by lia.
    cbn [drop]. rewrite drop_0. apply take_drop.
  - rewrite length_app, Hlen. cbn [length]. lia.
Qed.

End Splice.

Lemma obj_set_set {A : Type} (props : list (string * A)) (key : string) (v v' : A) :
  obj_set (obj_set props key v) key v' = obj_set props key v'.
Proof.
  induction props as [|[k x] props IH]; cbn [obj_set].
  - now rewrite String.eqb_refl.
  - destruct (String.eqb k key) eqn:E; cbn [obj_set]; rewrite E; [reflexivity|].
    now rewrite IH.
Qed.

Lemma obj_set_get (props : list (string * JsVal)) (key : string) (v : JsVal) :
  obj_get props key = v -> v <> JUndefined -> obj_set props key v = props.
Proof.
  intros Hget Hdef. induction props as [|[k x] props IH]; cbn [obj_get obj_set] in *.
  - congruence.
  - destruct (String.eqb k key); [now subst|]. now rewrite IH.
Qed.

Lemma line_round_trip_in (sceneId : string) (index : Z) (type : string) (s : Scene) :
  (scene_id s = JStr sceneId ->
   exists content,
     obj_get s "content" = JArr content /\ -1 <= index < Z.of_nat (length content)) ->
  exists s',
    addScreenplayLine_in sceneId index type s = Some s' /\
    deleteScreenplayLine_in sceneId (index + 1) s' = Some s.
Proof.
  intros H. unfold addScreenplayLine_in.
  destruct (decide (scene_id s = JStr sceneId)) as [Hid|Hid].
  - destruct (H Hid) as (content & Hc & Hidx).
    rewrite bool_decide_eq_true_2 by exact Hid. cbn [negb]. rewrite Hc. cbn [spread].
    eexists. split; [reflexivity|]. unfold deleteScreenplayLine_in.
    assert (scene_id (obj_set s "content"
                        (JArr (splice content (index + 1) 0
                                 [JObj [("type", JStr type); ("text", JStr "")]])))
            = JStr sceneId) as Hid'.
    { unfold scene_id. rewrite obj_get_set_ne by discriminate. exact Hid. }
    rewrite bool_decide_eq_true_2 by exact Hid'. cbn [negb].
    rewrite obj_get_set_eq. cbn [spread].
    rewrite splice_insert_delete by lia. rewrite obj_set_set.
    f_equal. apply obj_set_get; [exact Hc | discriminate].
  - rewrite bool_decide_eq_false_2 by exact Hid. cbn [negb].
    eexists. split; [reflexivity|]. unfold deleteScreenplayLine_in.
    rewrite bool_decide_eq_false_2 by exact Hid. reflexivity.
Qed.

(** X24.  Adding a line after position [index] of a scene and deleting the
    line at [index + 1] gives back the scenes as they were, when the
    content of the scene is an array and [index] is between -1 and its last
    position.  Adding a line changes no scene of another id. *)
Theorem screenplay_line_round_trip (sceneId : string) (index : Z) (type : string)
  (scenes : list Scene) :
  Forall (fun s => scene_id s = JStr sceneId ->
                   exists content,
                     obj_get s "content" = JArr content /\
                     -1 <= index < Z.of_nat (length content))
         scenes ->
  exists scenes',
    addScreenplayLine sceneId index type scenes = Some scenes' /\
    deleteScreenplayLine sceneId (index + 1) scenes' = Some scenes /\
    length scenes' = length scenes /\
    forall i s, scenes !! i = Some s -> scene_id s <> JStr sceneId ->
                scenes' !! i = Some s.
Proof.
  unfold addScreenplayLine, deleteScreenplayLine.
  induction 1 as [|s scenes Hs _ (scenes' & Hadd & Hdel & Hlen & Hother)].
  - exists []. repeat split; try reflexivity. intros i s Hi. discriminate.
  - destruct (line_round_trip_in sceneId index type s Hs) as (s' & Ha & Hd).
    exists (s' :: scenes'). split; [|split; [|split]].
    + cbn. rewrite Ha. cbn. rewrite Hadd. reflexivity.
    + cbn. rewrite Hd. cbn. rewrite Hdel. reflexivity.
    + cbn [length]. now rewrite Hlen.
    + intros [|i] x Hi Hx; cbn in Hi |- *.
      * injection Hi as ->. unfold addScreenplayLine_in in Ha.
        rewrite bool_decide_eq_false_2 in Ha by exact Hx. cbn in Ha. congruence.
      * now apply Hother.
Qed.

Lemma screenplay_line_round_trip_witness :
  exists scenes',
    addScreenplayLine "s1" 0 "dialogue" two_scenes = Some scenes' /\
    deleteScreenplayLine "s1" (0 + 1) scenes' = Some two_scenes /\
    length scenes' = length two_scenes /\
    forall i s, two_scenes !! i = Some s -> scene_id s <> JStr "s1" ->
                scenes' !! i = Some s.
Proof.
  apply (screenplay_line_round_trip "s1" 0 "dialogue" two_scenes).
  unfold two_scenes. constructor; [|constructor; [|constructor]].
  - intros _. eexists. split; [reflexivity|]. simpl. lia.
  - intros H. discriminate H.
Defined.

(** X25.  On a scene of the given id whose content is an array of [len]
    lines: [addScreenplayLine] always adds exactly one line and changes
    nothing else of the scene; with [index] at [len] or beyond the line
    goes last, and with [index + 1] at [-len] or below it goes first.
    [deleteScreenplayLine] removes the line at [index] when there is one,
    nothing when [index] is [len] or beyond, the line at [len + index]
    when [index] is negative, and the first line when [index] is below
    [-len]. *)
Theorem screenplay_line_bounds (sceneId type : string) (s : Scene) (content : list JsVal) :
  scene_id s = JStr sceneId ->
  obj_get s "content" = JArr content ->
  let len := Z.of_nat (length content) in
  let line := JObj [("type", JStr type); ("text", JStr "")] in
  (forall index,
     exists s', addScreenplayLine_in sceneId index type s = Some s' /\
       length (lines s') = S (length content) /\
       forall key, key <> "content" -> obj_get s' key = obj_get s key) /\
  (forall index s', addScreenplayLine_in sceneId index type s = Some s' ->
     (-1 <= index < len ->
      lines s' = take (Z.to_nat (index + 1)) content
                 ++ line :: drop (Z.to_nat (index + 1)) content) /\
     (len <= index -> lines s' = content ++ [line]) /\
     (index + 1 <= - len -> lines s' = line :: content)) /\
  (forall index s', deleteScreenplayLine_in sceneId index s = Some s' ->
     (0 <= index < len ->
      lines s' = take (Z.to_nat index) content ++ drop (S (Z.to_nat index)) content) /\
     (len <= index -> s' = s) /\
     (- len <= index < 0 ->
      lines s' = take (Z.to_nat (len + index)) content
                 ++ drop (S (Z.to_nat (len + index))) content) /\
     (index < - len -> lines s' = drop 1 content)) /\
  (forall index, exists s', deleteScreenplayLine_in sceneId index s = Some s').
Proof.
  intros Hid Hc len line.
  assert (forall index,
            addScreenplayLine_in sceneId index type s
            = Some (obj_set s "content" (JArr (splice content (index + 1) 0 [line]))))
    as Hadd.
  { intros index. unfold addScreenplayLine_in.
    rewrite bool_decide_eq_true_2 by exact Hid. cbn [negb]. now rewrite Hc. }
  assert (forall index,
            deleteScreenplayLine_in sceneId index s
            = Some (obj_set s "content" (JArr (splice content index 1 []))))
    as Hdel.
  { intros index. unfold deleteScreenplayLine_in.
    rewrite bool_decide_eq_true_2 by exact Hid. cbn [negb]. now rewrite Hc. }
  assert (forall l, lines (obj_set s "content" (JArr l)) = l) as Hlines.
  { intros l. unfold lines. now rewrite obj_get_set_eq. }
  split; [|split; [|split]].
  - intros index. eexists. split; [apply Hadd|]. split.
    + rewrite Hlines. unfold splice. rewrite !length_app, length_take, length_drop.
      cbn [length]. fold len.
      destruct (Z.ltb_spec (index + 1) 0); lia.
    + intros key Hne. now apply obj_get_set_ne.
  - intros index s' Hs. rewrite Hadd in Hs. injection Hs as <-. rewrite Hlines.
    split; [|split]; intros Hidx.
    + apply splice_insert. fold len. lia.
    + apply splice_insert_beyond. fold len. lia.
    + apply splice_insert_before. fold len. lia.
  - intros index s' Hs. rewrite Hdel in Hs. injection Hs as <-. rewrite Hlines.
    split; [|split; [|split]]; intros Hidx.
    + apply splice_delete. fold len. lia.
    + rewrite splice_delete_beyond by (fold len; lia).
      apply obj_set_get; [exact Hc | discriminate].
    + apply splice_delete_from_end. fold len. lia.
    + apply splice_delete_before. fold len. lia.
  - intros index. eexists. apply Hdel.
Qed.

Lemma screenplay_line_bounds_witness :
  exists s',
    deleteScreenplayLine_in "s1" (-1) scene_with_lines = Some s' /\
    lines s' = [JObj [("type", JStr "action"); ("text", JStr "Night.")]].
Proof.
  eexists. split; [reflexivity|].
  destruct (proj1 (proj2 (proj2
              (screenplay_line_bounds "s1" "action" scene_with_lines _ eq_refl eq_refl)))
              (-1) _ eq_refl) as (_ & _ & H & _).
  apply H. simpl. lia.
Defined.

(** * Properties of the drop of a dragged scene *)

Lemma find_by_id (l : list Scene) (i : nat) (s : Scene) :
  NoDup (scene_id <$> l) -> l !! i = Some s ->
  fst <$> list_find (fun x => scene_id x = scene_id s) l = Some i.
Proof.
  intros Hnd Hi.
  assert (list_find (fun x => scene_id x = scene_id s) l = Some (i, s)) as ->; [|reflexivity].
  apply list_find_Some. split; [exact Hi|]. split; [reflexivity|].
  intros j y Hj Hlt Hid.
  assert (i = j); [|lia].
  apply (NoDup_lookup _ i j (scene_id s) Hnd); rewrite list_lookup_fmap.
  - now rewrite Hi.
  - rewrite Hj. cbn. now rewrite Hid.
Qed.

Lemma first_moved_same (old : list Scene) (k : nat) (same rest : list Scene) :
  NoDup (scene_id <$> old) ->
  (forall j s, same !! j = Some s -> old !! (k + j)%nat = Some s) ->
  first_moved old k (same ++ rest) = first_moved old (k + length same) rest.
Proof.
  intros Hnd. revert k. induction same as [|s same IH]; intros k Hsame.
  - cbn [app length]. now rewrite Nat.add_0_r.
  - cbn [app first_moved length].
    rewrite (find_by_id old k s Hnd).
    + rewrite bool_decide_eq_true_2 by reflexivity.
      rewrite IH; [f_equal; lia|].
      intros j x Hj. replace (S k + j)%nat with (k + S j)%nat by lia.
      now apply Hsame.
    + specialize (Hsame O s eq_refl). now rewrite Nat.add_0_r in Hsame.
Qed.

Lemma first_moved_here (old : list Scene) (k j : nat) (s : Scene) (rest : list Scene) :
  NoDup (scene_id <$> old) -> old !! j = Some s -> j <> k ->
  first_moved old k (s :: rest) = Some (Some j, k).
Proof.
  intros Hnd Hj Hne. cbn [first_moved]. rewrite (find_by_id old j s Hnd Hj).
  rewrite bool_decide_eq_false_2 by congruence. reflexivity.
Qed.

Lemma splice_removed_at {A : Type} (before rest : list A) (x : A) :
  splice_removed (before ++ x :: rest) (Z.of_nat (length before)) 1 = [x].
Proof.
  unfold splice_removed. rewrite length_app. cbn [length].
  destruct (Z.ltb_spec (Z.of_nat (length before)) 0) as [H|H]; [lia|].
  rewrite (Z.min_l (Z.of_nat (length before))) by lia.
  rewrite Z.max_l by lia. rewrite Z.min_l by lia.
  rewrite Nat2Z.id, drop_app_length. reflexivity.
Qed.

Lemma splice_delete_at {A : Type} (before rest : list A) (x : A) :
  splice (before ++ x :: rest) (Z.of_nat (length before)) 1 [] = before ++ rest.
Proof.
  rewrite splice_delete by (rewrite length_app; cbn [length]; lia).
  rewrite Nat2Z.id, take_app_length.
  rewrite drop_app_ge by lia.
  replace (S (length before) - length before)%nat with 1%nat by lia. reflexivity.
Qed.

Lemma splice_insert_at {A : Type} (before rest : list A) (x : A) :
  splice (before ++ rest) (Z.of_nat (length before)) 0 [x] = before ++ x :: rest.
Proof.
  rewrite splice_insert by (rewrite length_app; lia).
  now rewrite Nat2Z.id, take_app_length, drop_app_length.
Qed.

(** X26.  A scene that is dragged over other scenes and dropped takes its
    new place, and the scenes it passed keep their order; [reorderScenes]
    then numbers the scenes by position.  When the scenes have distinct
    ids, the history entry of a move up names the moved scene and its new
    position; the entry of a move down names the scene that followed the
    moved one, as moving to the place that the moved scene left. *)
Theorem drop_then_reorder (itemId : string) (item : StoryItem) (uid : string) (now : Z)
  (before passed after : list Scene) (moved : Scene) :
  item_id item = itemId ->
  NoDup (scene_id <$> scenes item) ->
  passed <> [] ->
  let first := Z.of_nat (length before) in
  let second := first + Z.of_nat (length passed) in
  (scenes item = before ++ moved :: passed ++ after ->
   let newScenes := before ++ passed ++ moved :: after in
   dropped_scenes (scenes item) first second = Some newScenes /\
   scenes (reorderScenes itemId newScenes uid now item) = renumber newScenes /\
   description <$> head (or_nil (sceneHistory (reorderScenes itemId newScenes uid now item)))
   = Some ("Reordered: Scene " +:+ string_of_Z (first + 2)
           +:+ " -> Position " +:+ string_of_Z (first + 1))) /\
  (scenes item = before ++ passed ++ moved :: after ->
   let newScenes := before ++ moved :: passed ++ after in
   dropped_scenes (scenes item) second first = Some newScenes /\
   scenes (reorderScenes itemId newScenes uid now item) = renumber newScenes /\
   description <$> head (or_nil (sceneHistory (reorderScenes itemId newScenes uid now item)))
   = Some ("Reordered: Scene " +:+ string_of_Z (second + 1)
           +:+ " -> Position " +:+ string_of_Z (first + 1))).
Proof.
  intros <- Hnd Hpassed first second.
  assert (0 < Z.of_nat (length passed)) as Hlen.
  { destruct passed; [congruence|]. cbn [length]. lia. }
  split.
  - intros Hscenes newScenes. split; [|split].
    + unfold dropped_scenes. rewrite Hscenes.
      destruct (Z.eqb_spec first second) as [E|_]; [unfold second in E; lia|].
      unfold first at 1. rewrite splice_removed_at. cbn [head].
      unfold first at 1. rewrite splice_delete_at.
      unfold second, first. rewrite <- Nat2Z.inj_add, <- length_app.
      rewrite app_assoc, splice_insert_at. unfold newScenes.
      now rewrite <- app_assoc.
    + unfold reorderScenes. rewrite String.eqb_refl. reflexivity.
    + unfold reorderScenes. rewrite String.eqb_refl. cbn [negb sceneHistory or_nil].
      unfold addHistoryEntry. cbn [take head fmap option_fmap option_map description].
      do 2 f_equal. unfold newScenes.
      rewrite (first_moved_same (scenes item) O before) by
        (try exact Hnd; intros j s Hj; rewrite Hscenes; cbn [Nat.add];
         now apply lookup_app_l_Some).
      destruct passed as [|p passed]; [congruence|]. cbn [app Nat.add].
      rewrite (first_moved_here (scenes item) (length before) (S (length before)) p).
      * unfold first. do 2 f_equal; f_equal; lia.
      * exact Hnd.
      * rewrite Hscenes. rewrite lookup_app_r by lia.
        now replace (S (length before) - length before)%nat with 1%nat by lia.
      * lia.
  - intros Hscenes newScenes. split; [|split].
    + unfold dropped_scenes. rewrite Hscenes.
      destruct (Z.eqb_spec second first) as [E|_]; [unfold second in E; lia|].
      unfold second, first. rewrite <- Nat2Z.inj_add, <- length_app.
      rewrite app_assoc, splice_removed_at. cbn [head].
      rewrite splice_delete_at. rewrite <- app_assoc.
      rewrite splice_insert_at. reflexivity.
    + unfold reorderScenes. rewrite String.eqb_refl. reflexivity.
    + unfold reorderScenes. rewrite String.eqb_refl. cbn [negb sceneHistory or_nil].
      unfold addHistoryEntry. cbn [take head fmap option_fmap option_map description].
      do 2 f_equal. unfold newScenes.
      rewrite (first_moved_same (scenes item) O before) by
        (try exact Hnd; intros j s Hj; rewrite Hscenes; cbn [Nat.add];
         now apply lookup_app_l_Some).
      cbn [Nat.add].
      rewrite (first_moved_here (scenes item) (length before)
                 (length before + length passed) moved).
      * unfold second, first. do 2 f_equal; f_equal; lia.
      * exact Hnd.
      * rewrite Hscenes. rewrite lookup_app_r by lia.
        replace (length before + length passed - length before)%nat
          with (length passed) by lia.
        rewrite lookup_app_r by lia.
        now replace (length passed - length passed)%nat with O by lia.
      * lia.
Qed.

Lemma drop_then_reorder_witness :
  dropped_scenes three_scenes 0 1 = Some [scene_two; scene_one; scene_three] /\
  description
    <$> head (or_nil (sceneHistory
                        (reorderScenes "ep1" [scene_two; scene_one; scene_three] "h1" 1
                           episode_three_scenes)))
  = Some "Reordered: Scene 2 -> Position 1".
Proof.
  assert (NoDup (scene_id <$> scenes episode_three_scenes)) as Hnd.
  { apply (bool_decide_unpack _). vm_compute. exact I. }
  assert ([scene_two] <> []) as Hne by discriminate.
  destruct (proj1 (drop_then_reorder "ep1" episode_three_scenes "h1" 1
                     [] [scene_two] [scene_three] scene_one eq_refl Hnd Hne) eq_refl)
    as (H1 & _ & H3).
  split; [exact H1 | exact H3].
Defined.
